(** * Beat-driven ASCII visualizers: a shallow embedding and its properties

    The repository holds four scripts under [scripts/visualizers/]:
    - [ascii-beats.py]          the unified visualizer (modes simple, standard, insane),
    - [ascii-beats-simple.py]   the first fixed-tempo variant,
    - [ascii-beats-insane.py]   the queue-driven variant fed by an audio thread,
    - [ascii-beats-working.py]  the fixed-tempo variant with sub-beats.

    Each script is a render loop.  One loop iteration is embedded as a function
    from the loop's local variables and the observations the iteration makes of
    its environment (the wall clock, the pseudo-random generator, the keyboard,
    the audio mixer) to the new local variables or to a raised exception.

    Conventions of the embedding:
    - Python integers are [Z]; Python floats (time stamps, intensities) are
      idealised as exact rationals [Q];
    - the pseudo-random generator is a tape of raw draws consumed in call
      order, so every theorem holds for every sequence of random outcomes;
    - drawing calls into asciimatics and pygame only leave events in a trace;
      an exception raised inside such a call is an observation of the
      iteration ([fault]);
    - the one library call whose failure the scripts decide themselves is the
      firework constructor: [ParticleEffect.__init__] takes [screen, x, y,
      life_time] by position and everything else by keyword, and every call
      in the four scripts passes a fifth positional argument. *)

From Stdlib Require Import ZArith QArith Qround List Sorted String Bool Lia Lqa.
Import ListNotations.
Open Scope Z_scope.

Set Implicit Arguments.

(* ================================================================== *)
(** ** Python primitives used by the scripts *)
(* ================================================================== *)

Module Py.

(** Exceptions.  [KeyboardInterrupt] is the only one that is not a subclass
    of [Exception]. *)
Inductive exn : Type :=
| ValueError (msg : string)
| TypeError (msg : string)
| NameError (msg : string)
| IndexError (msg : string)
| LibraryError (msg : string)
| KeyboardInterrupt.

Definition is_Exception (e : exn) : bool :=
  match e with
  | KeyboardInterrupt => false
  | _ => true
  end.

(** [str(e)] *)
Definition str (e : exn) : string :=
  match e with
  | ValueError m => m
  | TypeError m => m
  | NameError m => m
  | IndexError m => m
  | LibraryError m => m
  | KeyboardInterrupt => EmptyString
  end.

Inductive result (A : Type) : Type :=
| Ok (a : A)
| Raise (e : exn).
Arguments Raise {A} e.

(** The generator: raw draws, consumed from the head.  An exhausted tape
    keeps answering 0. *)
Definition tape : Type := list N.

(** Computations that draw random numbers and may raise. *)
Definition Rand (A : Type) : Type := tape -> result (A * tape).

Definition ret {A} (a : A) : Rand A := fun t => Ok (a, t).

Definition raise {A} (e : exn) : Rand A := fun _ => Raise e.

Definition bind {A B} (c : Rand A) (k : A -> Rand B) : Rand B :=
  fun t =>
    match c t with
    | Ok (a, t') => k a t'
    | Raise e => Raise e
    end.

Definition draw : Rand N :=
  fun t =>
    match t with
    | [] => Ok (0%N, [])
    | n :: t' => Ok (n, t')
    end.

(** [for _ in range(n): s = body(s)] *)
Fixpoint repeatM {S} (n : nat) (body : S -> Rand S) (s : S) : Rand S :=
  match n with
  | O => ret s
  | S n' => bind (body s) (repeatM n' body)
  end.

(** [for x in xs: s = body(s, x)] *)
Fixpoint forM {S X} (xs : list X) (body : S -> X -> Rand S) (s : S) : Rand S :=
  match xs with
  | [] => ret s
  | x :: xs' => bind (body s x) (forM xs' body)
  end.

(** A list display [[c1, c2, ...]]: the items are evaluated left to right. *)
Fixpoint sequence {A} (cs : list (Rand A)) : Rand (list A) :=
  match cs with
  | [] => ret []
  | c :: cs' => bind c (fun a => bind (sequence cs') (fun rest => ret (a :: rest)))
  end.

(** [x < y] on floats *)
Definition Qlt_bool (x y : Q) : bool := negb (Qle_bool y x).

(** [range(n)] runs its body [n] times, and not at all when [n <= 0]. *)
Definition range_len (n : Z) : nat := Z.to_nat n.

(** [int(x)] on a float: truncation toward zero. *)
Definition py_int (x : Q) : Z := Z.quot (Qnum x) (Zpos (Qden x)).

(** [random.random()]: a float in [0, 1) with 53 bits. *)
Definition two53 : positive := 9007199254740992.

Definition random : Rand Q :=
  bind draw (fun n => ret (Z.of_N n mod Zpos two53 # two53)).

(** [random.randint(a, b)]: an integer in [a, b]; [ValueError] on an empty
    range. *)
Definition randint (a b : Z) : Rand Z :=
  if b <? a then raise (ValueError "empty range for randrange()")
  else bind draw (fun n => ret (a + Z.of_N n mod (b - a + 1))).

(** [random.choice(seq)]: [IndexError] on an empty sequence. *)
Definition choice {A} (seq : list A) : Rand A :=
  match seq with
  | [] => raise (IndexError "Cannot choose from an empty sequence")
  | x :: _ => bind draw (fun n => ret (nth (N.to_nat n mod List.length seq) seq x))
  end.

Fixpoint remove_nth {A} (i : nat) (l : list A) : list A :=
  match l, i with
  | [], _ => []
  | _ :: l', O => l'
  | x :: l', S i' => x :: remove_nth i' l'
  end.

(** [random.sample(population, k)]: [k] elements at distinct positions. *)
Fixpoint sample {A} (k : nat) (population : list A) : Rand (list A) :=
  match k with
  | O => ret []
  | S k' =>
      match population with
      | [] => raise (ValueError "Sample larger than population or is negative")
      | x :: _ =>
          bind draw (fun n =>
            let i := (N.to_nat n mod List.length population)%nat in
            bind (sample k' (remove_nth i population)) (fun rest =>
              ret (nth i population x :: rest)))
      end
  end.

End Py.

Import Py.

Declare Scope rand_scope.
Delimit Scope rand_scope with rand.
Notation "x <- c ;; k" := (bind c (fun x => k))
  (at level 61, c at next level, right associativity) : rand_scope.
Open Scope rand_scope.

(** Two readings of a computation: what holds of every result it returns,
    and that it returns on every tape. *)
Definition post {A} (c : Rand A) (P : A -> Prop) : Prop :=
  forall t a t', c t = Ok (a, t') -> P a.

Definition total {A} (c : Rand A) : Prop :=
  forall t, exists a t', c t = Ok (a, t').

Definition raises {A} (c : Rand A) (e : exn) : Prop :=
  forall t, c t = Raise e.

(* ================================================================== *)
(** ** Data shared by the four scripts *)
(* ================================================================== *)

(** The asciimatics particle effects the scripts instantiate. *)
Inductive firework_class : Type :=
| RingFirework | SerpentFirework | StarFirework | PalmFirework.

(** A particle effect object: its class, position and [life_time], and the
    [start_frame] keyword of [Effect] (0 when it is not given). *)
Record particle : Type := mk_particle {
  cls : firework_class;
  px : Z;
  py : Z;
  life_time : Z;
  start_frame : Z
}.

Definition too_many_positional : string :=
  "ParticleEffect.__init__() takes 5 positional arguments but 6 were given".

(** A constructor call [cls(screen, x, y, life_time, *more)].  The four
    firework classes inherit
    [ParticleEffect.__init__(self, screen, x, y, life_time, **kwargs)]:
    nothing after [life_time] is accepted by position, so a call with a
    further positional argument raises [TypeError].  Python evaluates the
    arguments before the call, so the draws made in the argument list are
    bound before [new_particle] in the embedding. *)
Definition new_particle (cls : firework_class) (x y life_time : Z) (more : list Z)
    : Rand particle :=
  match more with
  | [] => ret (mk_particle cls x y life_time 0)
  | _ :: _ => raise (TypeError too_many_positional)
  end.

(** The dictionaries [{'effect': ..., 'birth': ..., 'lifetime': ...}] kept in
    [active_explosions]. *)
Record explosion : Type := mk_explosion {
  effect : particle;
  birth : Z;
  lifetime : Z
}.

Record screen : Type := mk_screen { width : Z; height : Z }.

Inductive colour : Type :=
| COLOUR_RED | COLOUR_GREEN | COLOUR_YELLOW | COLOUR_BLUE
| COLOUR_MAGENTA | COLOUR_CYAN | COLOUR_WHITE.

(** What a script does to the outside world, in order. *)
Inductive event : Type :=
| EvStdout (s : string)          (* print(...) *)
| EvStderr (s : string)          (* argparse diagnostics, traceback *)
| EvSleep (seconds : Q)          (* time.sleep *)
| EvScreenOpen                   (* Screen.wrapper enters *)
| EvScreenClose                  (* Screen.wrapper restores the terminal *)
| EvMixerInit                    (* pygame.mixer.init *)
| EvMusicLoad (path : string)    (* pygame.mixer.music.load *)
| EvMusicPlay                    (* pygame.mixer.music.play *)
| EvMusicStop                    (* pygame.mixer.music.stop *)
| EvPygameQuit                   (* pygame.quit *)
| EvAnalyse (path : string)      (* librosa analysis of the file *)
| EvThreadStart                  (* audio_thread.start *)
| EvClear                        (* screen.clear *)
| EvPrintAt (s : string) (x y : Z)  (* screen.print_at outside the frame body *)
| EvRefresh.                     (* screen.refresh *)

Definition trace : Type := list event.

(** A trace in which the terminal session, the audio or the render loop has
    been started. *)
Definition starts_session (tr : trace) : Prop :=
  In EvScreenOpen tr \/ In EvClear tr \/ In EvMixerInit tr \/ In EvThreadStart tr.

(** How a call of [demo] ends; [Running] when the script of observations is
    used up while the loop is still going. *)
Inductive outcome (S : Type) : Type :=
| Returned
| Raised (e : exn)
| Running (st : S).
Arguments Returned {S}.
Arguments Raised {S} e.

(** Key codes tested by the quit check: [ord('q')], [ord('Q')], [Screen.ctrl('c')]. *)
Definition quit_keys : list Z := [113; 81; 3].

Definition is_quit (key : option Z) : bool :=
  match key with
  | Some k => existsb (Z.eqb k) quit_keys
  | None => false
  end.

(** The sweep every script applies once per frame:
    [[exp for exp in active_explosions if frame - exp['birth'] < exp['lifetime']]] *)
Definition sweep (frame : Z) (active_explosions : list explosion) : list explosion :=
  filter (fun exp => frame - birth exp <? lifetime exp) active_explosions.

(** The tracker over consecutive frames, as every loop drives it: during
    frame [frame] the entries of the head of [added] (effect and lifetime) are
    appended with [birth = frame], then the sweep of that frame runs, and the
    frame counter advances.  The result is the live list after the sweep of
    frame [frame + length added - 1]. *)
Fixpoint track (frame : Z) (added : list (list (particle * Z))) (live : list explosion)
    : list explosion :=
  match added with
  | [] => live
  | new :: later =>
      track (frame + 1) later
        (sweep frame (live ++ map (fun el => mk_explosion (fst el) frame (snd el)) new))
  end.

(** The exception that ends the first firework of a beat in the unified, the
    simple and the queue-driven script: the position draws
    [random.randint(5, screen.width - 5)] and
    [random.randint(5, screen.height - 5)] need a screen of at least 10
    columns and 10 rows; past them the first constructor call is made. *)
Definition firework_exception (scr : screen) : exn :=
  if (width scr - 5 <? 5) || (height scr - 5 <? 5)
  then ValueError "empty range for randrange()"
  else TypeError too_many_positional.

(** [sys.argv[1] if len(sys.argv) > 1 else "woah-dope8.wav"], the file name
    of the three single-mode variants. *)
Definition argv_audio_file (argv : list string) : string :=
  match argv with
  | _ :: a :: _ => a
  | _ => "woah-dope8.wav"%string
  end.

(** [f"Error: Audio file '{audio_file}' not found!"] *)
Definition not_found (audio_file : string) : string :=
  ("Error: Audio file '" ++ audio_file ++ "' not found!")%string.

(** The single-mode variants each define four colour schemes; only their
    number enters the index arithmetic. *)
Definition n_schemes : Z := 4.

(* ================================================================== *)
(** ** ascii-beats.py: the unified visualizer *)
(* ================================================================== *)

Module Unified.

(** [class VisualizerMode(Enum)], lines 23-26 *)
Inductive VisualizerMode : Type := SIMPLE | STANDARD | INSANE.

Definition value (m : VisualizerMode) : string :=
  match m with
  | SIMPLE => "simple"
  | STANDARD => "standard"
  | INSANE => "insane"
  end.

(** [VisualizerMode(s)]: lookup of a member by value. *)
Definition VisualizerMode_of (s : string) : result VisualizerMode :=
  if String.eqb s "simple" then Ok SIMPLE
  else if String.eqb s "standard" then Ok STANDARD
  else if String.eqb s "insane" then Ok INSANE
  else Raise (ValueError (s ++ " is not a valid VisualizerMode")).

Definition is_simple (m : VisualizerMode) : bool :=
  match m with SIMPLE => true | _ => false end.

(** [create_effects], lines 53-77: the persistent background effects. *)
Inductive background : Type :=
| Matrix | PlasmaPrint | TitleCycle (text : string) | Stars (count : Z).

Definition create_effects (scr : screen) (mode : VisualizerMode) : list background :=
  [Matrix]
  ++ (match mode with
      | STANDARD => [PlasmaPrint; TitleCycle "BEATS!"]
      | INSANE => [PlasmaPrint; TitleCycle "INSANE!"]
      | SIMPLE => []
      end)
  ++ (match mode with
      | INSANE => [Stars (width scr * height scr / 6)]
      | _ => []
      end).

(** [create_fireworks], lines 79-119 *)
Definition create_fireworks (scr : screen) (x y : Z) (intensity : Q)
    (mode : VisualizerMode) : Rand (list particle) :=
  match mode with
  | SIMPLE =>
      let num_fireworks := Z.min (py_int (intensity * 3) + 1) 3 in
      repeatM (range_len num_fireworks) (fun explosions =>
        dx <- randint (-2) 2;;
        dy <- randint (-1) 1;;
        let fx := x + dx in
        let fy := y + dy in
        lt <- randint 10 15;;
        effect <- new_particle RingFirework fx fy lt [15];;
        ret (explosions ++ [effect])) []
  | STANDARD =>
      let num_fireworks := Z.min (py_int (intensity * 6) + 2) 6 in
      repeatM (range_len num_fireworks) (fun explosions =>
        dx <- randint (-3) 3;;
        dy <- randint (-2) 2;;
        let fx := x + dx in
        let fy := y + dy in
        firework_class <- choice [RingFirework; SerpentFirework; StarFirework];;
        lt <- randint 15 20;;
        effect <- new_particle firework_class fx fy lt [20];;
        ret (explosions ++ [effect])) []
  | INSANE =>
      let num_fireworks := Z.min (py_int (intensity * 12) + 3) 12 in
      let firework_types :=
        [RingFirework; SerpentFirework; StarFirework; PalmFirework] in
      repeatM (range_len num_fireworks) (fun explosions =>
        dx <- randint (-5) 5;;
        dy <- randint (-3) 3;;
        let fx := x + dx in
        let fy := y + dy in
        fts <- sample (Z.to_nat (Z.min 2 (Z.of_nat (List.length firework_types))))
                      firework_types;;
        forM fts (fun explosions ft =>
          ddx <- randint (-2) 2;;
          ddy <- randint (-1) 1;;
          lt <- randint 20 30;;
          effect <- new_particle ft (fx + ddx) (fy + ddy) lt [25];;
          ret (explosions ++ [effect]))
          explosions) []
  end.

(** The bound of the [for] loop of [create_fireworks], lines 85, 94 and
    106. *)
Definition num_fireworks (mode : VisualizerMode) (intensity : Q) : Z :=
  match mode with
  | SIMPLE => Z.min (py_int (intensity * 3) + 1) 3
  | STANDARD => Z.min (py_int (intensity * 6) + 2) 6
  | INSANE => Z.min (py_int (intensity * 12) + 3) 12
  end.

(** The per-mode configuration, lines 139-156. *)
Record config : Type := mk_config {
  beat_interval : Q;
  sub_beat_interval : Q;
  target_fps : Z;
  frame_sleep : Q;
  max_explosions : Z
}.

Definition configure (mode : VisualizerMode) : config :=
  match mode with
  | SIMPLE => mk_config 0.5 0.25 30 (1 / 30) 20
  | STANDARD => mk_config 0.5 0.125 40 (1 / 40) 40
  | INSANE => mk_config 0.5 0.125 40 (1 / 40) 100
  end.

(** [color_schemes], lines 169-174 *)
Definition color_schemes : list (list colour) :=
  [ [COLOUR_RED; COLOUR_YELLOW; COLOUR_WHITE];
    [COLOUR_BLUE; COLOUR_CYAN; COLOUR_WHITE];
    [COLOUR_GREEN; COLOUR_YELLOW; COLOUR_WHITE];
    [COLOUR_MAGENTA; COLOUR_YELLOW; COLOUR_CYAN] ].

(** The local variables of [demo] that the loop updates. *)
Record state : Type := mk_state {
  frame : Z;
  start_time : Q;
  beat_count : Z;
  active_explosions : list explosion;
  last_beat_time : Q;
  last_sub_beat : Q;
  current_scheme_idx : Z;
  running : bool;
  intensity : Q
}.

(** What one pass through the loop observes: [get_busy()] at the loop test,
    [time.time()] at line 187, the generator's draws in call order, an
    exception raised by a library call while the frame is drawn (lines
    276-314), and the key code of [screen.get_event()]. *)
Record tick : Type := mk_tick {
  busy : bool;
  now : Q;
  rnd : tape;
  fault : option exn;
  key : option Z
}.

(** Line 191: [current_time - last_beat_time >= beat_interval] *)
Definition beat_due (cfg : config) (st : state) (current_time : Q) : bool :=
  Qle_bool (beat_interval cfg) (current_time - last_beat_time st).

(** Line 196: [8 if mode != VisualizerMode.SIMPLE else 16] *)
Definition rotation_period (mode : VisualizerMode) : Z :=
  if negb (is_simple mode) then 8 else 16.

(** Line 213: [30 if mode == VisualizerMode.SIMPLE else 50] *)
Definition tracker_lifetime (mode : VisualizerMode) : Z :=
  if is_simple mode then 30 else 50.

(** Lines 192-197: the clock part of the beat branch. *)
Definition beat_clock (mode : VisualizerMode) (current_time : Q) (st : state) : state :=
  let beat_count' := beat_count st + 1 in
  mk_state (frame st) (start_time st) beat_count' (active_explosions st)
    current_time (last_sub_beat st)
    (if beat_count' mod rotation_period mode =? 0
     then (current_scheme_idx st + 1) mod Z.of_nat (List.length color_schemes)
     else current_scheme_idx st)
    (running st) (intensity st).

(** Lines 208-214: the guarded appends of one spawn point. *)
Definition append_capped (mode : VisualizerMode) (cfg : config) (frame : Z)
    (active : list explosion) (new_explosions : list particle) : list explosion :=
  fold_left
    (fun active explosion =>
       if Z.of_nat (List.length active) <? max_explosions cfg
       then active ++ [mk_explosion explosion frame (tracker_lifetime mode)]
       else active)
    new_explosions active.

(** Lines 200-214: intensity and the spawn points. *)
Definition spawn (scr : screen) (mode : VisualizerMode) (cfg : config) (st : state)
    : Rand state :=
  intensity' <- (if negb (is_simple mode)
                 then (r <- random;; ret (0.7 + r * 0.3)%Q)
                 else ret 0.5%Q);;
  active' <- repeatM (if is_simple mode then 1 else 3)%nat (fun active =>
               x <- randint 5 (width scr - 5);;
               y <- randint 5 (height scr - 5);;
               new_explosions <- create_fireworks scr x y intensity' mode;;
               ret (append_capped mode cfg (frame st) active new_explosions))
             (active_explosions st);;
  ret (mk_state (frame st) (start_time st) (beat_count st) active'
         (last_beat_time st) (last_sub_beat st) (current_scheme_idx st)
         (running st) intensity').

(** Lines 191-255.  The flash, text and art blocks that follow the spawn
    points only draw; their random draws come after the ones read here. *)
Definition on_beat (scr : screen) (mode : VisualizerMode) (cfg : config)
    (current_time : Q) (st : state) : Rand state :=
  if beat_due cfg st current_time
  then spawn scr mode cfg (beat_clock mode current_time st)
  else ret st.

(** Lines 258-259: the sub-beat clock (its sparkles only draw). *)
Definition on_sub_beat (mode : VisualizerMode) (cfg : config) (current_time : Q)
    (st : state) : state :=
  if negb (is_simple mode)
     && Qle_bool (sub_beat_interval cfg) (current_time - last_sub_beat st)
  then mk_state (frame st) (start_time st) (beat_count st) (active_explosions st)
         (last_beat_time st) current_time (current_scheme_idx st)
         (running st) (intensity st)
  else st.

(** Lines 281-284, 316-321: sweep, quit check, frame counter. *)
Definition end_of_frame (k : option Z) (st : state) : state :=
  mk_state (frame st + 1) (start_time st) (beat_count st)
    (sweep (frame st) (active_explosions st))
    (last_beat_time st) (last_sub_beat st) (current_scheme_idx st)
    (if is_quit k then false else running st) (intensity st).

(** The body of the [while] loop, lines 185-322. *)
Definition demo_iter (scr : screen) (mode : VisualizerMode) (st : state) (tk : tick)
    : result state :=
  let cfg := configure mode in
  match on_beat scr mode cfg (now tk) st (rnd tk) with
  | Raise e => Raise e
  | Ok (st1, _) =>
      let st2 := on_sub_beat mode cfg (now tk) st1 in
      match fault tk with
      | Some e => Raise e
      | None => Ok (end_of_frame (key tk) st2)
      end
  end.

(** The [finally] block, lines 324-327. *)
Definition cleanup : trace := [EvMusicStop; EvPygameQuit].

(** [while running and pygame.mixer.music.get_busy()] inside [try/finally],
    lines 183-327. *)
Fixpoint loop (scr : screen) (mode : VisualizerMode) (st : state) (ticks : list tick)
    : trace * outcome state :=
  match ticks with
  | [] => ([], Running st)
  | tk :: rest =>
      if running st && busy tk then
        match demo_iter scr mode st tk with
        | Ok st' =>
            let (tr, o) := loop scr mode st' rest in
            ([EvClear; EvRefresh; EvSleep (frame_sleep (configure mode))] ++ tr, o)
        | Raise e => ([EvClear] ++ cleanup, Raised e)
        end
      else (cleanup, Returned)
  end.

(** The three [time.time()] reads of lines 162, 165 and 166. *)
Record startup : Type := mk_startup { t_start : Q; t_beat : Q; t_sub : Q }.

Definition init_state (s : startup) : state :=
  mk_state 0 (t_start s) 0 [] (t_beat s) (t_sub s) 0 true 0.5.

(** [demo(screen, audio_file, mode)], lines 121-327 *)
Definition demo (scr : screen) (fs : string -> bool) (audio_file : string)
    (mode : VisualizerMode) (s : startup) (ticks : list tick)
    : trace * outcome state :=
  if negb (fs audio_file)
  then ([EvPrintAt (not_found audio_file) 0 0; EvRefresh; EvSleep 2], Returned)
  else
    let (tr, o) := loop scr mode (init_state s) ticks in
    ([EvMixerInit; EvMusicLoad audio_file; EvMusicPlay] ++ tr, o).

(** The command line after the program name, one item per argument string,
    as argparse classifies the strings for the parser of lines 330-338
    before it consumes them. *)
Inductive arg : Type :=
| Positional (s : string)   (* names no option: a file name, a mode value *)
| OptHelp                   (* -h, --help *)
| OptMode                   (* -m, --mode: the value is the next argument *)
| OptModeEq (v : string)    (* --mode=v, -mv: the value is attached *)
| OptUnknown (s : string).  (* a leading '-' and no option of that name *)

Definition invocation : Type := list arg.

Record namespace : Type := mk_namespace { audio_file : string; mode : string }.

(** [choices=['simple', 'standard', 'insane']], line 336 *)
Definition choices : list string := ["simple"; "standard"; "insane"]%string.

(** How [parser.parse_args()] ends: it returns the namespace, or the help
    action prints the help text and exits with status 0, or [parser.error]
    prints the usage and a message to stderr and exits with status 2.  Of
    the output only the message is kept, without the usage lines and the
    program name. *)
Inductive parsed : Type :=
| Parsed (args : namespace)
| HelpExit
| UsageError (msg : string).

Definition invalid_choice (m : string) : string :=
  ("error: argument -m/--mode: invalid choice: '" ++ m ++ "'")%string.

Definition expected_one_argument : string :=
  "error: argument -m/--mode: expected one argument".

Definition audio_file_required : string :=
  "error: the following arguments are required: audio_file".

Definition unrecognized (extras : list string) : string :=
  ("error: unrecognized arguments: " ++ String.concat " " extras)%string.

(** argparse consumes the arguments from left to right.  [expect_value]
    holds after [-m/--mode]; [audio_file] is the positional once it is
    bound, [mode] the last value stored for [--mode], [extras] the strings
    nothing consumed.  The help action exits where it is met; a mode value
    is checked against [choices] where it is consumed; the required
    positional and the left-over strings are checked at the end, in this
    order. *)
Fixpoint consume (args : list arg) (expect_value : bool) (audio_file : option string)
    (mode : string) (extras : list string) : parsed :=
  match args with
  | [] =>
      if expect_value then UsageError expected_one_argument
      else
        match audio_file with
        | None => UsageError audio_file_required
        | Some f =>
            match extras with
            | [] => Parsed (mk_namespace f mode)
            | _ :: _ => UsageError (unrecognized extras)
            end
        end
  | a :: rest =>
      if expect_value then
        match a with
        | Positional v =>
            if existsb (String.eqb v) choices
            then consume rest false audio_file v extras
            else UsageError (invalid_choice v)
        | _ => UsageError expected_one_argument
        end
      else
        match a with
        | OptHelp => HelpExit
        | OptMode => consume rest true audio_file mode extras
        | OptModeEq v =>
            if existsb (String.eqb v) choices
            then consume rest false audio_file v extras
            else UsageError (invalid_choice v)
        | Positional f =>
            match audio_file with
            | None => consume rest false (Some f) mode extras
            | Some _ => consume rest false audio_file mode (extras ++ [f])
            end
        | OptUnknown o => consume rest false audio_file mode (extras ++ [o])
        end
  end.

(** The parser of lines 330-338 on a command line; the default of [--mode]
    is ['standard']. *)
Definition run_parser (inv : invocation) : parsed :=
  consume inv false None "standard" [].

(** [args = parser.parse_args()], line 340, when the call returns. *)
Definition parse_args (inv : invocation) : option namespace :=
  match run_parser inv with
  | Parsed args => Some args
  | _ => None
  end.

Definition help_text : string :=
  "usage: ascii-beats.py [-h] [-m {simple,standard,insane}] audio_file".

Definition banner (mode : VisualizerMode) (audio_file : string) : string :=
  ("ASCII BEAT VISUALIZER | Mode: " ++ value mode ++ " | Audio: " ++ audio_file)%string.

(** [main], lines 329-370.  The result is the trace and the exit status of
    the process, [None] while the loop is still running. *)
Definition main (scr : screen) (fs : string -> bool) (inv : invocation)
    (s : startup) (ticks : list tick) : trace * option Z :=
  match run_parser inv with
  | HelpExit => ([EvStdout help_text], Some 0)
  | UsageError msg => ([EvStderr msg], Some 2)
  | Parsed args =>
      match VisualizerMode_of (mode args) with
      | Raise e => ([EvStderr (str e)], Some 1)
      | Ok m =>
          if negb (fs (audio_file args))
          then ([EvStdout (not_found (audio_file args))], Some 1)
          else
            let (tr, o) := demo scr fs (audio_file args) m s ticks in
            let session :=
              [EvStdout (banner m (audio_file args)); EvSleep 1; EvScreenOpen] ++ tr in
            match o with
            | Running _ => (session, None)
            | Returned =>
                (session ++ [EvScreenClose; EvStdout "Thanks for watching!"], Some 0)
            | Raised KeyboardInterrupt =>
                (session ++ [EvScreenClose; EvStdout "Stopped!"], Some 0)
            | Raised e =>
                (session ++ [EvScreenClose; EvStdout ("Error: " ++ str e);
                             EvStderr "Traceback (most recent call last):"],
                 Some 0)
            end
      end
  end.

(** The command line hands [v] to [--mode]. *)
Definition gives_mode (inv : invocation) (v : string) : Prop :=
  exists before after,
    inv = before ++ OptMode :: Positional v :: after
    \/ inv = before ++ OptModeEq v :: after.

(** The beat clock on its own: lines 191-197 as a transition of the locals. *)
Definition poll (mode : VisualizerMode) (st : state) (current_time : Q) : state :=
  if beat_due (configure mode) st current_time
  then beat_clock mode current_time st
  else st.

Definition polls (mode : VisualizerMode) (st : state) (times : list Q) : state :=
  fold_left (poll mode) times st.

(** A schedule of polls after time [t0] that misses no beat: the poll times
    increase, stay within the two seconds after [t0], and every multiple of
    half a second in that span is one of them. *)
Definition no_missed_polls (t0 : Q) (times : list Q) : Prop :=
  StronglySorted Qlt times
  /\ (forall t, In t times -> (t0 < t)%Q /\ (t <= t0 + 2)%Q)
  /\ (forall k, 1 <= k <= 4 ->
       exists t, In t times /\ (t == t0 + inject_Z k * 0.5)%Q).

(** The scheme index advances on exactly the beats whose count is a multiple
    of [p]. *)
Definition rotates_every (mode : VisualizerMode) (p : Z) : Prop :=
  forall st current_time,
    beat_due (configure mode) st current_time = true ->
    current_scheme_idx (poll mode st current_time)
    = if beat_count (poll mode st current_time) mod p =? 0
      then (current_scheme_idx st + 1) mod Z.of_nat (List.length color_schemes)
      else current_scheme_idx st.

(** The states of the locals at the loop test. *)
Inductive reachable (scr : screen) (mode : VisualizerMode) (s : startup)
    : state -> Prop :=
| reach_init : reachable scr mode s (init_state s)
| reach_step st tk st' :
    reachable scr mode s st ->
    running st = true -> busy tk = true ->
    demo_iter scr mode st tk = Ok st' ->
    reachable scr mode s st'.

(** Polls a quarter of a second apart over two seconds. *)
Definition quarter_seconds : list Q := [0.25; 0.5; 0.75; 1; 1.25; 1.5; 1.75; 2]%Q.

End Unified.

(* ================================================================== *)
(** ** ascii-beats-simple.py *)
(* ================================================================== *)

Module Simple.

Record state : Type := mk_state {
  frame : Z;
  beat_count : Z;
  active_explosions : list explosion;
  last_beat_time : Q;
  current_scheme : Z
}.

Record tick : Type := mk_tick {
  busy : bool;
  now : Q;
  rnd : tape;
  fault : option exn;
  key : option Z
}.

Definition beat_interval : Q := 0.5.

(** Lines 83-101: the fireworks of one beat. *)
Definition spawn (scr : screen) (frame : Z) (active : list explosion)
    : Rand (list explosion) :=
  num_fireworks <- randint 3 8;;
  repeatM (range_len num_fireworks) (fun active =>
    x <- randint 5 (width scr - 5);;
    y <- randint 5 (height scr - 5);;
    firework_class <-
      choice [RingFirework; SerpentFirework; StarFirework; PalmFirework];;
    lifetime <- randint 15 25;;
    effect <- new_particle firework_class x y lifetime [20];;
    ret (active ++ [mk_explosion effect frame 40]))
    active.

(** Lines 74-125; the flash and text blocks only draw. *)
Definition on_beat (scr : screen) (current_time : Q) (st : state) : Rand state :=
  if Qle_bool beat_interval (current_time - last_beat_time st) then
    let beat_count' := beat_count st + 1 in
    let current_scheme' :=
      if beat_count' mod 8 =? 0
      then (current_scheme st + 1) mod n_schemes
      else current_scheme st in
    active' <- spawn scr (frame st) (active_explosions st);;
    ret (mk_state (frame st) beat_count' active' current_time current_scheme')
  else ret st.

(** The loop body, lines 70-175; [true] when the quit key made it [break]. *)
Definition demo_iter (scr : screen) (st : state) (tk : tick) : result (state * bool) :=
  match on_beat scr (now tk) st (rnd tk) with
  | Raise e => Raise e
  | Ok (st1, _) =>
      match fault tk with
      | Some e => Raise e
      | None =>
          let swept := sweep (frame st1) (active_explosions st1) in
          if is_quit (key tk)
          then Ok (mk_state (frame st1) (beat_count st1) swept
                     (last_beat_time st1) (current_scheme st1), true)
          else Ok (mk_state (frame st1 + 1) (beat_count st1) swept
                     (last_beat_time st1) (current_scheme st1), false)
      end
  end.

Definition cleanup : trace := [EvMusicStop; EvPygameQuit].

(** [while pygame.mixer.music.get_busy()], lines 69-178 *)
Fixpoint loop (scr : screen) (st : state) (ticks : list tick) : trace * outcome state :=
  match ticks with
  | [] => ([], Running st)
  | tk :: rest =>
      if busy tk then
        match demo_iter scr st tk with
        | Ok (st', false) =>
            let (tr, o) := loop scr st' rest in
            ([EvClear; EvRefresh; EvSleep 0.03] ++ tr, o)
        | Ok (_, true) => ([EvClear; EvRefresh] ++ cleanup, Returned)
        | Raise e => ([EvClear], Raised e)
        end
      else (cleanup, Returned)
  end.

Definition init_state (t0 : Q) : state := mk_state 0 0 [] t0 0.

(** [demo(screen)], lines 21-178 *)
Definition demo (scr : screen) (argv : list string) (t0 : Q) (ticks : list tick)
    : trace * outcome state :=
  let audio_file := argv_audio_file argv in
  let (tr, o) := loop scr (init_state t0) ticks in
  ([EvMixerInit; EvMusicLoad audio_file; EvMusicPlay] ++ tr, o).

(** The [__main__] block, lines 180-205 *)
Definition main (scr : screen) (fs : string -> bool) (argv : list string)
    (t0 : Q) (ticks : list tick) : trace * option Z :=
  let audio_file := argv_audio_file argv in
  if negb (fs audio_file)
  then ([EvStdout (not_found audio_file)], Some 1)
  else
    let (tr, o) := demo scr argv t0 ticks in
    let session :=
      [EvStdout ("INSANE ASCII BEAT VISUALIZER | Audio: " ++ audio_file);
       EvSleep 1; EvScreenOpen] ++ tr in
    match o with
    | Running _ => (session, None)
    | Returned => (session ++ [EvScreenClose], Some 0)
    | Raised KeyboardInterrupt => (session ++ [EvScreenClose; EvStdout "Stopped!"], Some 0)
    | Raised e => (session ++ [EvScreenClose; EvStdout ("Error: " ++ str e)], Some 0)
    end.

End Simple.

(* ================================================================== *)
(** ** ascii-beats-insane.py: beats arrive through a queue *)
(* ================================================================== *)

Module Insane.

(** The dictionaries put on [beat_queue] by [audio_player_thread],
    lines 97-102. *)
Record beat : Type := mk_beat {
  b_time : Q;
  b_index : Z;
  b_intensity : Q
}.

(** [CrazyFirework.__init__], lines 120-143: the loop over three fireworks;
    every test of the [if/elif] chain draws a fresh [random.random()], and
    each branch calls a firework constructor with the fifth positional
    argument 20. *)
Definition CrazyFirework (scr : screen) (x y : Z) : Rand (list particle) :=
  repeatM 3 (fun effects =>
    dx <- randint (-5) 5;;
    let offset_x := x + dx in
    dy <- randint (-3) 3;;
    let offset_y := y + dy in
    lifetime <- randint 15 25;;
    r1 <- random;;
    if Qlt_bool r1 0.25
    then (effect <- new_particle RingFirework offset_x offset_y lifetime [20];;
          ret (effects ++ [effect]))
    else
      r2 <- random;;
      if Qlt_bool r2 0.5
      then (effect <- new_particle SerpentFirework offset_x offset_y lifetime [20];;
            ret (effects ++ [effect]))
      else
        r3 <- random;;
        if Qlt_bool r3 0.75
        then (effect <- new_particle StarFirework offset_x offset_y lifetime [20];;
              ret (effects ++ [effect]))
        else (effect <- new_particle PalmFirework offset_x offset_y lifetime [20];;
              ret (effects ++ [effect])))
    [].

(** Locals of [demo] and the module-level [beat_queue]. *)
Record state : Type := mk_state {
  frame : Z;
  beat_count : Z;
  active_explosions : list explosion;
  current_scheme : Z;
  running : bool;
  beat_queue : list beat
}.

(** What one pass observes.  The audio thread puts beats on the queue
    while the pass runs, and the test of line 215 reads the live queue:
    the head of [arrivals] holds the beats put since the previous pass
    stopped draining and before the first test of this pass, the next item
    the beats put while the first event of this pass is handled, the one
    after it those put while the second event is handled, and so on.  Then
    the generator's draws, a library exception while drawing (lines
    293-322), and the key code. *)
Record tick : Type := mk_tick {
  arrivals : list (list beat);
  rnd : tape;
  fault : option exn;
  key : option Z
}.

Definition put_before (tk : tick) : list beat := hd [] (arrivals tk).

Definition put_during (tk : tick) : list (list beat) := tl (arrivals tk).

Definition color_schemes : list (list colour) :=
  [ [COLOUR_RED; COLOUR_YELLOW];
    [COLOUR_BLUE; COLOUR_CYAN];
    [COLOUR_GREEN; COLOUR_WHITE];
    [COLOUR_MAGENTA; COLOUR_YELLOW] ].

Definition crazy_texts : list string :=
  ["BOOM!"; "BANG!"; "WOW!"; "CRAZY!"; "INSANE!"]%string.

(** Lines 216-225: one event leaves the queue and is counted. *)
Definition count_beat (st : state) (rest : list beat) : state :=
  let beat_count' := beat_count st + 1 in
  mk_state (frame st) beat_count' (active_explosions st)
    (if beat_count' mod 8 =? 0
     then (current_scheme st + 1) mod Z.of_nat (List.length color_schemes)
     else current_scheme st)
    (running st) rest.

(** Lines 227-265: fireworks, flash and text of one event.  The flash and
    the text only draw, but their random draws come before those of the
    next event, so they are consumed here. *)
Definition burst (scr : screen) (b : beat) (st : state) : Rand state :=
  let intensity := b_intensity b in
  let num_fireworks := Z.min (py_int (intensity * 10) + 2) 8 in
  active' <- repeatM (range_len num_fireworks) (fun active =>
               x <- randint 5 (width scr - 5);;
               y <- randint 5 (height scr - 5);;
               firework <- CrazyFirework scr x y;;
               ret (active ++ map (fun e => mk_explosion e (frame st) 40) firework))
             (active_explosions st);;
  _ <- (if Qlt_bool 0.7 intensity
        then
          flash_char <- choice [42; 35; 64; 9608; 9619; 9618; 9617];;
          flash_color <- choice (nth (Z.to_nat (current_scheme st)) color_schemes []);;
          ret tt
        else ret tt);;
  _ <- (if beat_count st mod 4 =? 0
        then
          text <- choice crazy_texts;;
          text_color <- choice [COLOUR_RED; COLOUR_YELLOW; COLOUR_MAGENTA; COLOUR_CYAN];;
          x_pos <- randint 0 (Z.max 0 (width scr - Z.of_nat (String.length text) * 6));;
          y_pos <- randint 0 (Z.max 0 (height scr - 5));;
          ret tt
        else ret tt);;
  ret (mk_state (frame st) (beat_count st) active' (current_scheme st)
         (running st) (beat_queue st)).

(** [beat_queue.put] in the audio thread, line 97 *)
Definition put_all (put : list beat) (st : state) : state :=
  mk_state (frame st) (beat_count st) (active_explosions st) (current_scheme st)
    (running st) (beat_queue st ++ put).

(** The end of one pass: either the new locals, or the exception together
    with [beat_count] and the queue as they were when it was raised. *)
Inductive pass : Type :=
| Done (st : state)
| Aborted (e : exn) (beat_count_then : Z) (queue_then : list beat).

(** [while not beat_queue.empty(): beat = beat_queue.get_nowait() ...],
    lines 215-265, once the thread puts nothing more during the pass. *)
Fixpoint drain_rest (scr : screen) (queue : list beat) (st : state) (t : tape) : pass :=
  match queue with
  | [] => Done st
  | b :: rest =>
      let st1 := count_beat st rest in
      match burst scr b st1 t with
      | Ok (st2, t') => drain_rest scr rest st2 t'
      | Raise e => Aborted e (beat_count st1) rest
      end
  end.

(** The same loop with the thread putting beats meanwhile: [puts] are the
    beats put while the next events are handled, one item per event; they
    are on the queue when the loop test is made again. *)
Fixpoint drain (scr : screen) (puts : list (list beat)) (queue : list beat)
    (st : state) (t : tape) : pass :=
  match puts with
  | [] => drain_rest scr queue st t
  | put :: later =>
      match queue with
      | [] => Done st
      | b :: rest =>
          let st1 := count_beat st rest in
          match burst scr b st1 t with
          | Ok (st2, t') => drain scr later (rest ++ put) (put_all put st2) t'
          | Raise e => Aborted e (beat_count st1) (rest ++ put)
          end
      end
  end.

(** The loop body, lines 210-330.  The amplitude queue is drained after the
    beat queue and only draws. *)
Definition demo_iter (scr : screen) (st : state) (tk : tick) : pass :=
  let queue := beat_queue st ++ put_before tk in
  match drain scr (put_during tk) queue
          (mk_state (frame st) (beat_count st) (active_explosions st)
             (current_scheme st) (running st) queue)
          (rnd tk) with
  | Aborted e n q => Aborted e n q
  | Done st1 =>
      match fault tk with
      | Some e => Aborted e (beat_count st1) (beat_queue st1)
      | None =>
          Done (mk_state (frame st1 + 1) (beat_count st1)
                  (sweep (frame st1) (active_explosions st1))
                  (current_scheme st1)
                  (if is_quit (key tk) then false else running st1)
                  (beat_queue st1))
      end
  end.

(** Lines 337-339 *)
Definition cleanup : trace := [EvMusicStop; EvPygameQuit].

(** Lines 333-335: the handler of [except Exception as e]. *)
Definition show_error (e : exn) : trace :=
  [EvPrintAt ("Error: " ++ str e) 0 0; EvRefresh; EvSleep 2].

(** [try: while running: ... except Exception as e: ...] and the two
    statements after it, lines 208-339. *)
Fixpoint loop (scr : screen) (st : state) (ticks : list tick) : trace * outcome state :=
  match ticks with
  | [] => ([], Running st)
  | tk :: rest =>
      if running st then
        match demo_iter scr st tk with
        | Done st' =>
            let (tr, o) := loop scr st' rest in
            ([EvClear; EvRefresh; EvSleep 0.03] ++ tr, o)
        | Aborted e _ _ =>
            if is_Exception e
            then ([EvClear] ++ show_error e ++ cleanup, Returned)
            else ([EvClear], Raised e)
        end
      else (cleanup, Returned)
  end.

Definition init_state : state := mk_state 0 0 [] 0 true [].

(** [demo(screen)], lines 145-339; [audio_file] is the module global set by
    the [__main__] block. *)
Definition demo (scr : screen) (fs : string -> bool) (audio_file : string)
    (ticks : list tick) : trace * outcome state :=
  if String.eqb audio_file EmptyString || negb (fs audio_file)
  then ([EvPrintAt "Error: Audio file not found!" 0 0; EvRefresh; EvSleep 2], Returned)
  else
    let (tr, o) := loop scr init_state ticks in
    ([EvAnalyse audio_file; EvThreadStart] ++ tr, o).

(** The [__main__] block, lines 342-369 *)
Definition main (scr : screen) (fs : string -> bool) (argv : list string)
    (ticks : list tick) : trace * option Z :=
  let audio_file := argv_audio_file argv in
  if negb (fs audio_file)
  then ([EvStdout (not_found audio_file)], Some 1)
  else
    let (tr, o) := demo scr fs audio_file ticks in
    let session :=
      [EvStdout ("INSANE ASCII BEAT VISUALIZER | Audio: " ++ audio_file);
       EvSleep 1; EvScreenOpen] ++ tr in
    match o with
    | Running _ => (session, None)
    | Returned => (session ++ [EvScreenClose], Some 0)
    | Raised KeyboardInterrupt => (session ++ [EvScreenClose; EvStdout "Stopped!"], Some 0)
    | Raised e => (session ++ [EvScreenClose; EvStdout ("Error: " ++ str e)], Some 0)
    end.

End Insane.

(* ================================================================== *)
(** ** ascii-beats-working.py *)
(* ================================================================== *)

Module Working.

(** The particle classes bound by the import of lines 16-19. *)
Definition imported : list (string * firework_class) :=
  [ ("RingFirework", RingFirework); ("SerpentFirework", SerpentFirework);
    ("StarFirework", StarFirework); ("PalmFirework", PalmFirework) ]%string.

(** Evaluation of a global name: [NameError] when nothing binds it. *)
Definition global (name : string) : Rand firework_class :=
  match find (fun b => String.eqb (fst b) name) imported with
  | Some b => ret (snd b)
  | None => raise (NameError ("name '" ++ name ++ "' is not defined"))
  end.

Record state : Type := mk_state {
  frame : Z;
  beat_count : Z;
  active_explosions : list explosion;
  last_beat_time : Q;
  last_sub_beat : Q;
  current_scheme_idx : Z;
  running : bool;
  intensity : Q
}.

Record tick : Type := mk_tick {
  busy : bool;
  now : Q;
  rnd : tape;
  fault : option exn;
  key : option Z
}.

Definition beat_interval : Q := 0.5.
Definition sub_beat_interval : Q := 0.125.

Definition beat_due (st : state) (current_time : Q) : bool :=
  Qle_bool beat_interval (current_time - last_beat_time st).

(** Lines 154-160: the clock part of the beat branch. *)
Definition beat_clock (current_time : Q) (st : state) : state :=
  let beat_count' := beat_count st + 1 in
  mk_state (frame st) beat_count' (active_explosions st) current_time
    (last_sub_beat st)
    (if beat_count' mod 4 =? 0
     then (current_scheme_idx st + 1) mod n_schemes
     else current_scheme_idx st)
    (running st) (intensity st).

(** Lines 168-181: one pass of the firework loop.  The list display of line
    172 names [SerpentFireework]. *)
Definition spawn_point (scr : screen) (frame : Z) (active : list explosion)
    : Rand (list explosion) :=
  x <- randint 5 (width scr - 5);;
  y <- randint 5 (height scr - 5);;
  firework_types <-
    sequence [global "RingFirework"; global "SerpentFireework";
              global "StarFirework"; global "PalmFirework"];;
  fts <- sample 2 firework_types;;
  forM fts (fun active ft =>
    dx <- randint (-3) 3;;
    dy <- randint (-2) 2;;
    lt <- randint 20 30;;
    effect <- new_particle ft (x + dx) (y + dy) lt [25];;
    ret (active ++ [mk_explosion effect frame 50]))
    active.

(** Lines 163-181 *)
Definition spawn (scr : screen) (st : state) : Rand state :=
  r <- random;;
  let intensity' := (0.8 + r * 0.2)%Q in
  let num_fireworks := py_int (intensity' * 12) in
  active' <- repeatM (range_len num_fireworks) (spawn_point scr (frame st))
               (active_explosions st);;
  ret (mk_state (frame st) (beat_count st) active' (last_beat_time st)
         (last_sub_beat st) (current_scheme_idx st) (running st) intensity').

(** Lines 153-222; flash, text and art only draw. *)
Definition on_beat (scr : screen) (current_time : Q) (st : state) : Rand state :=
  if beat_due st current_time
  then spawn scr (beat_clock current_time st)
  else ret st.

(** Lines 225-226 *)
Definition on_sub_beat (current_time : Q) (st : state) : state :=
  if Qle_bool sub_beat_interval (current_time - last_sub_beat st)
  then mk_state (frame st) (beat_count st) (active_explosions st)
         (last_beat_time st) current_time (current_scheme_idx st)
         (running st) (intensity st)
  else st.

(** The loop body, lines 147-306 *)
Definition demo_iter (scr : screen) (st : state) (tk : tick) : result state :=
  match on_beat scr (now tk) st (rnd tk) with
  | Raise e => Raise e
  | Ok (st1, _) =>
      let st2 := on_sub_beat (now tk) st1 in
      match fault tk with
      | Some e => Raise e
      | None =>
          Ok (mk_state (frame st2 + 1) (beat_count st2)
                (sweep (frame st2) (active_explosions st2))
                (last_beat_time st2) (last_sub_beat st2) (current_scheme_idx st2)
                (if is_quit (key tk) then false else running st2) (intensity st2))
      end
  end.

Definition cleanup : trace := [EvMusicStop; EvPygameQuit].

(** [while running and pygame.mixer.music.get_busy()], lines 146-310; no
    [try] surrounds it. *)
Fixpoint loop (scr : screen) (st : state) (ticks : list tick) : trace * outcome state :=
  match ticks with
  | [] => ([], Running st)
  | tk :: rest =>
      if running st && busy tk then
        match demo_iter scr st tk with
        | Ok st' =>
            let (tr, o) := loop scr st' rest in
            ([EvClear; EvRefresh; EvSleep 0.025] ++ tr, o)
        | Raise e => ([EvClear], Raised e)
        end
      else (cleanup, Returned)
  end.

(** The [time.time()] reads of lines 125 and 129. *)
Definition init_state (t_beat t_sub : Q) : state :=
  mk_state 0 0 [] t_beat t_sub 0 true 0.5.

(** [demo(screen)], lines 80-310 *)
Definition demo (scr : screen) (fs : string -> bool) (argv : list string)
    (t_beat t_sub : Q) (ticks : list tick) : trace * outcome state :=
  let audio_file := argv_audio_file argv in
  if negb (fs audio_file)
  then ([EvPrintAt "Error: Audio file not found!" 0 0; EvRefresh; EvSleep 2], Returned)
  else
    let (tr, o) := loop scr (init_state t_beat t_sub) ticks in
    ([EvMixerInit; EvMusicLoad audio_file; EvMusicPlay] ++ tr, o).

(** The [__main__] block, lines 312-338 *)
Definition main (scr : screen) (fs : string -> bool) (argv : list string)
    (t_beat t_sub : Q) (ticks : list tick) : trace * option Z :=
  let audio_file := argv_audio_file argv in
  if negb (fs audio_file)
  then ([EvStdout (not_found audio_file)], Some 1)
  else
    let (tr, o) := demo scr fs argv t_beat t_sub ticks in
    let session :=
      [EvStdout ("INSANE ASCII BEAT VISUALIZER | Audio: " ++ audio_file);
       EvSleep 1; EvScreenOpen] ++ tr in
    match o with
    | Running _ => (session, None)
    | Returned => (session ++ [EvScreenClose; EvStdout "THAT WAS INSANE!"], Some 0)
    | Raised KeyboardInterrupt => (session ++ [EvScreenClose; EvStdout "Later!"], Some 0)
    | Raised e => (session ++ [EvScreenClose; EvStdout ("Error: " ++ str e)], Some 0)
    end.

(** The exception a due beat ends with: the position draws of lines 168-169
    need [5 <= width - 5] and [5 <= height - 5]; past them line 172 is
    evaluated. *)
Definition beat_exception (scr : screen) : exn :=
  if (width scr - 5 <? 5) || (height scr - 5 <? 5)
  then ValueError "empty range for randrange()"
  else NameError "name 'SerpentFireework' is not defined".

(** The states of the locals at the loop test. *)
Inductive reachable (scr : screen) (t_beat t_sub : Q) : state -> Prop :=
| reach_init : reachable scr t_beat t_sub (init_state t_beat t_sub)
| reach_step st tk st' :
    reachable scr t_beat t_sub st ->
    running st = true -> busy tk = true ->
    demo_iter scr st tk = Ok st' ->
    reachable scr t_beat t_sub st'.

End Working.

(* ================================================================== *)
(** ** ascii-beats-insane.py: the audio thread *)
(* ================================================================== *)

Module AudioThread.

(** [seq[i]]: a negative index counts from the end; [None] stands for the
    [IndexError] of an index out of range. *)
Definition getitem {A} (seq : list A) (i : Z) : option A :=
  let n := Z.of_nat (List.length seq) in
  if (0 <=? i) && (i <? n) then nth_error seq (Z.to_nat i)
  else if (- n <=? i) && (i <? 0) then nth_error seq (Z.to_nat (n + i))
  else None.

(** Line 85: [rms_frame_duration = audio_duration / len(rms_values)];
    [None] stands for the [ZeroDivisionError] of an empty [rms_values]. *)
Definition rms_frame_duration (audio_duration : Q) (rms_values : list Q) : option Q :=
  match rms_values with
  | [] => None
  | _ => Some (audio_duration / inject_Z (Z.of_nat (List.length rms_values)))%Q
  end.

(** Lines 94-95 and 109-112:
    [rms_values[min(int(current_time / rms_frame_duration), len(rms_values) - 1)]];
    [None] stands for the [ZeroDivisionError] of a zero frame duration or the
    [IndexError] of the lookup. *)
Definition rms_now (rms_values : list Q) (frame_duration current_time : Q) : option Q :=
  if Qeq_bool frame_duration 0 then None
  else
    getitem rms_values
      (Z.min (py_int (current_time / frame_duration))
             (Z.of_nat (List.length rms_values) - 1)).

(** Line 101: [min(intensity * 5, 1.0)] *)
Definition normalize (intensity : Q) : Q :=
  if Qle_bool (intensity * 5) 1 then (intensity * 5)%Q else 1%Q.

(** Lines 91-105: the inner [while] over the onsets from
    [current_beat_index] on; [pending] is [onset_times[current_beat_index:]].
    The result is the beats put on the queue, in order, and the new
    [current_beat_index]. *)
Fixpoint put_beats (rms_values : list Q) (frame_duration current_time : Q)
    (pending : list Q) (current_beat_index : nat) : option (list Insane.beat * nat) :=
  match pending with
  | [] => Some ([], current_beat_index)
  | onset :: later =>
      if Qle_bool onset current_time then
        match rms_now rms_values frame_duration current_time with
        | None => None
        | Some intensity =>
            match put_beats rms_values frame_duration current_time later
                    (S current_beat_index) with
            | None => None
            | Some (beats, index') =>
                Some (Insane.mk_beat onset (Z.of_nat current_beat_index)
                        (normalize intensity) :: beats,
                      index')
            end
        end
      else Some ([], current_beat_index)
  end.

(** What one pass of the thread's outer loop (lines 88-116) puts on the two
    queues at thread time [current_time]: the beats, the new
    [current_beat_index], and the amplitude sample if the time lies before
    the end of the audio. *)
Definition thread_pass (rms_values : list Q) (audio_duration frame_duration : Q)
    (onset_times : list Q) (current_beat_index : nat) (current_time : Q)
    : option (list Insane.beat * nat * option Q) :=
  match put_beats rms_values frame_duration current_time
          (skipn current_beat_index onset_times) current_beat_index with
  | None => None
  | Some (beats, index') =>
      if Qlt_bool current_time audio_duration then
        match rms_now rms_values frame_duration current_time with
        | None => None
        | Some value => Some (beats, index', Some value)
        end
      else Some (beats, index', None)
  end.

End AudioThread.

(* ================================================================== *)
(** ** Notions used by the further properties *)
(* ================================================================== *)

(** The locals of the unified loop that only a completed beat branch
    changes, at the values [demo] gives them before the loop. *)
Definition no_beat_completed (s : Unified.startup) (st : Unified.state) : Prop :=
  Unified.beat_count st = 0
  /\ Unified.active_explosions st = []
  /\ Unified.current_scheme_idx st = 0
  /\ Unified.intensity st = 0.5%Q
  /\ Unified.last_beat_time st = Unified.t_beat s
  /\ Unified.start_time st = Unified.t_start s.

(** The loop tests of the queue-driven variant when the beats on the queue
    are the ones [audio_player_thread] puts: their intensity is
    [min(rms * 5, 1.0)] of a root-mean-square value, which is not
    negative. *)
Inductive fed_by_thread (scr : screen) : Insane.state -> Prop :=
| fed_init : fed_by_thread scr Insane.init_state
| fed_step st tk st' :
    fed_by_thread scr st ->
    Insane.running st = true ->
    Forall (fun b => (0 <= Insane.b_intensity b)%Q) (List.concat (Insane.arrivals tk)) ->
    Insane.demo_iter scr st tk = Insane.Done st' ->
    fed_by_thread scr st'.

(** A trace that ends with the two cleanup calls. *)
Definition ends_with_cleanup (tr : trace) : Prop :=
  exists before, tr = before ++ [EvMusicStop; EvPygameQuit].

(* ================================================================== *)
(** * Properties *)
(* ================================================================== *)

(** ** Reasoning about [Rand] computations *)

Section RandLogic.

Context {A B : Type}.

Lemma bind_ok (c : Rand A) (k : A -> Rand B) t b t2 :
  bind c k t = Ok (b, t2) ->
  exists a t1, c t = Ok (a, t1) /\ k a t1 = Ok (b, t2).
Proof.
  unfold bind. destruct (c t) as [[a t1]|e]; [|discriminate].
  intros H. exists a, t1. split; [reflexivity|exact H].
Qed.

Lemma post_ret (a : A) (P : A -> Prop) : P a -> post (ret a) P.
Proof. intros H t a' t' E. inversion E; subst. exact H. Qed.

Lemma post_raise (e : exn) (P : A -> Prop) : post (raise e) P.
Proof. intros t a t' E. discriminate E. Qed.

Lemma post_bind (c : Rand A) (k : A -> Rand B) (P : A -> Prop) (Q : B -> Prop) :
  post c P -> (forall a, P a -> post (k a) Q) -> post (bind c k) Q.
Proof.
  intros Hc Hk t b t2 E.
  apply bind_ok in E. destruct E as (a & t1 & E1 & E2).
  exact (Hk a (Hc _ _ _ E1) _ _ _ E2).
Qed.

Lemma post_any (c : Rand A) : post c (fun _ => True).
Proof. intros t a t' _. exact I. Qed.

Lemma total_ret (a : A) : total (ret a).
Proof. intros t. exists a, t. reflexivity. Qed.

Lemma total_bind (c : Rand A) (k : A -> Rand B) (P : A -> Prop) :
  total c -> post c P -> (forall a, P a -> total (k a)) -> total (bind c k).
Proof.
  intros Hc HP Hk t. destruct (Hc t) as (a & t1 & E).
  destruct (Hk a (HP _ _ _ E) t1) as (b & t2 & E2).
  exists b, t2. unfold bind. rewrite E. exact E2.
Qed.

Lemma raises_bind_l (c : Rand A) (k : A -> Rand B) e :
  raises c e -> raises (bind c k) e.
Proof. intros H t. unfold bind. rewrite (H t). reflexivity. Qed.

Lemma raises_bind_r (c : Rand A) (k : A -> Rand B) e :
  total c -> (forall a, raises (k a) e) -> raises (bind c k) e.
Proof.
  intros Hc Hk t. destruct (Hc t) as (a & t1 & E).
  unfold bind. rewrite E. apply Hk.
Qed.

End RandLogic.

Lemma total_draw : total draw.
Proof. intros [|n t]; simpl; eauto. Qed.

Lemma total_random : total random.
Proof.
  unfold random. apply total_bind with (P := fun _ => True);
    auto using total_draw, post_any, total_ret.
Qed.

Lemma post_randint a b : post (randint a b) (fun v => a <= v <= b).
Proof.
  unfold randint. destruct (Z.ltb_spec b a) as [Hlt|Hle].
  - apply post_raise.
  - apply post_bind with (P := fun _ => True); [apply post_any|].
    intros n _. apply post_ret.
    pose proof (Z.mod_pos_bound (Z.of_N n) (b - a + 1)). lia.
Qed.

Lemma total_randint a b : a <= b -> total (randint a b).
Proof.
  intros Hab. unfold randint.
  destruct (Z.ltb_spec b a) as [Hlt|Hle]; [lia|].
  apply total_bind with (P := fun _ => True);
    auto using total_draw, post_any, total_ret.
Qed.

Lemma raises_randint a b :
  b < a -> raises (randint a b) (ValueError "empty range for randrange()").
Proof.
  intros Hab t. unfold randint.
  destruct (Z.ltb_spec b a) as [Hlt|Hle]; [reflexivity|lia].
Qed.

Lemma total_choice {A} (x : A) xs : total (choice (x :: xs)).
Proof.
  unfold choice. apply total_bind with (P := fun _ => True);
    auto using total_draw, post_any, total_ret.
Qed.

Lemma post_random : post random (fun r => (0 <= r)%Q /\ (r < 1)%Q).
Proof.
  unfold random. apply post_bind with (P := fun _ => True); [apply post_any|].
  intros n _. apply post_ret.
  pose proof (Z.mod_pos_bound (Z.of_N n) (Zpos two53) eq_refl) as Hb.
  unfold Qle, Qlt. simpl. lia.
Qed.

(** Skip a draw whose value does not matter for the property at hand. *)
Ltac post_skip :=
  eapply post_bind; [apply post_any | intros ? _].

Lemma raises_bind_post {A B} (c : Rand A) (k : A -> Rand B) (P : A -> Prop) e :
  total c -> post c P -> (forall a, P a -> raises (k a) e) -> raises (bind c k) e.
Proof.
  intros Hc HP Hk t. destruct (Hc t) as (a & t1 & E).
  unfold bind. rewrite E. apply Hk. exact (HP _ _ _ E).
Qed.

(** [int] of a float that is at least the integer [n >= 0] is at least [n]. *)
Lemma py_int_lower_bound n q :
  0 <= n -> (inject_Z n <= q)%Q -> n <= py_int q.
Proof.
  intros Hn Hq.
  assert (Hq0 : (0 <= q)%Q).
  { apply Qle_trans with (inject_Z n); [|exact Hq].
    change 0%Q with (inject_Z 0). rewrite <- Zle_Qle. exact Hn. }
  apply Qfloor_resp_le in Hq. rewrite Qfloor_Z in Hq.
  destruct q as [a d]. unfold py_int. simpl in *.
  unfold Qle in Hq0. simpl in Hq0.
  rewrite Z.quot_div_nonneg by lia. exact Hq.
Qed.

Lemma repeatM_S {S} n (body : S -> Rand S) s :
  repeatM (Datatypes.S n) body s = bind (body s) (repeatM n body).
Proof. reflexivity. Qed.

Lemma forM_cons {S X} (x : X) xs (body : S -> X -> Rand S) s :
  forM (x :: xs) body s = bind (body s x) (forM xs body).
Proof. reflexivity. Qed.

Lemma remove_nth_length {A} (l : list A) :
  forall i, (i < List.length l)%nat ->
            List.length (remove_nth i l) = (List.length l - 1)%nat.
Proof.
  induction l as [|a l IH]; intros i Hi; [simpl in Hi; lia|].
  destruct i as [|i]; simpl in *; [lia|].
  rewrite IH by lia. lia.
Qed.

Lemma total_sample {A} k :
  forall population : list A,
    (k <= List.length population)%nat -> total (sample k population).
Proof.
  induction k as [|k IH]; intros population Hk; simpl sample.
  - apply total_ret.
  - destruct population as [|x xs] eqn:Hpop; [simpl in Hk; lia|].
    rewrite <- Hpop in *.
    apply total_bind with (P := fun _ => True); [apply total_draw|apply post_any|].
    intros n _.
    apply total_bind with (P := fun _ => True); [|apply post_any|intros; apply total_ret].
    apply IH. rewrite remove_nth_length; [lia|].
    apply Nat.mod_upper_bound. rewrite Hpop. simpl. lia.
Qed.

Lemma post_sample_length {A} k :
  forall population : list A,
    post (sample k population) (fun r => List.length r = k).
Proof.
  induction k as [|k IH]; intros population; simpl sample.
  - apply post_ret. reflexivity.
  - destruct population as [|x xs] eqn:Hpop; [apply post_raise|].
    rewrite <- Hpop. post_skip.
    eapply post_bind; [apply IH|].
    cbv beta. intros rest Hlen. apply post_ret. simpl. lia.
Qed.

Lemma new_particle_raises c x y lt k ks :
  raises (new_particle c x y lt (k :: ks)) (TypeError too_many_positional).
Proof. intros t. reflexivity. Qed.

(** Step over a draw that cannot fail in front of a computation that
    raises. *)
Ltac raises_skip :=
  apply raises_bind_r;
  [ first [ apply total_randint; lia | apply total_choice | apply total_random ]
  | intros ? ].

(* ================================================================== *)
(** ** The lifetime tracker *)
(* ================================================================== *)

Section Tracker.

Lemma sweep_In frame l e :
  In e (sweep frame l) <-> In e l /\ frame - birth e < lifetime e.
Proof.
  unfold sweep. rewrite filter_In, Z.ltb_lt. reflexivity.
Qed.

Lemma sweep_length frame l :
  (List.length (sweep frame l) <= List.length l)%nat.
Proof.
  unfold sweep. induction l as [|e l IH]; simpl; [lia|].
  destruct (frame - birth e <? lifetime e); simpl; lia.
Qed.

(** An entry born before frame [f] is live after the sweeps of frames
    [f .. f + n - 1] exactly when it was live before them and passes the last
    of these sweeps; nothing appended meanwhile can be that entry. *)
Lemma track_older added :
  forall f live e,
    birth e < f ->
    (In e (track f added live) <->
     In e live /\
     (added <> [] -> f + Z.of_nat (List.length added) - 1 - birth e < lifetime e)).
Proof.
  induction added as [|new later IH]; intros f live e Hb; simpl track.
  - split; [intros H; split; [exact H|congruence] | tauto].
  - rewrite IH by lia. rewrite sweep_In, in_app_iff, in_map_iff.
    change (List.length (new :: later)) with (S (List.length later)).
    split.
    + intros [[[Hin|(el & Hel & _)] Hf] Hlater].
      * split; [exact Hin|]. intros _.
        destruct later as [|x later']; [simpl; lia|].
        assert (x :: later' <> []) as Hne by congruence.
        specialize (Hlater Hne). lia.
      * subst e. simpl in Hb. lia.
    + intros [Hin Hlast].
      assert (new :: later <> []) as Hne by congruence.
      specialize (Hlast Hne).
      split; [split; [left; exact Hin | lia]|].
      intros _. lia.
Qed.

(** Claim C2.  An entry added at frame [b] with lifetime [L > 0] is in the
    live list after the sweep of every frame [f] with [b <= f < b + L] and in
    none from frame [b + L] on, whatever else is appended meanwhile; and of
    three entries with lifetimes 10, 20 and 30 born at frame 0, the sweep of
    frame 25 keeps exactly the one with lifetime 30. *)
Theorem tracker_lifetime_window :
  (forall b L p new later live f,
      0 < L ->
      In (p, L) new ->
      f = b + Z.of_nat (List.length later) ->
      (In (mk_explosion p b L) (track b (new :: later) live) <-> f < b + L))
  /\ (forall p1 p2 p3,
         track 0 ([(p1, 10); (p2, 20); (p3, 30)] :: repeat [] 25) []
         = [mk_explosion p3 0 30])
  /\ (forall p1 p2 p3,
         sweep 25 [mk_explosion p1 0 10; mk_explosion p2 0 20; mk_explosion p3 0 30]
         = [mk_explosion p3 0 30]).
Proof.
  split; [|split].
  - intros b L p new later live f HL Hnew Hf. subst f.
    simpl track. rewrite track_older by (simpl; lia).
    rewrite sweep_In, in_app_iff, in_map_iff. simpl birth. simpl lifetime.
    split.
    + intros [_ Hlater].
      destruct later as [|x later']; [simpl; lia|].
      assert (x :: later' <> []) as Hne by congruence.
      specialize (Hlater Hne). lia.
    + intros Hlt. split.
      * split; [|lia]. right. exists (p, L). split; [reflexivity|exact Hnew].
      * intros _. lia.
  - intros p1 p2 p3. reflexivity.
  - intros p1 p2 p3. reflexivity.
Qed.

(** The statement at a ring firework with lifetime 3 born at frame 7, swept
    through frames 7 to 9. *)
Lemma tracker_lifetime_window_witness :
  0 < 3 /\
  (In (mk_explosion (mk_particle RingFirework 12 9 11 15) 7 3)
      (track 7 ([(mk_particle RingFirework 12 9 11 15, 3)] :: [[]; []]) [])
   <-> 9 < 7 + 3).
Proof.
  split; [lia|].
  apply (proj1 tracker_lifetime_window 7 3 (mk_particle RingFirework 12 9 11 15)
           [(mk_particle RingFirework 12 9 11 15, 3)] [[]; []] [] 9).
  - lia.
  - left. reflexivity.
  - reflexivity.
Defined.

End Tracker.

(* ================================================================== *)
(** ** The unified visualizer: the guarded appends *)
(* ================================================================== *)

Section GuardedAppends.

Import Unified.

Lemma append_capped_closed_form mode cfg frame news :
  forall active,
    append_capped mode cfg frame active news
    = active
      ++ map (fun p => mk_explosion p frame (tracker_lifetime mode))
             (firstn (Z.to_nat (max_explosions cfg - Z.of_nat (List.length active)))
                     news).
Proof.
  unfold append_capped.
  induction news as [|p news IH]; intros active; simpl fold_left.
  - rewrite firstn_nil. simpl. rewrite app_nil_r. reflexivity.
  - destruct (Z.ltb_spec (Z.of_nat (List.length active)) (max_explosions cfg))
      as [Hlt|Hge].
    + rewrite IH, length_app. simpl List.length.
      replace (Z.to_nat (max_explosions cfg - Z.of_nat (List.length active)))
        with (S (Z.to_nat (max_explosions cfg
                           - Z.of_nat (List.length active + 1)))) by lia.
      simpl. rewrite <- app_assoc. reflexivity.
    + rewrite IH.
      replace (Z.to_nat (max_explosions cfg - Z.of_nat (List.length active)))
        with 0%nat by lia.
      reflexivity.
Qed.

Lemma append_capped_bound mode cfg frame active news :
  Z.of_nat (List.length active) <= max_explosions cfg ->
  Z.of_nat (List.length (append_capped mode cfg frame active news))
  <= max_explosions cfg.
Proof.
  intros H.
  rewrite append_capped_closed_form, length_app, length_map, length_firstn. lia.
Qed.

Lemma append_capped_room mode cfg frame active news :
  Z.of_nat (List.length active) + Z.of_nat (List.length news) <= max_explosions cfg ->
  append_capped mode cfg frame active news
  = active ++ map (fun p => mk_explosion p frame (tracker_lifetime mode)) news.
Proof.
  intros H. rewrite append_capped_closed_form, firstn_all2 by lia. reflexivity.
Qed.

Lemma append_capped_In mode cfg frame active news e :
  In e (append_capped mode cfg frame active news) ->
  In e active
  \/ (In (effect e) news /\ birth e = frame /\ lifetime e = tracker_lifetime mode).
Proof.
  rewrite append_capped_closed_form, in_app_iff, in_map_iff.
  intros [H|(p & <- & Hp)]; [left; exact H|right]. simpl.
  split; [|auto].
  pose proof (firstn_skipn
                (Z.to_nat (max_explosions cfg - Z.of_nat (List.length active))) news)
    as E.
  rewrite <- E. apply in_or_app. left. exact Hp.
Qed.

End GuardedAppends.

(* ================================================================== *)
(** ** The unified visualizer: what a due beat does *)
(* ================================================================== *)

Section UnifiedBeats.

Import Unified.

Lemma num_fireworks_positive mode i :
  (0 <= i)%Q -> 1 <= num_fireworks mode i.
Proof.
  intros Hi.
  assert (H : forall k, (0 <= inject_Z k)%Q -> 0 <= py_int (i * inject_Z k)).
  { intros k Hk. apply py_int_lower_bound; [lia|].
    change (inject_Z 0) with 0%Q. nra. }
  destruct mode; unfold num_fireworks.
  - specialize (H 3). change (inject_Z 3) with 3%Q in H.
    assert (0 <= py_int (i * 3)) by (apply H; lra). lia.
  - specialize (H 6). change (inject_Z 6) with 6%Q in H.
    assert (0 <= py_int (i * 6)) by (apply H; lra). lia.
  - specialize (H 12). change (inject_Z 12) with 12%Q in H.
    assert (0 <= py_int (i * 12)) by (apply H; lra). lia.
Qed.

(** With at least one firework to build, [create_fireworks] ends at its
    first constructor call, after the draws of the argument list. *)
Lemma create_fireworks_raises scr x y i mode :
  1 <= num_fireworks mode i ->
  raises (create_fireworks scr x y i mode) (TypeError too_many_positional).
Proof.
  intros Hn. destruct mode; unfold create_fireworks, num_fireworks in *; cbv zeta;
    unfold range_len.
  - destruct (Z.to_nat (Z.min (py_int (i * 3) + 1) 3)) as [|n] eqn:E; [lia|].
    rewrite repeatM_S. apply raises_bind_l.
    raises_skip. raises_skip. raises_skip.
    apply raises_bind_l. apply new_particle_raises.
  - destruct (Z.to_nat (Z.min (py_int (i * 6) + 2) 6)) as [|n] eqn:E; [lia|].
    rewrite repeatM_S. apply raises_bind_l.
    raises_skip. raises_skip. raises_skip. raises_skip.
    apply raises_bind_l. apply new_particle_raises.
  - destruct (Z.to_nat (Z.min (py_int (i * 12) + 3) 12)) as [|n] eqn:E; [lia|].
    rewrite repeatM_S. apply raises_bind_l.
    raises_skip. raises_skip.
    apply raises_bind_post with (P := fun r => List.length r = 2%nat);
      [apply total_sample; simpl; lia | apply post_sample_length |].
    intros fts Hlen. destruct fts as [|ft fts]; [discriminate Hlen|].
    rewrite forM_cons. apply raises_bind_l.
    raises_skip. raises_skip. raises_skip.
    apply raises_bind_l. apply new_particle_raises.
Qed.

(** With none to build it returns the empty list and draws nothing. *)
Lemma create_fireworks_none scr x y i mode t :
  num_fireworks mode i <= 0 ->
  create_fireworks scr x y i mode t = Ok ([], t).
Proof.
  intros Hn. destruct mode; unfold create_fireworks, num_fireworks in *; cbv zeta;
    unfold range_len.
  - replace (Z.to_nat (Z.min (py_int (i * 3) + 1) 3)) with 0%nat by lia. reflexivity.
  - replace (Z.to_nat (Z.min (py_int (i * 6) + 2) 6)) with 0%nat by lia. reflexivity.
  - replace (Z.to_nat (Z.min (py_int (i * 12) + 3) 12)) with 0%nat by lia. reflexivity.
Qed.

(** The first spawn point of a beat: the position draws fail on a screen
    under 10 x 10, and past them [create_fireworks] fails. *)
Lemma unified_spawn_raises scr mode cfg st :
  raises (spawn scr mode cfg st) (firework_exception scr).
Proof.
  unfold spawn.
  apply raises_bind_post with (P := fun i => (0 <= i)%Q).
  - destruct (negb (is_simple mode)); [|apply total_ret].
    apply total_bind with (P := fun _ => True);
      [apply total_random|apply post_any|intros; apply total_ret].
  - destruct (negb (is_simple mode)); [|apply post_ret; lra].
    eapply post_bind; [apply post_random|]. cbv beta. intros r [Hr0 Hr1].
    apply post_ret. lra.
  - intros i Hi. apply raises_bind_l.
    assert (Hpoints : exists n, (if is_simple mode then 1 else 3)%nat = S n)
      by (destruct (is_simple mode); eauto).
    destruct Hpoints as [n ->]. rewrite repeatM_S. apply raises_bind_l.
    unfold firework_exception.
    destruct (Z.ltb_spec (width scr - 5) 5) as [Hw|Hw]; simpl orb.
    + apply raises_bind_l. apply raises_randint. exact Hw.
    + apply raises_bind_r; [apply total_randint; exact Hw|]. intros x.
      destruct (Z.ltb_spec (height scr - 5) 5) as [Hh|Hh].
      * apply raises_bind_l. apply raises_randint. exact Hh.
      * apply raises_bind_r; [apply total_randint; exact Hh|]. intros y.
        apply raises_bind_l. apply create_fireworks_raises.
        apply num_fireworks_positive. exact Hi.
Qed.

Lemma unified_beat_raises scr mode st tk :
  beat_due (configure mode) st (now tk) = true ->
  demo_iter scr mode st tk = Raise (firework_exception scr).
Proof.
  intros Hdue. unfold demo_iter, on_beat. rewrite Hdue.
  rewrite (unified_spawn_raises scr mode (configure mode)
             (beat_clock mode (now tk) st) (rnd tk)).
  reflexivity.
Qed.

(** The beat branch returns only when no beat is due, and then it is the
    identity. *)
Lemma on_beat_ok scr mode st current_time t st1 t1 :
  on_beat scr mode (configure mode) current_time st t = Ok (st1, t1) ->
  beat_due (configure mode) st current_time = false /\ st1 = st /\ t1 = t.
Proof.
  unfold on_beat. destruct (beat_due (configure mode) st current_time).
  - rewrite (unified_spawn_raises scr mode (configure mode)
               (beat_clock mode current_time st) t).
    discriminate.
  - intros H. inversion H. auto.
Qed.

(** One completed pass of the loop, taken apart. *)
Lemma demo_iter_ok scr mode st tk st' :
  demo_iter scr mode st tk = Ok st' ->
  beat_due (configure mode) st (now tk) = false
  /\ fault tk = None
  /\ st' = end_of_frame (key tk) (on_sub_beat mode (configure mode) (now tk) st).
Proof.
  unfold demo_iter.
  destruct (on_beat scr mode (configure mode) (now tk) st (rnd tk))
    as [[st1 t1]|e] eqn:Hbeat; [|discriminate].
  apply on_beat_ok in Hbeat. destruct Hbeat as (Hdue & -> & _).
  destruct (fault tk) as [e|]; [discriminate|].
  intros H. inversion H. auto.
Qed.

(** No beat branch is ever completed, so the loop tests see the locals of
    the beat branch as they were initialised. *)
Lemma reachable_no_beat_completed scr mode s st :
  reachable scr mode s st -> no_beat_completed s st.
Proof.
  intros Hreach. induction Hreach as [|st tk st' _ IH _ _ Hiter].
  - unfold no_beat_completed. repeat split.
  - apply demo_iter_ok in Hiter. destruct Hiter as (_ & _ & ->).
    destruct IH as (Hc & Ha & Hs & Hi & Hl & Ht).
    unfold no_beat_completed, end_of_frame, on_sub_beat.
    destruct (_ && _); simpl; rewrite ?Ha; simpl; auto 10.
Qed.

(** The states the executable loop passes through are reachable. *)
Lemma loop_running_reachable scr mode s ticks :
  forall st tr st',
    reachable scr mode s st ->
    loop scr mode st ticks = (tr, Running st') ->
    reachable scr mode s st'.
Proof.
  induction ticks as [|tk rest IH]; intros st tr st' Hreach Hloop; simpl in Hloop.
  - inversion Hloop; subst. exact Hreach.
  - destruct (running st && busy tk) eqn:Hgo; [|discriminate].
    apply andb_prop in Hgo. destruct Hgo as [Hrun Hbusy].
    destruct (demo_iter scr mode st tk) as [st1|e] eqn:Hiter; [|discriminate].
    destruct (loop scr mode st1 rest) as [tr1 o1] eqn:Hrest.
    inversion Hloop; subst.
    eapply IH; [|exact Hrest].
    eapply reach_step; eassumption.
Qed.

End UnifiedBeats.

(* ================================================================== *)
(** ** The unified visualizer: cap and stored lifetime *)
(* ================================================================== *)

Section UnifiedTracker.

Import Unified.

(** Claim C1.  In every mode the list of active explosions never holds more
    entries than the mode's [max_explosions], which is 20, 40 and 100.  The
    guarded appends of lines 208-214 keep a list within the cap whatever the
    new effects are, the sweep never lengthens a list, and so the bound holds
    at every loop test and after the beat branch of every pass. *)
Theorem active_explosions_capped :
  (max_explosions (configure SIMPLE) = 20
   /\ max_explosions (configure STANDARD) = 40
   /\ max_explosions (configure INSANE) = 100)
  /\ (forall mode frame active news,
         Z.of_nat (List.length active) <= max_explosions (configure mode) ->
         Z.of_nat (List.length (append_capped mode (configure mode) frame active news))
         <= max_explosions (configure mode))
  /\ (forall frame active,
         (List.length (sweep frame active) <= List.length active)%nat)
  /\ (forall scr mode s st,
         reachable scr mode s st ->
         Z.of_nat (List.length (active_explosions st))
         <= max_explosions (configure mode))
  /\ (forall scr mode s st tk st1 t1,
         reachable scr mode s st ->
         on_beat scr mode (configure mode) (now tk) st (rnd tk) = Ok (st1, t1) ->
         Z.of_nat (List.length (active_explosions st1))
         <= max_explosions (configure mode))
  /\ (forall scr mode s ticks tr st,
         loop scr mode (init_state s) ticks = (tr, Running st) ->
         Z.of_nat (List.length (active_explosions st))
         <= max_explosions (configure mode)).
Proof.
  assert (Hreach : forall scr mode s st,
             reachable scr mode s st ->
             Z.of_nat (List.length (active_explosions st))
             <= max_explosions (configure mode)).
  { intros scr mode s st H.
    apply reachable_no_beat_completed in H. destruct H as (_ & -> & _).
    destruct mode; simpl; lia. }
  split; [repeat split|].
  split; [intros mode frame active news; apply append_capped_bound|].
  split; [intros frame active; apply sweep_length|].
  split; [exact Hreach|split].
  - intros scr mode s st tk st1 t1 Hst Hbeat.
    apply on_beat_ok in Hbeat. destruct Hbeat as (_ & -> & _).
    apply (Hreach scr mode s). exact Hst.
  - intros scr mode s ticks tr st Hloop.
    apply (Hreach scr mode s).
    eapply loop_running_reachable; [apply reach_init|exact Hloop].
Qed.

(** The guard at a list of 19 entries in simple mode that is handed three
    new effects: the result has 20 entries. *)
Lemma active_explosions_capped_witness :
  Z.of_nat (List.length (repeat (mk_explosion (mk_particle RingFirework 40 12 11 0) 3 30) 19))
  <= max_explosions (configure SIMPLE)
  /\ Z.of_nat
       (List.length
          (append_capped SIMPLE (configure SIMPLE) 7
             (repeat (mk_explosion (mk_particle RingFirework 40 12 11 0) 3 30) 19)
             [mk_particle RingFirework 39 12 10 0; mk_particle RingFirework 41 11 15 0;
              mk_particle RingFirework 40 13 12 0]))
     <= max_explosions (configure SIMPLE).
Proof.
  split; [vm_compute; discriminate|].
  apply (proj1 (proj2 active_explosions_capped) SIMPLE 7).
  vm_compute. discriminate.
Defined.

Example guard_stops_at_the_cap :
  append_capped SIMPLE (configure SIMPLE) 7
    (repeat (mk_explosion (mk_particle RingFirework 40 12 11 0) 3 30) 19)
    [mk_particle RingFirework 39 12 10 0; mk_particle RingFirework 41 11 15 0;
     mk_particle RingFirework 40 13 12 0]
  = repeat (mk_explosion (mk_particle RingFirework 40 12 11 0) 3 30) 19
    ++ [mk_explosion (mk_particle RingFirework 39 12 10 0) 7 30].
Proof. reflexivity. Qed.

(** Claim C9.  The guarded appends of lines 208-214 store every new effect
    that fits under the cap with [birth] the current frame and [lifetime] the
    mode's constant, 30 frames in simple mode and 50 in the two others; the
    [life_time] the effect itself carries does not enter the stored value.
    Hence entries with the same birth pass or fail every sweep together, and
    every entry at a loop test carries the mode's constant. *)
Theorem stored_lifetime_is_per_mode :
  (tracker_lifetime SIMPLE = 30 /\ tracker_lifetime STANDARD = 50
   /\ tracker_lifetime INSANE = 50)
  /\ (forall mode frame active news,
         Z.of_nat (List.length active) + Z.of_nat (List.length news)
         <= max_explosions (configure mode) ->
         append_capped mode (configure mode) frame active news
         = active ++ map (fun p => mk_explosion p frame (tracker_lifetime mode)) news)
  /\ (forall mode cfg frame active news e,
         In e (append_capped mode cfg frame active news) ->
         In e active
         \/ (In (effect e) news /\ birth e = frame
             /\ lifetime e = tracker_lifetime mode))
  /\ (forall mode cfg frame active c x y lt lt' sf,
         map lifetime (append_capped mode cfg frame active [mk_particle c x y lt sf])
         = map lifetime (append_capped mode cfg frame active [mk_particle c x y lt' sf]))
  /\ (forall mode cfg frame active news e1 e2 f,
         Forall (fun e => lifetime e = tracker_lifetime mode) active ->
         In e1 (append_capped mode cfg frame active news) ->
         In e2 (append_capped mode cfg frame active news) ->
         birth e1 = birth e2 ->
         (In e1 (sweep f (append_capped mode cfg frame active news))
          <-> In e2 (sweep f (append_capped mode cfg frame active news))))
  /\ (forall scr mode s st e,
         reachable scr mode s st ->
         In e (active_explosions st) ->
         lifetime e = tracker_lifetime mode).
Proof.
  split; [repeat split|].
  split; [intros mode frame active news; apply append_capped_room|].
  split; [intros mode cfg frame active news e; apply append_capped_In|].
  split.
  { intros mode cfg frame active c x y lt lt' sf.
    rewrite !append_capped_closed_form, !map_app.
    destruct (Z.to_nat (max_explosions cfg - Z.of_nat (List.length active)));
      reflexivity. }
  split.
  { intros mode cfg frame active news e1 e2 f Hall H1 H2 Hb.
    rewrite Forall_forall in Hall.
    assert (Hl : forall e, In e (append_capped mode cfg frame active news) ->
                           lifetime e = tracker_lifetime mode).
    { intros e He. apply append_capped_In in He.
      destruct He as [He|(_ & _ & He)]; [apply Hall|]; exact He. }
    rewrite !sweep_In, (Hl e1 H1), (Hl e2 H2), Hb. tauto. }
  intros scr mode s st e Hreach He.
  apply reachable_no_beat_completed in Hreach. destruct Hreach as (_ & Ha & _).
  rewrite Ha in He. destruct He.
Qed.

(** The appends in standard mode at frame 4, for a star firework built with
    [life_time] 15 and a ring firework built with [life_time] 20: both are
    stored with lifetime 50. *)
Lemma stored_lifetime_is_per_mode_witness :
  Z.of_nat (List.length (@nil explosion))
  + Z.of_nat (List.length [mk_particle StarFirework 31 9 15 0;
                           mk_particle RingFirework 30 11 20 0])
  <= max_explosions (configure STANDARD)
  /\ append_capped STANDARD (configure STANDARD) 4 []
       [mk_particle StarFirework 31 9 15 0; mk_particle RingFirework 30 11 20 0]
     = [mk_explosion (mk_particle StarFirework 31 9 15 0) 4 50;
        mk_explosion (mk_particle RingFirework 30 11 20 0) 4 50].
Proof.
  split; [vm_compute; discriminate|].
  apply (proj1 (proj2 stored_lifetime_is_per_mode) STANDARD 4 []
           [mk_particle StarFirework 31 9 15 0; mk_particle RingFirework 30 11 20 0]).
  vm_compute. discriminate.
Defined.

End UnifiedTracker.

(* ================================================================== *)
(** ** The beat clock of the unified visualizer *)
(* ================================================================== *)

Section BeatClock.

Import Unified.

Lemma beat_due_spec mode st t :
  beat_due (configure mode) st t = true <-> (0.5 <= t - last_beat_time st)%Q.
Proof.
  unfold beat_due. rewrite Qle_bool_iff. destruct mode; reflexivity.
Qed.

Lemma beat_due_false mode st t :
  beat_due (configure mode) st t = false <-> (t - last_beat_time st < 0.5)%Q.
Proof.
  split.
  - intros H. apply Qnot_le_lt. intros Hle.
    apply beat_due_spec with (mode := mode) in Hle. congruence.
  - intros H. destruct (beat_due (configure mode) st t) eqn:E; [|reflexivity].
    apply beat_due_spec in E. lra.
Qed.

Lemma polls_count_monotone mode times :
  forall st, beat_count st <= beat_count (polls mode st times).
Proof.
  unfold polls.
  induction times as [|t ts IH]; intros st; simpl; [lia|].
  specialize (IH (poll mode st t)).
  assert (beat_count st <= beat_count (poll mode st t)).
  { unfold poll. destruct (beat_due (configure mode) st t); simpl; lia. }
  lia.
Qed.

(** A completed pass leaves the clock as the poll alone does. *)
Lemma demo_iter_clock scr mode st tk st' :
  demo_iter scr mode st tk = Ok st' ->
  beat_count st' = beat_count (poll mode st (now tk))
  /\ last_beat_time st' = last_beat_time (poll mode st (now tk))
  /\ current_scheme_idx st' = current_scheme_idx (poll mode st (now tk)).
Proof.
  intros Hiter. apply demo_iter_ok in Hiter.
  destruct Hiter as (Hdue & _ & ->).
  unfold poll. rewrite Hdue.
  unfold end_of_frame, on_sub_beat. destruct (_ && _); simpl; auto.
Qed.

(** With no poll missed the count follows the half seconds: from [c] beats
    at time [t0 + c/2], the polls up to [t0 + 2] bring the count to 4. *)
Lemma polls_without_miss t0 times :
  forall c st,
    0 <= c <= 4 ->
    (last_beat_time st == t0 + inject_Z c * 0.5)%Q ->
    StronglySorted Qlt times ->
    (forall t, In t times -> (last_beat_time st < t)%Q /\ (t <= t0 + 2)%Q) ->
    (forall k, c < k <= 4 ->
       exists t, In t times /\ (t == t0 + inject_Z k * 0.5)%Q) ->
    beat_count (polls SIMPLE st times) = beat_count st + (4 - c).
Proof.
  induction times as [|t ts IH]; intros c st Hc Hlast Hsorted Hrange Hbound.
  - assert (c = 4) as ->.
    { destruct (Z.eq_dec c 4) as [|Hne]; [assumption|].
      destruct (Hbound (c + 1)) as (t & [] & _). lia. }
    simpl. lia.
  - apply StronglySorted_inv in Hsorted. destruct Hsorted as [Hts Hlt].
    rewrite Forall_forall in Hlt.
    destruct (Hrange t (or_introl eq_refl)) as [Hlo Hhi].
    assert (Hc4 : c < 4).
    { destruct (Z.eq_dec c 4) as [->|]; [|lia].
      change (inject_Z 4) with 4%Q in Hlast. lra. }
    assert (Hnext : (inject_Z (c + 1) == inject_Z c + 1)%Q).
    { rewrite inject_Z_plus. reflexivity. }
    assert (Hlater : forall k, c + 1 <= k -> (inject_Z (c + 1) <= inject_Z k)%Q).
    { intros k Hk. rewrite <- Zle_Qle. exact Hk. }
    assert (Hstrict : forall k, c + 1 < k -> (inject_Z (c + 1) < inject_Z k)%Q).
    { intros k Hk. rewrite <- Zlt_Qlt. exact Hk. }
    change (polls SIMPLE st (t :: ts)) with (polls SIMPLE (poll SIMPLE st t) ts).
    destruct (Hbound (c + 1)) as (tb & [Heq|Hin] & Htb); [lia| |].
    + (* the poll at the next half second fires *)
      subst tb.
      assert (Hdue : beat_due (configure SIMPLE) st t = true).
      { apply beat_due_spec. lra. }
      unfold poll. rewrite Hdue.
      rewrite (IH (c + 1)); [simpl beat_count; lia|lia| | | |].
      * exact Htb.
      * exact Hts.
      * intros t' Ht'. split; [apply Hlt; exact Ht'|].
        apply (Hrange t'). right. exact Ht'.
      * intros k Hk. destruct (Hbound k) as (tk & [Heq|Hin] & Htk); [lia| |].
        -- subst tk. assert (Hk' : c + 1 < k) by lia.
           specialize (Hstrict k Hk'). lra.
        -- exists tk. auto.
    + (* an earlier poll does not *)
      assert (Hquiet : beat_due (configure SIMPLE) st t = false).
      { apply beat_due_false. specialize (Hlt tb Hin). lra. }
      unfold poll. rewrite Hquiet.
      apply IH; try assumption.
      * intros t' Ht'. split.
        -- specialize (Hlt t' Ht'). lra.
        -- apply (Hrange t'). right. exact Ht'.
      * intros k Hk. destruct (Hbound k) as (tk & [Heq|Hin'] & Htk); [lia| |].
        -- subst tk. assert (Hk' : c + 1 <= k) by lia.
           specialize (Hlt tb Hin). specialize (Hlater k Hk'). lra.
        -- exists tk. auto.
Qed.

(** Claim C3.  A poll fires exactly when [beat_interval] (half a second in
    every mode) has elapsed since [last_beat_time]; a poll that fires sets
    [last_beat_time] to the poll time and adds exactly one to [beat_count],
    however long the gap was; a poll that does not fire changes nothing; the
    count never decreases; a completed loop pass updates the clock as the poll
    does; and in simple mode a schedule that misses no poll over two seconds
    ends with four beats counted. *)
Theorem beat_clock_one_beat_per_poll :
  (forall mode, beat_interval (configure mode) = 0.5%Q)
  /\ (forall mode st t,
         beat_due (configure mode) st t = true
         <-> (beat_interval (configure mode) <= t - last_beat_time st)%Q)
  /\ (forall mode st t,
         beat_due (configure mode) st t = true ->
         last_beat_time (poll mode st t) = t
         /\ beat_count (poll mode st t) = beat_count st + 1)
  /\ (forall mode st t,
         beat_due (configure mode) st t = false -> poll mode st t = st)
  /\ (forall mode st times, beat_count st <= beat_count (polls mode st times))
  /\ (forall scr mode st tk st',
         demo_iter scr mode st tk = Ok st' ->
         beat_count st' = beat_count (poll mode st (now tk))
         /\ last_beat_time st' = last_beat_time (poll mode st (now tk)))
  /\ (forall t0 st times,
         beat_count st = 0 ->
         (last_beat_time st == t0)%Q ->
         no_missed_polls t0 times ->
         beat_count (polls SIMPLE st times) = 4).
Proof.
  split; [intros []; reflexivity|].
  split; [intros mode st t; unfold beat_due; apply Qle_bool_iff|].
  split; [intros mode st t H; unfold poll; rewrite H; simpl; auto|].
  split; [intros mode st t H; unfold poll; rewrite H; reflexivity|].
  split; [intros mode st times; apply polls_count_monotone|].
  split.
  - intros scr mode st tk st' H. apply demo_iter_clock in H. tauto.
  - intros t0 st times Hcount Hlast (Hsorted & Hrange & Hbound).
    rewrite (@polls_without_miss t0 times 0 st); try assumption; try lia.
    + change (inject_Z 0) with 0%Q. lra.
    + intros t Ht. destruct (Hrange t Ht). split; [lra|assumption].
    + intros k Hk. apply Hbound. lia.
Qed.

End BeatClock.

Section BeatClockRuns.

Import Unified.

Lemma quarter_seconds_miss_nothing : no_missed_polls 0 quarter_seconds.
Proof.
  split; [|split].
  - repeat (constructor; [|repeat (constructor; [reflexivity|]); constructor]).
    constructor.
  - intros t Ht. simpl in Ht.
    repeat (destruct Ht as [<-|Ht]; [split; [reflexivity|discriminate]|]).
    destruct Ht.
  - intros k Hk.
    assert (k = 1 \/ k = 2 \/ k = 3 \/ k = 4) as [->|[->|[->| ->]]] by lia.
    + exists 0.5%Q. split; [simpl; tauto|reflexivity].
    + exists 1%Q. split; [simpl; tauto|reflexivity].
    + exists 1.5%Q. split; [simpl; tauto|reflexivity].
    + exists 2%Q. split; [simpl; tauto|reflexivity].
Qed.

(** The scenario of the clock at polls a quarter of a second apart. *)
Lemma beat_clock_one_beat_per_poll_witness :
  no_missed_polls 0 quarter_seconds
  /\ beat_count (polls SIMPLE (init_state (mk_startup 0 0 0)) quarter_seconds) = 4.
Proof.
  split; [exact quarter_seconds_miss_nothing|].
  apply (proj2 (proj2 (proj2 (proj2 (proj2 (proj2 beat_clock_one_beat_per_poll)))))
           0%Q (init_state (mk_startup 0 0 0)) quarter_seconds).
  - reflexivity.
  - reflexivity.
  - exact quarter_seconds_miss_nothing.
Defined.

(** Sixty polls at the 30 frames per second of simple mode: four beats. *)
Example four_beats_at_30_fps :
  beat_count
    (polls SIMPLE (init_state (mk_startup 0 0 0))
       (map (fun k => (inject_Z (Z.of_nat k) / 30)%Q) (seq 1 60)))
  = 4.
Proof. vm_compute. reflexivity. Qed.

(** A poll that comes 1.7 s after the last beat still counts one beat. *)
Example late_poll_counts_one_beat :
  beat_count (poll STANDARD (init_state (mk_startup 0 0 0)) 1.7) = 1
  /\ last_beat_time (poll STANDARD (init_state (mk_startup 0 0 0)) 1.7) = 1.7%Q.
Proof. split; reflexivity. Qed.

End BeatClockRuns.

(* ================================================================== *)
(** ** Rotation of the colour scheme *)
(* ================================================================== *)

Section SchemeRotation.

Import Unified.

Lemma succ_mod_4_moves i : (i + 1) mod 4 <> i.
Proof. intros H. Z.div_mod_to_equations. lia. Qed.

Lemma beat_clock_scheme_quotient p st t mode' :
  (p = 8 \/ p = 16) ->
  rotation_period mode' = p ->
  current_scheme_idx st = (beat_count st / p) mod 4 ->
  current_scheme_idx (beat_clock mode' t st)
  = (beat_count (beat_clock mode' t st) / p) mod 4.
Proof.
  intros Hp Hper Hidx. unfold beat_clock. simpl. rewrite Hper, Hidx.
  change (Z.of_nat (List.length color_schemes)) with 4.
  destruct (Z.eqb_spec ((beat_count st + 1) mod p) 0) as [H0|H0];
    destruct Hp; subst p; Z.div_mod_to_equations; lia.
Qed.

(** In simple mode eight beats leave the scheme where it started; in the
    two other modes they advance it. *)
Lemma simple_mode_keeps_scheme_for_16_beats :
  (beat_count
     (polls SIMPLE (init_state (mk_startup 0 0 0)) [0.5; 1; 1.5; 2; 2.5; 3; 3.5; 4]%Q)
   = 8
   /\ current_scheme_idx
        (polls SIMPLE (init_state (mk_startup 0 0 0)) [0.5; 1; 1.5; 2; 2.5; 3; 3.5; 4]%Q)
      = 0
   /\ current_scheme_idx
        (polls STANDARD (init_state (mk_startup 0 0 0)) [0.5; 1; 1.5; 2; 2.5; 3; 3.5; 4]%Q)
      = 1)
  /\ ~ (forall mode, rotates_every mode 4 \/ rotates_every mode 8).
Proof.
  split; [repeat split|].
  intros H.
  pose (st7 := polls SIMPLE (init_state (mk_startup 0 0 0))
                 [0.5; 1; 1.5; 2; 2.5; 3; 3.5]%Q).
  destruct (H SIMPLE) as [H4|H8].
  - specialize (H4 st7 4%Q eq_refl). vm_compute in H4. discriminate H4.
  - specialize (H8 st7 4%Q eq_refl). vm_compute in H8. discriminate H8.
Qed.

(** Claim C4, amended.  The scheme index advances as [(i + 1) mod 4] on
    exactly the beats whose count is a multiple of the rotation period, which
    is 16 beats in simple mode and 8 beats in standard and insane mode; it
    changes at no other poll, so that at every loop test it equals the number
    of completed periods modulo 4.  The working variant rotates every 4
    beats. *)
Theorem scheme_rotation_period :
  (rotation_period SIMPLE = 16 /\ rotation_period STANDARD = 8
   /\ rotation_period INSANE = 8 /\ Z.of_nat (List.length color_schemes) = 4)
  /\ (forall mode, rotates_every mode (rotation_period mode))
  /\ (forall mode st t,
         current_scheme_idx (poll mode st t) <> current_scheme_idx st ->
         beat_due (configure mode) st t = true
         /\ beat_count (poll mode st t) mod rotation_period mode = 0
         /\ current_scheme_idx (poll mode st t) = (current_scheme_idx st + 1) mod 4)
  /\ (forall mode st t,
         beat_due (configure mode) st t = true ->
         beat_count (poll mode st t) mod rotation_period mode = 0 ->
         current_scheme_idx (poll mode st t) <> current_scheme_idx st)
  /\ (forall scr mode s st,
         reachable scr mode s st ->
         current_scheme_idx st = (beat_count st / rotation_period mode) mod 4)
  /\ (forall st t,
         Working.current_scheme_idx (Working.beat_clock t st)
         = if (Working.beat_count st + 1) mod 4 =? 0
           then (Working.current_scheme_idx st + 1) mod 4
           else Working.current_scheme_idx st).
Proof.
  split; [repeat split|].
  split.
  { intros mode st t Hdue. unfold poll. rewrite Hdue. reflexivity. }
  split.
  { intros mode st t Hneq. unfold poll in *.
    destruct (beat_due (configure mode) st t); [|congruence].
    split; [reflexivity|]. simpl in *.
    destruct (Z.eqb_spec ((beat_count st + 1) mod rotation_period mode) 0);
      [|congruence].
    auto. }
  split.
  { intros mode st t Hdue Hmod. unfold poll in *. rewrite Hdue in *.
    simpl in *. rewrite Hmod. simpl. apply succ_mod_4_moves. }
  split.
  { intros scr mode s st Hreach.
    induction Hreach as [|st tk st' _ IH _ _ Hiter].
    - destruct mode; reflexivity.
    - apply demo_iter_clock in Hiter. destruct Hiter as (-> & _ & ->).
      unfold poll. destruct (beat_due (configure mode) st (now tk)); [|exact IH].
      apply beat_clock_scheme_quotient; [|reflexivity|exact IH].
      destruct mode; simpl; auto. }
  intros st t. reflexivity.
Qed.

(** The statement at the sixteenth beat of simple mode. *)
Lemma scheme_rotation_period_witness :
  let st15 := mk_state 450 0 15 [] 7.5 0 0 true 0.5 in
  beat_due (configure SIMPLE) st15 8 = true
  /\ beat_count (poll SIMPLE st15 8) mod rotation_period SIMPLE = 0
  /\ current_scheme_idx (poll SIMPLE st15 8) <> current_scheme_idx st15.
Proof.
  intros st15.
  split; [reflexivity|]. split; [reflexivity|].
  apply (proj1 (proj2 (proj2 (proj2 scheme_rotation_period))) SIMPLE st15 8%Q);
    reflexivity.
Defined.

End SchemeRotation.

(* ================================================================== *)
(** ** Start-up validation *)
(* ================================================================== *)

Section Startup.

Import Unified.

Lemma choices_spec m :
  existsb (String.eqb m) choices = true <-> In m choices.
Proof.
  rewrite existsb_exists. split.
  - intros (x & Hx & Heq). apply String.eqb_eq in Heq. subst. exact Hx.
  - intros H. exists m. split; [exact H|apply String.eqb_refl].
Qed.

Lemma VisualizerMode_of_choice m :
  In m choices -> exists v, VisualizerMode_of m = Ok v /\ value v = m.
Proof.
  intros [<-|[<-|[<-|[]]]]; eexists; split; reflexivity.
Qed.

Lemma parse_args_parsed inv args :
  parse_args inv = Some args <-> run_parser inv = Parsed args.
Proof.
  unfold parse_args. destruct (run_parser inv); split; congruence.
Qed.

Lemma consume_cons a rest ex audio mode extras :
  consume (a :: rest) ex audio mode extras
  = if ex then
      match a with
      | Positional v =>
          if existsb (String.eqb v) choices
          then consume rest false audio v extras
          else UsageError (invalid_choice v)
      | _ => UsageError expected_one_argument
      end
    else
      match a with
      | OptHelp => HelpExit
      | OptMode => consume rest true audio mode extras
      | OptModeEq v =>
          if existsb (String.eqb v) choices
          then consume rest false audio v extras
          else UsageError (invalid_choice v)
      | Positional f =>
          match audio with
          | None => consume rest false (Some f) mode extras
          | Some _ => consume rest false audio mode (extras ++ [f])
          end
      | OptUnknown o => consume rest false audio mode (extras ++ [o])
      end.
Proof. reflexivity. Qed.

(** One step of [consume] on a non-empty command line. *)
Ltac consume_step a ex audio :=
  rewrite !consume_cons; destruct ex; destruct a as [f| | |f|o]; cbv beta iota;
  try match goal with
      | |- context [existsb (String.eqb f) choices] =>
          destruct (existsb (String.eqb f) choices) eqn:?
      end;
  try match goal with
      | |- context [match audio with Some _ => _ | None => _ end] => destruct audio
      end.

(** A returned namespace holds a mode of [choices] and a positional of the
    command line. *)
Lemma consume_parsed args :
  forall ex audio mode extras ns,
    consume args ex audio mode extras = Parsed ns ->
    (In mode choices -> In (Unified.mode ns) choices)
    /\ (audio = Some (audio_file ns) \/ In (Positional (audio_file ns)) args)
    /\ ~ In OptHelp args.
Proof.
  induction args as [|a args IH]; intros ex audio mode extras ns H.
  - simpl in H. destruct ex; [discriminate|].
    destruct audio as [f|]; [|discriminate].
    destruct extras; [|discriminate]. inversion H; subst. simpl. auto.
  - revert H. consume_step a ex audio; intros H; try discriminate H;
      apply IH in H; destruct H as (Hm & Ha & Hh);
      (split; [|split]);
      try (intros [E|E]; [discriminate E|exact (Hh E)]);
      try (intros _; apply Hm; apply choices_spec; assumption);
      try exact Hm;
      try (destruct Ha as [Ha|Ha];
           [first [left; exact Ha | discriminate Ha] | right; right; exact Ha]).
    + destruct Ha as [Ha|Ha]; [|right; right; exact Ha].
      inversion Ha; subst. right. left. reflexivity.
Qed.

(** A command line that hands [--mode] a value outside [choices] is never
    parsed. *)
Lemma consume_bad_mode before v after :
  ~ In v choices ->
  forall ex audio mode extras ns,
    (consume (before ++ OptMode :: Positional v :: after) ex audio mode extras
     <> Parsed ns)
    /\ (consume (before ++ OptModeEq v :: after) ex audio mode extras <> Parsed ns).
Proof.
  intros Hv. assert (Hb : existsb (String.eqb v) choices = false).
  { destruct (existsb (String.eqb v) choices) eqn:E; [|reflexivity].
    apply choices_spec in E. contradiction. }
  induction before as [|a before IH]; intros ex audio mode extras ns.
  - simpl app. destruct ex; rewrite !consume_cons; cbv beta iota; rewrite ?Hb;
      split; discriminate.
  - simpl app. consume_step a ex audio; split; try discriminate; apply IH.
Qed.

(** The parser exits through the help action only at a help option. *)
Lemma consume_help args :
  forall ex audio mode extras,
    consume args ex audio mode extras = HelpExit -> In OptHelp args.
Proof.
  induction args as [|a args IH]; intros ex audio mode extras H.
  - simpl in H. destruct ex; [discriminate|].
    destruct audio; [|discriminate]. destruct extras; discriminate.
  - revert H. consume_step a ex audio; intros H; try discriminate H;
      try (left; reflexivity); right; eapply IH; exact H.
Qed.

(** Without [-m/--mode] on the command line the mode is the default. *)
Lemma consume_default_mode args :
  forall ex audio mode extras ns,
    consume args ex audio mode extras = Parsed ns ->
    ex = false -> ~ In OptMode args -> (forall v, ~ In (OptModeEq v) args) ->
    Unified.mode ns = mode.
Proof.
  induction args as [|a args IH]; intros ex audio mode extras ns H Hex Hm He.
  - subst ex. simpl in H. destruct audio; [|discriminate].
    destruct extras; [|discriminate]. inversion H. reflexivity.
  - subst ex. destruct a as [f| | |v|o]; simpl in H; try discriminate H.
    + destruct audio; (eapply IH; [exact H|reflexivity| |]);
        try (intros E; apply Hm; right; exact E);
        try (intros v E; apply (He v); right; exact E).
    + exfalso. apply Hm. left. reflexivity.
    + exfalso. apply (He v). left. reflexivity.
    + eapply IH; [exact H|reflexivity| |].
      * intros E; apply Hm; right; exact E.
      * intros v E; apply (He v); right; exact E.
Qed.

Lemma parse_args_accepts inv args :
  parse_args inv = Some args ->
  In (mode args) choices
  /\ In (Positional (audio_file args)) inv
  /\ ~ In OptHelp inv.
Proof.
  intros H. apply parse_args_parsed in H. unfold run_parser in H.
  apply consume_parsed in H. destruct H as (Hm & [Ha|Ha] & Hh); [discriminate Ha|].
  split; [apply Hm; right; left; reflexivity|]. split; assumption.
Qed.

Lemma parse_args_rejects inv v :
  gives_mode inv v -> ~ In v choices -> parse_args inv = None.
Proof.
  intros (before & after & Hinv) Hv.
  destruct (parse_args inv) as [ns|] eqn:E; [|reflexivity].
  apply parse_args_parsed in E. unfold run_parser in E. exfalso.
  destruct (@consume_bad_mode before v after Hv false None "standard"%string [] ns)
    as [H1 H2].
  destruct Hinv as [-> | ->]; [exact (H1 E)|exact (H2 E)].
Qed.

Lemma single_message_starts_nothing ev :
  (exists msg, ev = EvStdout msg \/ ev = EvStderr msg) -> ~ starts_session [ev].
Proof.
  intros (msg & [->| ->]) [H|[H|[H|H]]]; simpl in H;
    destruct H as [H|[]]; discriminate H.
Qed.

(** How [main] ends when the parser does not return. *)
Lemma main_not_parsed scr fs inv s ticks :
  parse_args inv = None ->
  (run_parser inv = HelpExit /\ In OptHelp inv
   /\ main scr fs inv s ticks = ([EvStdout help_text], Some 0))
  \/ (exists msg, run_parser inv = UsageError msg
                  /\ main scr fs inv s ticks = ([EvStderr msg], Some 2)).
Proof.
  unfold parse_args, main. destruct (run_parser inv) as [ns| |msg] eqn:E.
  - discriminate.
  - intros _. left. split; [reflexivity|]. split; [|reflexivity].
    unfold run_parser in E. eapply consume_help. exact E.
  - intros _. right. exists msg. split; reflexivity.
Qed.

Lemma main_file_missing scr fs inv args s ticks :
  parse_args inv = Some args ->
  fs (audio_file args) = false ->
  main scr fs inv s ticks = ([EvStdout (not_found (audio_file args))], Some 1).
Proof.
  intros Hparse Hfs. unfold main.
  destruct (parse_args_accepts _ Hparse) as (Hin & _ & _).
  apply parse_args_parsed in Hparse. rewrite Hparse.
  destruct (VisualizerMode_of_choice Hin) as (v & -> & _).
  rewrite Hfs. reflexivity.
Qed.

(** [ascii-beats.py gone.wav -h] in an empty directory: the help action
    ends the program with status 0 before the file is looked at. *)
Lemma help_exits_with_status_0_without_the_file :
  main (mk_screen 80 24) (fun _ => false) [Positional "gone.wav"; OptHelp]
       (mk_startup 0 0 0) []
  = ([EvStdout help_text], Some 0)
  /\ ~ (forall scr fs inv s ticks,
          (forall f, In (Positional f) inv -> fs f = false) ->
          exists tr code, main scr fs inv s ticks = (tr, Some code) /\ code <> 0).
Proof.
  split; [reflexivity|]. intros H.
  destruct (H (mk_screen 80 24) (fun _ => false) [Positional "gone.wav"; OptHelp]
              (mk_startup 0 0 0) [] (fun _ _ => eq_refl))
    as (tr & code & E & Hcode).
  inversion E. subst code. apply Hcode. reflexivity.
Qed.

(** Claim C5, amended.  When the command line is accepted by the parser and
    the audio file does not exist, the unified visualizer prints the "not
    found" error and exits with status 1.  When the parser does not return,
    the file is never looked at: a usage error exits with status 2, and a
    help option that is reached first prints the help and exits with status
    0.  So with no file of the command line existing and no help option the
    status is 1 or 2, and in every case one message is printed and no screen,
    mixer or loop is started.  The [__main__] blocks of the three
    single-mode scripts print the error and exit with status 1. *)
Theorem missing_audio_file_exits_early :
  (forall scr fs inv args s ticks,
      parse_args inv = Some args ->
      fs (audio_file args) = false ->
      main scr fs inv s ticks
      = ([EvStdout (not_found (audio_file args))], Some 1))
  /\ (forall scr fs inv s ticks,
         parse_args inv = None ->
         (run_parser inv = HelpExit
          /\ main scr fs inv s ticks = ([EvStdout help_text], Some 0))
         \/ (exists msg, run_parser inv = UsageError msg
                         /\ main scr fs inv s ticks = ([EvStderr msg], Some 2)))
  /\ (forall scr fs inv s ticks,
         (forall f, In (Positional f) inv -> fs f = false) ->
         exists ev code,
           main scr fs inv s ticks = ([ev], Some code)
           /\ (exists msg, ev = EvStdout msg \/ ev = EvStderr msg)
           /\ ~ starts_session [ev]
           /\ (code = 1 \/ code = 2 \/ (code = 0 /\ In OptHelp inv)))
  /\ (forall scr fs argv t0 ticks,
         fs (argv_audio_file argv) = false ->
         Simple.main scr fs argv t0 ticks
         = ([EvStdout (not_found (argv_audio_file argv))], Some 1))
  /\ (forall scr fs argv ticks,
         fs (argv_audio_file argv) = false ->
         Insane.main scr fs argv ticks
         = ([EvStdout (not_found (argv_audio_file argv))], Some 1))
  /\ (forall scr fs argv t1 t2 ticks,
         fs (argv_audio_file argv) = false ->
         Working.main scr fs argv t1 t2 ticks
         = ([EvStdout (not_found (argv_audio_file argv))], Some 1)).
Proof.
  split; [intros scr fs inv args s ticks; apply main_file_missing|].
  split.
  { intros scr fs inv s ticks Hnone.
    destruct (main_not_parsed scr fs inv s ticks Hnone) as [(H1 & _ & H2)|H];
      [left; auto|right; exact H]. }
  split.
  { intros scr fs inv s ticks Hfs.
    destruct (parse_args inv) as [args|] eqn:Hparse.
    - destruct (parse_args_accepts _ Hparse) as (_ & Hfile & _).
      exists (EvStdout (not_found (audio_file args))), 1.
      split; [apply main_file_missing; [exact Hparse|apply Hfs; exact Hfile]|].
      split; [eauto|]. split; [apply single_message_starts_nothing; eauto|].
      left. reflexivity.
    - destruct (main_not_parsed scr fs inv s ticks Hparse)
        as [(_ & Hh & E)|(msg & _ & E)].
      + exists (EvStdout help_text), 0. split; [exact E|].
        split; [eauto|]. split; [apply single_message_starts_nothing; eauto|].
        right. right. split; [reflexivity|exact Hh].
      + exists (EvStderr msg), 2. split; [exact E|].
        split; [eauto|]. split; [apply single_message_starts_nothing; eauto|].
        right. left. reflexivity. }
  split; [|split].
  - intros scr fs argv t0 ticks Hfs. unfold Simple.main. rewrite Hfs. reflexivity.
  - intros scr fs argv ticks Hfs. unfold Insane.main. rewrite Hfs. reflexivity.
  - intros scr fs argv t1 t2 ticks Hfs. unfold Working.main. rewrite Hfs. reflexivity.
Qed.

(** The statement at [ascii-beats.py gone.wav --mode insane] in an empty
    directory. *)
Lemma missing_audio_file_exits_early_witness :
  parse_args [Positional "gone.wav"; OptMode; Positional "insane"]
  = Some (mk_namespace "gone.wav" "insane")
  /\ main (mk_screen 80 24) (fun _ => false)
       [Positional "gone.wav"; OptMode; Positional "insane"] (mk_startup 0 0 0) []
     = ([EvStdout (not_found "gone.wav")], Some 1).
Proof.
  split; [reflexivity|].
  apply (proj1 missing_audio_file_exits_early
           (mk_screen 80 24) (fun _ => false)
           [Positional "gone.wav"; OptMode; Positional "insane"]
           (mk_namespace "gone.wav" "insane") (mk_startup 0 0 0) []);
    reflexivity.
Defined.

(** [ascii-beats.py -h --mode turbo song.wav]: the help action is reached
    before the mode value, so the parser reports no error and the status is
    0. *)
Lemma help_before_an_unsupported_mode :
  gives_mode [OptHelp; OptMode; Positional "turbo"; Positional "song.wav"] "turbo"
  /\ ~ In "turbo"%string choices
  /\ main (mk_screen 80 24) (fun _ => true)
       [OptHelp; OptMode; Positional "turbo"; Positional "song.wav"]
       (mk_startup 0 0 0) []
     = ([EvStdout help_text], Some 0)
  /\ ~ (forall inv v,
          gives_mode inv v -> ~ In v choices ->
          exists msg, run_parser inv = UsageError msg).
Proof.
  assert (Hg : gives_mode [OptHelp; OptMode; Positional "turbo"; Positional "song.wav"]
                 "turbo").
  { exists [OptHelp], [Positional "song.wav"]. left. reflexivity. }
  assert (Hv : ~ In "turbo"%string choices).
  { intros [H|[H|[H|[]]]]; discriminate H. }
  split; [exact Hg|]. split; [exact Hv|]. split; [reflexivity|].
  intros H. destruct (H _ _ Hg Hv) as (msg & E). discriminate E.
Qed.

(** Claim C6, amended.  A command line that hands [--mode] a value outside
    simple, standard and insane never gets past argument parsing: the
    parser does not return, so no screen, audio or loop is started.  The
    program ends with status 2 and a usage error, unless a help option is
    reached before any error, in which case it prints the help and ends with
    status 0.  When the unsupported value is the first thing wrong the error
    is the invalid-choice diagnostic.  A returned namespace holds one of the
    three values, and every run that starts a session runs in one of the
    three modes. *)
Theorem unsupported_mode_rejected :
  (forall scr fs inv s ticks v,
      gives_mode inv v ->
      ~ In v ["simple"; "standard"; "insane"]%string ->
      parse_args inv = None
      /\ ~ starts_session (fst (main scr fs inv s ticks))
      /\ ((exists msg, main scr fs inv s ticks = ([EvStderr msg], Some 2))
          \/ (In OptHelp inv
              /\ main scr fs inv s ticks = ([EvStdout help_text], Some 0))))
  /\ (forall scr fs inv s ticks v,
         gives_mode inv v ->
         ~ In v ["simple"; "standard"; "insane"]%string ->
         ~ In OptHelp inv ->
         exists msg, main scr fs inv s ticks = ([EvStderr msg], Some 2))
  /\ (forall scr fs f v after s ticks,
         ~ In v ["simple"; "standard"; "insane"]%string ->
         main scr fs (Positional f :: OptMode :: Positional v :: after) s ticks
         = ([EvStderr (invalid_choice v)], Some 2)
         /\ main scr fs (OptMode :: Positional v :: after) s ticks
            = ([EvStderr (invalid_choice v)], Some 2)
         /\ main scr fs (Positional f :: OptModeEq v :: after) s ticks
            = ([EvStderr (invalid_choice v)], Some 2))
  /\ (forall inv args,
         parse_args inv = Some args ->
         In (mode args) ["simple"; "standard"; "insane"]%string
         /\ forall v, gives_mode inv v -> In v ["simple"; "standard"; "insane"]%string)
  /\ (forall scr fs inv s ticks,
         starts_session (fst (main scr fs inv s ticks)) ->
         exists args v,
           parse_args inv = Some args
           /\ VisualizerMode_of (mode args) = Ok v
           /\ In (value v) ["simple"; "standard"; "insane"]%string).
Proof.
  assert (Hmain : forall scr fs inv s ticks v,
             gives_mode inv v -> ~ In v choices ->
             parse_args inv = None
             /\ ~ starts_session (fst (main scr fs inv s ticks))
             /\ ((exists msg, main scr fs inv s ticks = ([EvStderr msg], Some 2))
                 \/ (In OptHelp inv
                     /\ main scr fs inv s ticks = ([EvStdout help_text], Some 0)))).
  { intros scr fs inv s ticks v Hg Hv.
    pose proof (parse_args_rejects Hg Hv) as Hnone.
    split; [exact Hnone|].
    destruct (main_not_parsed scr fs inv s ticks Hnone)
      as [(_ & Hh & E)|(msg & _ & E)]; rewrite E.
    - split; [apply single_message_starts_nothing; eauto|]. right. auto.
    - split; [apply single_message_starts_nothing; eauto|]. left. eauto. }
  split; [exact Hmain|]. split; [|split; [|split]].
  - intros scr fs inv s ticks v Hg Hv Hh.
    destruct (Hmain scr fs inv s ticks v Hg Hv) as (_ & _ & [H|[H _]]);
      [exact H|contradiction].
  - intros scr fs f v after s ticks Hv.
    assert (Hb : existsb (String.eqb v) choices = false).
    { destruct (existsb (String.eqb v) choices) eqn:E; [|reflexivity].
      apply choices_spec in E. contradiction. }
    unfold main, run_parser. rewrite !consume_cons. cbv beta iota.
    rewrite Hb. auto.
  - intros inv args Hparse.
    destruct (parse_args_accepts _ Hparse) as (Hin & _ & _).
    split; [exact Hin|]. intros v Hg.
    destruct (in_dec string_dec v choices) as [H|H]; [exact H|].
    rewrite (parse_args_rejects Hg H) in Hparse. discriminate Hparse.
  - intros scr fs inv s ticks Hstart.
    destruct (parse_args inv) as [args|] eqn:Hparse.
    + destruct (parse_args_accepts _ Hparse) as (Hin & _ & _).
      destruct (VisualizerMode_of_choice Hin) as (v & Hv & Hval).
      exists args, v. split; [reflexivity|]. split; [exact Hv|].
      rewrite Hval. exact Hin.
    + exfalso. revert Hstart.
      destruct (main_not_parsed scr fs inv s ticks Hparse)
        as [(_ & _ & E)|(msg & _ & E)]; rewrite E;
        apply single_message_starts_nothing; eauto.
Qed.

(** The statement at [ascii-beats.py song.wav --mode turbo]. *)
Lemma unsupported_mode_rejected_witness :
  gives_mode [Positional "song.wav"; OptMode; Positional "turbo"] "turbo"
  /\ ~ In "turbo"%string ["simple"; "standard"; "insane"]%string
  /\ main (mk_screen 80 24) (fun _ => true)
       [Positional "song.wav"; OptMode; Positional "turbo"] (mk_startup 0 0 0) []
     = ([EvStderr (invalid_choice "turbo")], Some 2).
Proof.
  assert (Hv : ~ In "turbo"%string ["simple"; "standard"; "insane"]%string).
  { intros [H|[H|[H|[]]]]; discriminate H. }
  split; [exists [Positional "song.wav"], []; left; reflexivity|].
  split; [exact Hv|].
  apply (proj1 (proj1 (proj2 (proj2 unsupported_mode_rejected))
                  (mk_screen 80 24) (fun _ => true) "song.wav"%string "turbo"%string
                  [] (mk_startup 0 0 0) [] Hv)).
Defined.

End Startup.

(* ================================================================== *)
(** ** An exception during a frame *)
(* ================================================================== *)

Section FrameErrors.

Lemma unified_loop_app scr mode pre :
  forall st tr st' more,
    Unified.loop scr mode st pre = (tr, Running st') ->
    Unified.loop scr mode st (pre ++ more)
    = (tr ++ fst (Unified.loop scr mode st' more),
       snd (Unified.loop scr mode st' more)).
Proof.
  induction pre as [|tk pre IH]; intros st tr st' more H; simpl in H.
  - inversion H; subst. simpl. destruct (Unified.loop scr mode st' more); reflexivity.
  - simpl. destruct (Unified.running st && Unified.busy tk); [|discriminate].
    destruct (Unified.demo_iter scr mode st tk) as [st1|e]; [|discriminate].
    destruct (Unified.loop scr mode st1 pre) as [tr1 o1] eqn:E.
    inversion H; subst.
    rewrite (IH _ _ _ more E). reflexivity.
Qed.

Lemma insane_loop_app scr pre :
  forall st tr st' more,
    Insane.loop scr st pre = (tr, Running st') ->
    Insane.loop scr st (pre ++ more)
    = (tr ++ fst (Insane.loop scr st' more), snd (Insane.loop scr st' more)).
Proof.
  induction pre as [|tk pre IH]; intros st tr st' more H; simpl in H.
  - inversion H; subst. simpl. destruct (Insane.loop scr st' more); reflexivity.
  - simpl. destruct (Insane.running st); [|discriminate].
    destruct (Insane.demo_iter scr st tk) as [st1|e n q].
    + destruct (Insane.loop scr st1 pre) as [tr1 o1] eqn:E.
      inversion H; subst.
      rewrite (IH _ _ _ more E). reflexivity.
    + destruct (is_Exception e); discriminate.
Qed.

(** In the unified visualizer an error on the first beat of a screen 9 rows
    high ([random.randint(5, 4)] at line 205) leaves [demo] as an exception:
    nothing is printed on the screen and no delay precedes the cleanup. *)
Lemma unified_error_is_not_shown_in_place :
  let run :=
    Unified.demo (mk_screen 80 9) (fun _ => true) "song.wav" Unified.SIMPLE
      (Unified.mk_startup 0 0 0) [Unified.mk_tick true 0.5 [17%N] None None] in
  run = ([EvMixerInit; EvMusicLoad "song.wav"; EvMusicPlay;
          EvClear; EvMusicStop; EvPygameQuit],
         Raised (ValueError "empty range for randrange()"))
  /\ (forall d, ~ In (EvSleep d) (fst run))
  /\ (forall msg x y, ~ In (EvPrintAt msg x y) (fst run)).
Proof.
  split; [reflexivity|]. split.
  - intros d H. simpl in H. repeat (destruct H as [H|H]; [discriminate H|]). exact H.
  - intros msg x y H. simpl in H.
    repeat (destruct H as [H|H]; [discriminate H|]). exact H.
Qed.

(** Claim C7, amended.  In the unified visualizer an exception raised in a
    loop pass ends the loop at once: the [finally] block stops the music and
    quits pygame, no further pass runs, the screen is restored, and [main]
    then prints the error once, followed by the traceback; there is no delay.
    In the queue-driven variant the loop's handler shows the error on the
    screen, waits two seconds, then the music is stopped and pygame quit, and
    no further pass runs. *)
Theorem frame_error_ends_the_loop :
  (forall scr mode st tk rest e,
      Unified.running st = true -> Unified.busy tk = true ->
      Unified.demo_iter scr mode st tk = Raise e ->
      Unified.loop scr mode st (tk :: rest)
      = ([EvClear; EvMusicStop; EvPygameQuit], Raised e))
  /\ (forall scr fs inv args m s pre tk rest tr st e,
         Unified.parse_args inv = Some args ->
         Unified.VisualizerMode_of (Unified.mode args) = Ok m ->
         fs (Unified.audio_file args) = true ->
         Unified.loop scr m (Unified.init_state s) pre = (tr, Running st) ->
         Unified.running st = true -> Unified.busy tk = true ->
         Unified.demo_iter scr m st tk = Raise e ->
         is_Exception e = true ->
         Unified.main scr fs inv s (pre ++ tk :: rest)
         = ([EvStdout (Unified.banner m (Unified.audio_file args)); EvSleep 1;
             EvScreenOpen; EvMixerInit; EvMusicLoad (Unified.audio_file args);
             EvMusicPlay]
            ++ tr
            ++ [EvClear; EvMusicStop; EvPygameQuit; EvScreenClose;
                EvStdout ("Error: " ++ str e);
                EvStderr "Traceback (most recent call last):"],
            Some 0))
  /\ (forall scr st tk rest e n q,
         Insane.running st = true ->
         Insane.demo_iter scr st tk = Insane.Aborted e n q ->
         is_Exception e = true ->
         Insane.loop scr st (tk :: rest)
         = ([EvClear; EvPrintAt ("Error: " ++ str e) 0 0; EvRefresh; EvSleep 2;
             EvMusicStop; EvPygameQuit],
            Returned))
  /\ (forall scr fs argv pre tk rest tr st e n q,
         fs (argv_audio_file argv) = true ->
         argv_audio_file argv <> EmptyString ->
         Insane.loop scr Insane.init_state pre = (tr, Running st) ->
         Insane.running st = true ->
         Insane.demo_iter scr st tk = Insane.Aborted e n q ->
         is_Exception e = true ->
         Insane.main scr fs argv (pre ++ tk :: rest)
         = ([EvStdout ("INSANE ASCII BEAT VISUALIZER | Audio: " ++ argv_audio_file argv);
             EvSleep 1; EvScreenOpen; EvAnalyse (argv_audio_file argv); EvThreadStart]
            ++ tr
            ++ [EvClear; EvPrintAt ("Error: " ++ str e) 0 0; EvRefresh; EvSleep 2;
                EvMusicStop; EvPygameQuit; EvScreenClose],
            Some 0)).
Proof.
  assert (Hu : forall scr mode st tk rest e,
             Unified.running st = true -> Unified.busy tk = true ->
             Unified.demo_iter scr mode st tk = Raise e ->
             Unified.loop scr mode st (tk :: rest)
             = ([EvClear; EvMusicStop; EvPygameQuit], Raised e)).
  { intros scr mode st tk rest e Hrun Hbusy Hiter.
    simpl. rewrite Hrun, Hbusy, Hiter. reflexivity. }
  assert (Hi : forall scr st tk rest e n q,
             Insane.running st = true ->
             Insane.demo_iter scr st tk = Insane.Aborted e n q ->
             is_Exception e = true ->
             Insane.loop scr st (tk :: rest)
             = ([EvClear; EvPrintAt ("Error: " ++ str e) 0 0; EvRefresh; EvSleep 2;
                 EvMusicStop; EvPygameQuit],
                Returned)).
  { intros scr st tk rest e n q Hrun Hiter Hexc.
    simpl. rewrite Hrun, Hiter, Hexc. reflexivity. }
  split; [exact Hu|]. split; [|split; [exact Hi|]].
  - intros scr fs inv args m s pre tk rest tr st e
           Hparse Hmode Hfs Hpre Hrun Hbusy Hiter Hexc.
    unfold Unified.main, Unified.parse_args in *.
    destruct (Unified.run_parser inv) as [ns| |msg]; try discriminate Hparse.
    inversion Hparse; subst ns.
    rewrite Hmode, Hfs. simpl negb. cbv iota.
    unfold Unified.demo. rewrite Hfs. simpl negb. cbv iota.
    rewrite (@unified_loop_app scr m pre _ _ _ (tk :: rest) Hpre).
    rewrite (Hu _ _ _ _ rest _ Hrun Hbusy Hiter).
    simpl fst. simpl snd. cbv iota beta.
    destruct e; try discriminate Hexc; simpl; rewrite <- !app_assoc; reflexivity.
  - intros scr fs argv pre tk rest tr st e n q Hfs Hname Hpre Hrun Hiter Hexc.
    unfold Insane.main. rewrite Hfs. simpl negb. cbv iota.
    unfold Insane.demo. rewrite Hfs.
    apply String.eqb_neq in Hname. rewrite Hname. simpl.
    rewrite (@insane_loop_app scr pre _ _ _ (tk :: rest) Hpre).
    rewrite (Hi _ _ _ rest _ _ _ Hrun Hiter Hexc).
    simpl. rewrite <- !app_assoc. reflexivity.
Qed.

(** The statement at a library error in the first pass of each script. *)
Lemma frame_error_ends_the_loop_witness :
  Unified.loop (mk_screen 80 24) Unified.STANDARD
    (Unified.init_state (Unified.mk_startup 0 0 0))
    [Unified.mk_tick true 0.1 [] (Some (LibraryError "resize")) None;
     Unified.mk_tick true 0.2 [] None None]
  = ([EvClear; EvMusicStop; EvPygameQuit], Raised (LibraryError "resize"))
  /\ Insane.loop (mk_screen 80 24) Insane.init_state
       [Insane.mk_tick [] [] (Some (LibraryError "resize")) None;
        Insane.mk_tick [] [] None None]
     = ([EvClear; EvPrintAt "Error: resize" 0 0; EvRefresh; EvSleep 2;
         EvMusicStop; EvPygameQuit],
        Returned).
Proof.
  split.
  - apply (proj1 frame_error_ends_the_loop); reflexivity.
  - apply (proj1 (proj2 (proj2 frame_error_ends_the_loop))
             (mk_screen 80 24) Insane.init_state
             (Insane.mk_tick [] [] (Some (LibraryError "resize")) None)
             [Insane.mk_tick [] [] None None] (LibraryError "resize") 0 []);
      reflexivity.
Defined.

End FrameErrors.

(* ================================================================== *)
(** ** The working variant: the beat branch *)
(* ================================================================== *)

Section WorkingBeat.

Import Working.

Lemma spawn_point_raises scr frame active :
  raises (spawn_point scr frame active) (beat_exception scr).
Proof.
  unfold spawn_point, beat_exception.
  destruct (Z.ltb_spec (width scr - 5) 5) as [Hw|Hw]; simpl orb.
  - apply raises_bind_l. apply raises_randint. exact Hw.
  - apply raises_bind_r; [apply total_randint; exact Hw|]. intros x.
    destruct (Z.ltb_spec (height scr - 5) 5) as [Hh|Hh].
    + apply raises_bind_l. apply raises_randint. exact Hh.
    + apply raises_bind_r; [apply total_randint; exact Hh|]. intros y.
      apply raises_bind_l. intros t. reflexivity.
Qed.

Lemma spawn_raises scr st : raises (spawn scr st) (beat_exception scr).
Proof.
  unfold spawn.
  apply raises_bind_post with (P := fun r => (0 <= r)%Q /\ (r < 1)%Q);
    [apply total_random|apply post_random|].
  intros r [Hr0 Hr1]. apply raises_bind_l.
  assert (Hn : 9 <= py_int ((0.8 + r * 0.2) * 12)).
  { apply py_int_lower_bound; [lia|]. change (inject_Z 9) with 9%Q. lra. }
  unfold range_len.
  destruct (Z.to_nat (py_int ((0.8 + r * 0.2) * 12))) as [|n] eqn:E; [lia|].
  simpl repeatM. apply raises_bind_l. apply spawn_point_raises.
Qed.

Lemma beat_pass_raises scr st tk :
  beat_due st (now tk) = true ->
  demo_iter scr st tk = Raise (beat_exception scr).
Proof.
  intros Hdue. unfold demo_iter, on_beat. rewrite Hdue.
  rewrite (spawn_raises scr (beat_clock (now tk) st) (rnd tk)). reflexivity.
Qed.

Lemma quiet_pass_keeps_list scr st tk st' :
  demo_iter scr st tk = Ok st' ->
  beat_due st (now tk) = false
  /\ beat_count st' = beat_count st
  /\ active_explosions st' = sweep (frame st) (active_explosions st).
Proof.
  intros H. destruct (beat_due st (now tk)) eqn:Hdue.
  - rewrite (beat_pass_raises scr st tk Hdue) in H. discriminate H.
  - split; [reflexivity|].
    unfold demo_iter, on_beat in H. rewrite Hdue in H. simpl in H.
    destruct (fault tk); [discriminate|]. inversion H; subst. simpl.
    unfold on_sub_beat. destruct (Qle_bool _ _); simpl; auto.
Qed.

(** On a screen 9 rows high the first beat stops at the position draw
    [random.randint(5, 4)] of line 169, before the misspelt name is
    evaluated. *)
Lemma working_beat_on_a_low_screen :
  let st := init_state 0 0 in
  let tk := mk_tick true 0.5 [1; 2; 3]%N None None in
  beat_due st (now tk) = true
  /\ demo_iter (mk_screen 80 9) st tk = Raise (ValueError "empty range for randrange()")
  /\ demo_iter (mk_screen 80 9) st tk
     <> Raise (NameError "name 'SerpentFireework' is not defined")
  /\ ~ (forall scr st tk,
          beat_due st (now tk) = true ->
          demo_iter scr st tk = Raise (NameError "name 'SerpentFireework' is not defined")).
Proof.
  split; [reflexivity|]. split; [reflexivity|]. split; [discriminate|].
  intros H.
  specialize (H (mk_screen 80 9) (init_state 0 0)
                (mk_tick true 0.5 [1; 2; 3]%N None None) eq_refl).
  discriminate H.
Qed.

(** Claim C8, amended.  In the working variant every pass whose beat is due
    raises before anything is appended: on a screen of at least 10 columns
    and 10 rows it is the [NameError] for [SerpentFireework], which the loop
    does not catch, so [demo] ends with it; on a smaller screen the position
    draw raises [ValueError] first.  Hence no beat is ever completed and the
    list of active explosions is empty at every loop test. *)
Theorem working_beat_branch_raises :
  (forall scr st tk,
      beat_due st (now tk) = true ->
      10 <= width scr -> 10 <= height scr ->
      demo_iter scr st tk = Raise (NameError "name 'SerpentFireework' is not defined"))
  /\ (forall scr st tk,
         beat_due st (now tk) = true ->
         width scr < 10 \/ height scr < 10 ->
         demo_iter scr st tk = Raise (ValueError "empty range for randrange()"))
  /\ (forall scr st tk rest,
         running st = true -> busy tk = true ->
         beat_due st (now tk) = true ->
         loop scr st (tk :: rest) = ([EvClear], Raised (beat_exception scr)))
  /\ (forall scr t_beat t_sub st,
         reachable scr t_beat t_sub st ->
         active_explosions st = [] /\ beat_count st = 0).
Proof.
  split; [|split; [|split]].
  - intros scr st tk Hdue Hw Hh. rewrite (beat_pass_raises scr st tk Hdue).
    unfold beat_exception.
    destruct (Z.ltb_spec (width scr - 5) 5); [lia|].
    destruct (Z.ltb_spec (height scr - 5) 5); [lia|]. reflexivity.
  - intros scr st tk Hdue Hsmall. rewrite (beat_pass_raises scr st tk Hdue).
    unfold beat_exception.
    destruct (Z.ltb_spec (width scr - 5) 5); [reflexivity|].
    destruct (Z.ltb_spec (height scr - 5) 5); [reflexivity|lia].
  - intros scr st tk rest Hrun Hbusy Hdue. simpl.
    rewrite Hrun, Hbusy, (beat_pass_raises scr st tk Hdue). reflexivity.
  - intros scr t_beat t_sub st Hreach.
    induction Hreach as [|st tk st' _ [IHa IHc] _ _ Hiter].
    + split; reflexivity.
    + apply quiet_pass_keeps_list in Hiter. destruct Hiter as (_ & Hc & Ha).
      rewrite Hc, Ha, IHa. split; [reflexivity|exact IHc].
Qed.

(** The statement at the first beat on an 80 x 24 screen. *)
Lemma working_beat_branch_raises_witness :
  demo_iter (mk_screen 80 24) (init_state 0 0) (mk_tick true 0.5 [1; 2; 3]%N None None)
  = Raise (NameError "name 'SerpentFireework' is not defined").
Proof.
  apply (proj1 working_beat_branch_raises).
  - reflexivity.
  - simpl. lia.
  - simpl. lia.
Defined.

End WorkingBeat.

(* ================================================================== *)
(** ** The queue-driven variant: beats per pass *)
(* ================================================================== *)

Section QueueDrain.

Import Insane.

(** What the fireworks, flash and text of one event leave untouched. *)
Lemma burst_post scr b st :
  post (burst scr b st)
       (fun st' => frame st' = frame st /\ beat_count st' = beat_count st
                   /\ current_scheme st' = current_scheme st
                   /\ running st' = running st /\ beat_queue st' = beat_queue st).
Proof.
  unfold burst. post_skip. post_skip. post_skip.
  apply post_ret. simpl. auto.
Qed.

(** [CrazyFirework(screen, x, y)] never returns: whichever branch of the
    chain the first pass of its loop takes, the constructor call in it
    raises. *)
Lemma CrazyFirework_raises scr x y :
  raises (CrazyFirework scr x y) (TypeError too_many_positional).
Proof.
  unfold CrazyFirework. rewrite repeatM_S. apply raises_bind_l.
  raises_skip. raises_skip. raises_skip. raises_skip.
  destruct (Qlt_bool _ _); [apply raises_bind_l, new_particle_raises|].
  raises_skip.
  destruct (Qlt_bool _ _); [apply raises_bind_l, new_particle_raises|].
  raises_skip.
  destruct (Qlt_bool _ _); apply raises_bind_l, new_particle_raises.
Qed.

(** An event whose intensity is not negative asks for at least two
    fireworks; the first one ends its handling. *)
Lemma burst_raises scr b st :
  (0 <= b_intensity b)%Q ->
  raises (burst scr b st) (firework_exception scr).
Proof.
  intros Hi. unfold burst. cbv zeta. apply raises_bind_l.
  assert (Hn : 0 <= py_int (b_intensity b * 10)).
  { apply py_int_lower_bound; [lia|]. change (inject_Z 0) with 0%Q. lra. }
  unfold range_len.
  destruct (Z.to_nat (Z.min (py_int (b_intensity b * 10) + 2) 8)) as [|n] eqn:E;
    [lia|].
  rewrite repeatM_S. apply raises_bind_l.
  unfold firework_exception.
  destruct (Z.ltb_spec (width scr - 5) 5) as [Hw|Hw]; simpl orb.
  - apply raises_bind_l. apply raises_randint. exact Hw.
  - apply raises_bind_r; [apply total_randint; exact Hw|]. intros x.
    destruct (Z.ltb_spec (height scr - 5) 5) as [Hh|Hh].
    + apply raises_bind_l. apply raises_randint. exact Hh.
    + apply raises_bind_r; [apply total_randint; exact Hh|]. intros y.
      apply raises_bind_l. apply CrazyFirework_raises.
Qed.

(** With nothing put meanwhile, the drain counts one beat for each event
    it takes off the queue. *)
Lemma drain_rest_counts scr queue :
  forall st t,
    match drain_rest scr queue st t with
    | Done st' =>
        beat_count st' = beat_count st + Z.of_nat (List.length queue)
        /\ beat_queue st' = match queue with [] => beat_queue st | _ => [] end
    | Aborted e n rest =>
        beat_count st + 1 <= n
        /\ n + Z.of_nat (List.length rest)
           = beat_count st + Z.of_nat (List.length queue)
    end.
Proof.
  induction queue as [|b rest IH]; intros st t; simpl drain_rest.
  - simpl. split; [lia|]. auto.
  - destruct (burst scr b (count_beat st rest) t) as [[st2 t2]|e] eqn:E.
    + apply burst_post in E. destruct E as (Hf & Hc & Hs & Hr & Hq).
      specialize (IH st2 t2).
      destruct (drain_rest scr rest st2 t2) as [st'|e n q].
      * destruct IH as (IHc & IHq).
        simpl List.length. rewrite IHc, Hc. simpl.
        split; [lia|].
        rewrite IHq, Hq. simpl. destruct rest; reflexivity.
      * rewrite Hc in IH. simpl in IH. simpl List.length. lia.
    + simpl. lia.
Qed.

(** With the thread putting beats meanwhile: a pass that takes [m] events
    counts [m] beats, and the events taken and those left on the queue are
    the ones it started with and the ones put while the [m] events were
    handled. *)
Lemma drain_counts scr puts :
  forall queue st t,
    beat_queue st = queue ->
    exists m : nat,
      match drain scr puts queue st t with
      | Done st' =>
          beat_count st' = beat_count st + Z.of_nat m
          /\ beat_queue st' = []
          /\ m = (List.length queue + List.length (List.concat (firstn m puts)))%nat
      | Aborted e n rest =>
          n = beat_count st + Z.of_nat m
          /\ (1 <= m)%nat
          /\ (m + List.length rest
              = List.length queue + List.length (List.concat (firstn m puts)))%nat
      end.
Proof.
  induction puts as [|put later IH]; intros queue st t Hq; simpl drain.
  - pose proof (drain_rest_counts scr queue st t) as H.
    destruct (drain_rest scr queue st t) as [st'|e n rest].
    + exists (List.length queue). destruct H as (Hc & Hq').
      rewrite firstn_nil. simpl.
      split; [exact Hc|]. split; [|lia].
      rewrite Hq'. destruct queue; [exact Hq|reflexivity].
    + destruct H as (H1 & H2).
      exists (Z.to_nat (n - beat_count st)). rewrite firstn_nil. simpl. lia.
  - destruct queue as [|b rest].
    + exists 0%nat. simpl. split; [lia|]. split; [exact Hq|reflexivity].
    + destruct (burst scr b (count_beat st rest) t) as [[st2 t2]|e] eqn:E.
      * apply burst_post in E. destruct E as (Hf & Hc & Hs & Hr & Hq2).
        destruct (IH (rest ++ put) (put_all put st2) t2) as (m & Hm).
        { simpl. rewrite Hq2. reflexivity. }
        exists (S m).
        destruct (drain scr later (rest ++ put) (put_all put st2) t2)
          as [st'|e n q]; simpl in Hm; rewrite Hc in Hm; simpl in Hm;
          simpl firstn; simpl List.concat; rewrite !length_app in *;
          simpl List.length; intuition lia.
      * exists 1%nat. simpl firstn. simpl List.concat.
        rewrite app_nil_r, !length_app. simpl. lia.
Qed.

Lemma demo_iter_counts scr st tk :
  exists m : nat,
    match demo_iter scr st tk with
    | Done st' =>
        beat_count st' = beat_count st + Z.of_nat m
        /\ beat_queue st' = []
        /\ m = (List.length (beat_queue st ++ put_before tk)
                + List.length (List.concat (firstn m (put_during tk))))%nat
    | Aborted e n rest =>
        n = beat_count st + Z.of_nat m
        /\ (m + List.length rest
            = List.length (beat_queue st ++ put_before tk)
              + List.length (List.concat (firstn m (put_during tk))))%nat
    end.
Proof.
  unfold demo_iter.
  match goal with
  | |- context [drain ?s ?p ?q ?x ?t] =>
      destruct (@drain_counts s p q x t eq_refl) as (m & Hd);
      destruct (drain s p q x t) as [st1|e n r]
  end.
  - exists m. simpl in Hd. destruct Hd as (Hc & Hq & Hm).
    destruct (fault tk); simpl.
    + rewrite Hq. simpl. split; [exact Hc|lia].
    + auto.
  - exists m. simpl in Hd. tauto.
Qed.

(** The first event of a pass is counted, and its handling ends the pass. *)
Lemma demo_iter_first_beat scr st tk b rest :
  beat_queue st ++ put_before tk = b :: rest ->
  (0 <= b_intensity b)%Q ->
  demo_iter scr st tk
  = Aborted (firework_exception scr) (beat_count st + 1)
      (rest ++ hd [] (put_during tk)).
Proof.
  intros Hq Hi. unfold demo_iter. rewrite Hq.
  destruct (put_during tk) as [|put later]; simpl.
  - rewrite (@burst_raises scr b _ Hi (rnd tk)), app_nil_r. reflexivity.
  - rewrite (@burst_raises scr b _ Hi (rnd tk)). reflexivity.
Qed.

Lemma firework_exception_is_Exception scr :
  is_Exception (firework_exception scr) = true.
Proof. unfold firework_exception. destruct (_ || _); reflexivity. Qed.

Lemma put_before_in_arrivals tk b :
  In b (put_before tk) -> In b (List.concat (arrivals tk)).
Proof.
  unfold put_before. destruct (arrivals tk) as [|p l]; simpl; [tauto|].
  intros H. apply in_or_app. left. exact H.
Qed.

(** Fed by the audio thread, the loop tests see the locals as they were
    initialised, except for the frame counter and the quit flag. *)
Lemma fed_by_thread_locals scr st :
  fed_by_thread scr st ->
  beat_count st = 0 /\ active_explosions st = [] /\ current_scheme st = 0
  /\ beat_queue st = [] /\ 0 <= frame st.
Proof.
  induction 1 as [|st tk st' _ (IHc & IHa & IHs & IHq & IHf) _ Hfed Hiter].
  - simpl. repeat split. lia.
  - rewrite Forall_forall in Hfed.
    destruct (put_before tk) as [|b rest] eqn:Hput.
    + unfold demo_iter in Hiter. rewrite IHq, Hput in Hiter.
      destruct (put_during tk); simpl in Hiter;
        (destruct (fault tk); [discriminate|]); inversion Hiter; subst; simpl;
        rewrite IHa; simpl; repeat split; try assumption; lia.
    + rewrite (@demo_iter_first_beat scr st tk b rest) in Hiter; [discriminate| |].
      * rewrite IHq, Hput. reflexivity.
      * apply Hfed. apply put_before_in_arrivals. rewrite Hput. left. reflexivity.
Qed.

(** Claim C10.  A pass of the queue-driven loop adds one to [beat_count]
    for every event it takes off the beat queue, whether the event was
    pending when the pass started or was put while the pass was draining;
    with nothing put meanwhile, a pass that completes has counted exactly the
    [k] pending events.  But the first event a pass takes, if its intensity
    is not negative, is counted and then stops the pass: its first firework
    raises, the [TypeError] of the constructor call or, on a screen under
    10 x 10, the [ValueError] of the position draw.  The loop's handler shows
    the error and the loop is over.  So a pass that starts with [k >= 1] such
    events raises [beat_count] by 1, whatever [k] is. *)
Theorem first_queued_beat_ends_the_pass :
  (forall scr st tk,
      exists m : nat,
        match demo_iter scr st tk with
        | Done st' =>
            beat_count st' = beat_count st + Z.of_nat m
            /\ beat_queue st' = []
            /\ m = (List.length (beat_queue st ++ put_before tk)
                    + List.length (List.concat (firstn m (put_during tk))))%nat
        | Aborted e n rest =>
            n = beat_count st + Z.of_nat m
            /\ (m + List.length rest
                = List.length (beat_queue st ++ put_before tk)
                  + List.length (List.concat (firstn m (put_during tk))))%nat
        end)
  /\ (forall scr st tk st',
         put_during tk = [] ->
         demo_iter scr st tk = Done st' ->
         beat_count st'
         = beat_count st + Z.of_nat (List.length (beat_queue st ++ put_before tk)))
  /\ (forall scr st tk b rest,
         beat_queue st ++ put_before tk = b :: rest ->
         (0 <= b_intensity b)%Q ->
         demo_iter scr st tk
         = Aborted (firework_exception scr) (beat_count st + 1)
             (rest ++ hd [] (put_during tk)))
  /\ (forall scr st tk b rest more,
         running st = true ->
         beat_queue st ++ put_before tk = b :: rest ->
         (0 <= b_intensity b)%Q ->
         loop scr st (tk :: more)
         = ([EvClear] ++ show_error (firework_exception scr) ++ cleanup, Returned))
  /\ (forall scr st,
         fed_by_thread scr st -> beat_count st = 0 /\ beat_queue st = [])
  /\ demo_iter (mk_screen 80 24) init_state
       (mk_tick [[mk_beat 0.5 0 0.5; mk_beat 1 1 0.9]] [4; 2]%N None None)
     = Aborted (TypeError too_many_positional) 1 [mk_beat 1 1 0.9].
Proof.
  split; [exact demo_iter_counts|].
  split.
  { intros scr st tk st' Hnone Hiter.
    destruct (demo_iter_counts scr st tk) as (m & Hm).
    rewrite Hiter, Hnone, firstn_nil in Hm. simpl in Hm.
    destruct Hm as (Hc & _ & Hlen). rewrite Hc. lia. }
  split; [exact demo_iter_first_beat|].
  split; [|split; [|reflexivity]].
  - intros scr st tk b rest more Hrun Hq Hi. simpl loop.
    rewrite Hrun, (@demo_iter_first_beat scr st tk b rest Hq Hi),
      firework_exception_is_Exception.
    reflexivity.
  - intros scr st Hfed. apply fed_by_thread_locals in Hfed. tauto.
Qed.

(** The statement at two beats queued for the first pass on an 80 x 24
    screen: one is counted, the other is left on the queue. *)
Lemma first_queued_beat_ends_the_pass_witness :
  (0 <= 0.5)%Q
  /\ demo_iter (mk_screen 80 24) init_state
       (mk_tick [[mk_beat 0.5 0 0.5; mk_beat 1 1 0.9]] [4; 2]%N None None)
     = Aborted (firework_exception (mk_screen 80 24)) (beat_count init_state + 1)
         ([mk_beat 1 1 0.9] ++ []).
Proof.
  split; [vm_compute; discriminate|].
  apply (proj1 (proj2 (proj2 first_queued_beat_ends_the_pass))
           (mk_screen 80 24) init_state
           (mk_tick [[mk_beat 0.5 0 0.5; mk_beat 1 1 0.9]] [4; 2]%N None None)
           (mk_beat 0.5 0 0.5) [mk_beat 1 1 0.9]).
  - reflexivity.
  - vm_compute. discriminate.
Defined.

End QueueDrain.

(* ================================================================== *)
(** ** Whole runs *)
(* ================================================================== *)

(** The working variant on an 80 x 24 screen: one quiet pass, then the first
    beat ends the run with the [NameError], reported by the [__main__]
    block. *)
Example working_run_ends_at_first_beat :
  Working.main (mk_screen 80 24) (fun _ => true)
    ["ascii-beats-working.py"; "song.wav"]%string 0 0
    [Working.mk_tick true 0.1 [5; 8]%N None None;
     Working.mk_tick true 0.5 [13; 21]%N None None;
     Working.mk_tick true 0.6 [34]%N None None]
  = ([EvStdout "INSANE ASCII BEAT VISUALIZER | Audio: song.wav"; EvSleep 1;
      EvScreenOpen; EvMixerInit; EvMusicLoad "song.wav"; EvMusicPlay;
      EvClear; EvRefresh; EvSleep 0.025;
      EvClear;
      EvScreenClose; EvStdout "Error: name 'SerpentFireework' is not defined"],
     Some 0).
Proof. vm_compute. reflexivity. Qed.

(** The unified visualizer in simple mode on an 80 x 24 screen: a quiet
    pass, then the first beat raises at the constructor call, the cleanup
    runs at once and [main] reports the error. *)
Example unified_run_ends_at_first_beat :
  Unified.main (mk_screen 80 24) (fun _ => true)
    [Unified.Positional "song.wav"; Unified.OptMode; Unified.Positional "simple"]
    (Unified.mk_startup 0 0 0)
    [Unified.mk_tick true 0.2 [] None None;
     Unified.mk_tick true 0.5 [17; 4; 1; 3; 2]%N None None;
     Unified.mk_tick true 0.6 [] None None]
  = ([EvStdout "ASCII BEAT VISUALIZER | Mode: simple | Audio: song.wav"; EvSleep 1;
      EvScreenOpen; EvMixerInit; EvMusicLoad "song.wav"; EvMusicPlay;
      EvClear; EvRefresh; EvSleep (1 / 30);
      EvClear; EvMusicStop; EvPygameQuit;
      EvScreenClose;
      EvStdout "Error: ParticleEffect.__init__() takes 5 positional arguments but 6 were given";
      EvStderr "Traceback (most recent call last):"],
     Some 0).
Proof. vm_compute. reflexivity. Qed.

(** The same on an 80 x 9 screen: the position draw raises first. *)
Example unified_run_on_a_low_screen :
  Unified.main (mk_screen 80 9) (fun _ => true)
    [Unified.Positional "song.wav"; Unified.OptMode; Unified.Positional "simple"]
    (Unified.mk_startup 0 0 0)
    [Unified.mk_tick true 0.2 [] None None;
     Unified.mk_tick true 0.5 [17]%N None None;
     Unified.mk_tick true 0.6 [] None None]
  = ([EvStdout "ASCII BEAT VISUALIZER | Mode: simple | Audio: song.wav"; EvSleep 1;
      EvScreenOpen; EvMixerInit; EvMusicLoad "song.wav"; EvMusicPlay;
      EvClear; EvRefresh; EvSleep (1 / 30);
      EvClear; EvMusicStop; EvPygameQuit;
      EvScreenClose; EvStdout "Error: empty range for randrange()";
      EvStderr "Traceback (most recent call last):"],
     Some 0).
Proof. vm_compute. reflexivity. Qed.

(** The queue-driven variant on an 80 x 24 screen: of three beats queued
    for one pass the first is counted, its first firework raises, and the
    handler shows the error and ends the run. *)
Example queued_run_ends_at_first_beat :
  Insane.main (mk_screen 80 24) (fun _ => true)
    ["ascii-beats-insane.py"; "song.wav"]%string
    [Insane.mk_tick [] [] None None;
     Insane.mk_tick
       [[Insane.mk_beat 0.4 0 0.3; Insane.mk_beat 0.9 1 0.8; Insane.mk_beat 1.4 2 1]]
       [2; 7; 1; 8; 2; 8]%N None None]
  = ([EvStdout "INSANE ASCII BEAT VISUALIZER | Audio: song.wav"; EvSleep 1;
      EvScreenOpen; EvAnalyse "song.wav"; EvThreadStart;
      EvClear; EvRefresh; EvSleep 0.03;
      EvClear;
      EvPrintAt "Error: ParticleEffect.__init__() takes 5 positional arguments but 6 were given" 0 0;
      EvRefresh; EvSleep 2; EvMusicStop; EvPygameQuit; EvScreenClose],
     Some 0).
Proof. vm_compute. reflexivity. Qed.

(* ================================================================== *)
(** * Further properties *)
(* ================================================================== *)

(** ** The sweep and the guarded appends *)

Section SweepAndAppend.

Import Unified.

(** X1.  A later sweep makes an earlier one redundant: sweeping at frame
    [f1] and then at a frame [f2 >= f1] leaves the list that the sweep at
    [f2] alone leaves, so frames skipped by the tracker change nothing; in
    either order the two sweeps give the same list. *)
Theorem later_sweep_subsumes_earlier f1 f2 l :
  f1 <= f2 ->
  sweep f2 (sweep f1 l) = sweep f2 l
  /\ sweep f1 (sweep f2 l) = sweep f2 l.
Proof.
  intros Hle. unfold sweep. split.
  - induction l as [|e l IH]; simpl; [reflexivity|].
    destruct (Z.ltb_spec (f1 - birth e) (lifetime e)) as [H1|H1]; simpl.
    + rewrite IH. reflexivity.
    + destruct (Z.ltb_spec (f2 - birth e) (lifetime e)) as [H2|H2]; [lia|exact IH].
  - induction l as [|e l IH]; simpl; [reflexivity|].
    destruct (Z.ltb_spec (f2 - birth e) (lifetime e)) as [H2|H2]; simpl.
    + destruct (Z.ltb_spec (f1 - birth e) (lifetime e)) as [H1|H1]; [|lia].
      rewrite IH. reflexivity.
    + exact IH.
Qed.

Lemma later_sweep_subsumes_earlier_witness :
  3 <= 12 /\
  sweep 12 (sweep 3 [mk_explosion (mk_particle StarFirework 4 4 18 20) 0 5;
                     mk_explosion (mk_particle RingFirework 9 6 16 20) 2 50])
  = sweep 12 [mk_explosion (mk_particle StarFirework 4 4 18 20) 0 5;
              mk_explosion (mk_particle RingFirework 9 6 16 20) 2 50].
Proof.
  split; [lia|].
  apply (proj1 (@later_sweep_subsumes_earlier 3 12 _ ltac:(lia))).
Defined.

(** X2.  The guarded appends of one spawn point keep the entries already in
    the list, in place, and add the first [max_explosions - len] of the new
    effects, stamped with the current frame and the mode's lifetime; the
    rest are dropped, and a list at or above the cap is left as it is. *)
Theorem append_capped_takes_what_fits mode cfg frame news :
  forall active,
    append_capped mode cfg frame active news
    = active
      ++ map (fun p => mk_explosion p frame (tracker_lifetime mode))
             (firstn (Z.to_nat (max_explosions cfg - Z.of_nat (List.length active)))
                     news).
Proof. apply append_capped_closed_form. Qed.

End SweepAndAppend.

(** ** [create_fireworks] and the beat branch of the unified visualizer *)

Section UnifiedBeatBranch.

Import Unified.

(** X3.  [create_fireworks] never returns a firework.  When the loop bound
    is at least 1, which it is for every intensity that is not negative, the
    call makes the draws of its first argument list and ends with the
    [TypeError] of the constructor; when the bound is 0 or less it returns
    the empty list without drawing. *)
Theorem create_fireworks_ends_at_the_constructor scr x y i mode :
  (1 <= num_fireworks mode i ->
   forall t, create_fireworks scr x y i mode t = Raise (TypeError too_many_positional))
  /\ (num_fireworks mode i <= 0 ->
      forall t, create_fireworks scr x y i mode t = Ok ([], t))
  /\ ((0 <= i)%Q -> 1 <= num_fireworks mode i)
  /\ post (create_fireworks scr x y i mode) (fun explosions => explosions = []).
Proof.
  split; [intros Hn t; apply create_fireworks_raises; exact Hn|].
  split; [intros Hn t; apply create_fireworks_none; exact Hn|].
  split; [apply num_fireworks_positive|].
  intros t l t' E.
  destruct (Z_le_gt_dec (num_fireworks mode i) 0) as [Hn|Hn].
  - rewrite (@create_fireworks_none scr x y i mode t Hn) in E. congruence.
  - rewrite (@create_fireworks_raises scr x y i mode ltac:(lia) t) in E.
    discriminate E.
Qed.

Lemma create_fireworks_ends_at_the_constructor_witness :
  1 <= num_fireworks STANDARD 0.85
  /\ create_fireworks (mk_screen 80 24) 40 12 0.85 STANDARD [3; 1; 4; 1; 5]%N
     = Raise (TypeError too_many_positional).
Proof.
  split; [vm_compute; discriminate|].
  apply (proj1 (@create_fireworks_ends_at_the_constructor
                  (mk_screen 80 24) 40 12 0.85 STANDARD)).
  vm_compute. discriminate.
Defined.

Lemma quiet_pass_no_beat_completed mode t k s st :
  no_beat_completed s st ->
  no_beat_completed s (end_of_frame k (on_sub_beat mode (configure mode) t st)).
Proof.
  intros (Hc & Ha & Hs & Hi & Hl & Ht).
  unfold no_beat_completed, end_of_frame, on_sub_beat.
  destruct (negb (is_simple mode) && Qle_bool _ _); simpl; rewrite ?Ha; simpl; auto 10.
Qed.

Lemma end_of_frame_frame mode t k st :
  frame (end_of_frame k (on_sub_beat mode (configure mode) t st)) = frame st + 1.
Proof.
  unfold end_of_frame, on_sub_beat.
  destruct (negb (is_simple mode) && Qle_bool _ _); reflexivity.
Qed.

(** The poll times of the passes a run has completed all lie less than
    half a second after the start of the clock. *)
Lemma loop_running_before_first_beat scr mode s ticks :
  forall st tr st',
    no_beat_completed s st ->
    loop scr mode st ticks = (tr, Running st') ->
    no_beat_completed s st'
    /\ frame st' = frame st + Z.of_nat (List.length ticks)
    /\ Forall (fun tk => (now tk - t_beat s < 0.5)%Q) ticks.
Proof.
  induction ticks as [|tk rest IH]; intros st tr st' Hst Hloop; simpl in Hloop.
  - inversion Hloop; subst. split; [exact Hst|]. split; [simpl; lia|constructor].
  - destruct (running st && busy tk) eqn:Hgo; [|discriminate].
    destruct (demo_iter scr mode st tk) as [st1|e] eqn:Hiter; [|discriminate].
    destruct (loop scr mode st1 rest) as [tr1 o1] eqn:Hrest.
    inversion Hloop; subst.
    apply demo_iter_ok in Hiter. destruct Hiter as (Hdue & _ & ->).
    pose proof (quiet_pass_no_beat_completed mode (now tk) (key tk) Hst) as Hst1.
    destruct (IH _ _ _ Hst1 Hrest) as (H1 & H2 & H3).
    split; [exact H1|]. split.
    + rewrite H2, end_of_frame_frame. simpl List.length. lia.
    + constructor; [|exact H3].
      apply beat_due_false in Hdue.
      destruct Hst as (_ & _ & _ & _ & Hl & _). rewrite Hl in Hdue. exact Hdue.
Qed.

(** X6.  No beat branch of the unified visualizer is ever completed.  At
    every loop test the beat count is 0, the list of active explosions is
    empty, the scheme index is 0, the intensity is 0.5 and [last_beat_time]
    is as initialised; a run that is still going after [n] passes is at
    frame [n], and all its passes were polled less than half a second after
    the clock was started. *)
Theorem unified_loop_never_completes_a_beat :
  (forall scr mode s st, reachable scr mode s st -> no_beat_completed s st)
  /\ (forall scr mode s ticks tr st,
         loop scr mode (init_state s) ticks = (tr, Running st) ->
         no_beat_completed s st
         /\ frame st = Z.of_nat (List.length ticks)
         /\ Forall (fun tk => (now tk - t_beat s < 0.5)%Q) ticks).
Proof.
  split; [intros scr mode s st; apply reachable_no_beat_completed|].
  intros scr mode s ticks tr st Hloop.
  apply (@loop_running_before_first_beat scr mode s ticks (init_state s) tr st);
    [|exact Hloop].
  unfold no_beat_completed. repeat split.
Qed.

Lemma unified_loop_never_completes_a_beat_witness :
  exists tr st,
    loop (mk_screen 80 24) STANDARD (init_state (mk_startup 0 0 0))
      [mk_tick true 0.2 [6; 2]%N None None; mk_tick true 0.45 [8]%N None None]
    = (tr, Running st)
    /\ no_beat_completed (mk_startup 0 0 0) st
    /\ frame st = 2.
Proof.
  eexists. eexists. split; [vm_compute; reflexivity|].
  match goal with
  | |- no_beat_completed _ ?st /\ _ =>
      destruct (proj2 unified_loop_never_completes_a_beat
                  (mk_screen 80 24) STANDARD (mk_startup 0 0 0)
                  [mk_tick true 0.2 [6; 2]%N None None; mk_tick true 0.45 [8]%N None None]
                  [EvClear; EvRefresh; EvSleep (frame_sleep (configure STANDARD));
                   EvClear; EvRefresh; EvSleep (frame_sleep (configure STANDARD))]
                  st) as (H1 & H2 & _)
  end.
  - vm_compute. reflexivity.
  - split; [exact H1|exact H2].
Defined.

(** X7.  The sub-beat clock.  A completed pass in standard or insane mode
    sets [last_sub_beat] to the poll time when an eighth of a second has
    passed since its last value, and leaves it otherwise; in simple mode
    the clock never moves, so [last_sub_beat] keeps its initial value at
    every loop test. *)
Theorem unified_sub_beat_clock :
  (forall scr mode st tk st',
      mode <> SIMPLE ->
      demo_iter scr mode st tk = Ok st' ->
      last_sub_beat st'
      = if Qle_bool 0.125 (now tk - last_sub_beat st)
        then now tk else last_sub_beat st)
  /\ (forall scr s st,
         reachable scr SIMPLE s st -> last_sub_beat st = t_sub s).
Proof.
  split.
  - intros scr mode st tk st' Hmode Hiter.
    apply demo_iter_ok in Hiter. destruct Hiter as (_ & _ & ->).
    unfold end_of_frame, on_sub_beat.
    destruct mode; [congruence| |]; simpl;
      destruct (Qle_bool _ _); reflexivity.
  - intros scr s st Hreach.
    induction Hreach as [|st tk st' _ IH _ _ Hiter]; [reflexivity|].
    apply demo_iter_ok in Hiter. destruct Hiter as (_ & _ & ->).
    simpl. exact IH.
Qed.

Lemma unified_sub_beat_clock_witness :
  last_sub_beat
    (end_of_frame None
       (on_sub_beat SIMPLE (configure SIMPLE) 0.3 (init_state (mk_startup 0 0 0))))
  = 0%Q.
Proof.
  apply (proj2 unified_sub_beat_clock (mk_screen 80 24) (mk_startup 0 0 0)).
  apply reach_step with (st := init_state (mk_startup 0 0 0))
                        (tk := mk_tick true 0.3 [] None None);
    [apply reach_init|reflexivity|reflexivity|reflexivity].
Defined.

(** X8.  Every due beat of the unified visualizer ends the run.  The pass
    raises before anything is appended: on a screen of at least 10 columns
    and 10 rows the [TypeError] of the first constructor call, on a smaller
    one the [ValueError] of the position draw.  The [finally] block runs and
    [demo] is left with the exception, whatever the later passes would have
    been. *)
Theorem unified_beat_ends_the_run :
  (forall scr mode st tk,
      beat_due (configure mode) st (now tk) = true ->
      demo_iter scr mode st tk = Raise (firework_exception scr))
  /\ (forall scr mode st tk rest,
         running st = true -> busy tk = true ->
         beat_due (configure mode) st (now tk) = true ->
         loop scr mode st (tk :: rest)
         = ([EvClear; EvMusicStop; EvPygameQuit], Raised (firework_exception scr)))
  /\ (forall scr,
         10 <= width scr -> 10 <= height scr ->
         firework_exception scr = TypeError too_many_positional)
  /\ (forall scr,
         width scr < 10 \/ height scr < 10 ->
         firework_exception scr = ValueError "empty range for randrange()").
Proof.
  split; [exact unified_beat_raises|]. split; [|split].
  - intros scr mode st tk rest Hrun Hbusy Hdue. simpl loop.
    rewrite Hrun, Hbusy, (unified_beat_raises scr mode st tk Hdue). reflexivity.
  - intros scr Hw Hh. unfold firework_exception.
    destruct (Z.ltb_spec (width scr - 5) 5); [lia|].
    destruct (Z.ltb_spec (height scr - 5) 5); [lia|]. reflexivity.
  - intros scr Hsmall. unfold firework_exception.
    destruct (Z.ltb_spec (width scr - 5) 5); [reflexivity|].
    destruct (Z.ltb_spec (height scr - 5) 5); [reflexivity|lia].
Qed.

Lemma unified_beat_ends_the_run_witness :
  loop (mk_screen 80 24) INSANE (init_state (mk_startup 0 0 0))
    [mk_tick true 0.5 [9; 30; 11; 2; 4; 0; 3; 1; 7]%N None None;
     mk_tick true 0.6 [] None None]
  = ([EvClear; EvMusicStop; EvPygameQuit],
     Raised (firework_exception (mk_screen 80 24))).
Proof.
  apply (proj1 (proj2 unified_beat_ends_the_run)); reflexivity.
Defined.

End UnifiedBeatBranch.

(** ** How the loops end *)

Section LoopExits.

(** X9.  However the loop of the unified visualizer ends, by the end of
    playback, by the quit key or by an exception in any pass, the last two
    things [demo] does are to stop the music and to quit pygame. *)
Theorem unified_loop_always_cleans_up scr mode ticks :
  forall st tr o,
    Unified.loop scr mode st ticks = (tr, o) ->
    (forall st', o <> Running st') ->
    ends_with_cleanup tr.
Proof.
  induction ticks as [|tk rest IH]; intros st tr o Hloop Hdone; simpl in Hloop.
  - inversion Hloop; subst. exfalso. exact (Hdone st eq_refl).
  - destruct (Unified.running st && Unified.busy tk).
    + destruct (Unified.demo_iter scr mode st tk) as [st1|e].
      * destruct (Unified.loop scr mode st1 rest) as [tr1 o1] eqn:E.
        inversion Hloop; subst.
        destruct (IH _ _ _ E Hdone) as (before & ->).
        exists ([EvClear; EvRefresh; EvSleep (Unified.frame_sleep (Unified.configure mode))]
                ++ before).
        rewrite <- app_assoc. reflexivity.
      * inversion Hloop; subst. exists [EvClear]. reflexivity.
    + inversion Hloop; subst. exists []. reflexivity.
Qed.

Lemma unified_loop_always_cleans_up_witness :
  ends_with_cleanup [EvClear; EvMusicStop; EvPygameQuit].
Proof.
  apply (@unified_loop_always_cleans_up (mk_screen 80 24) Unified.STANDARD
           [Unified.mk_tick true 0.1 [] (Some (LibraryError "resize")) None]
           (Unified.init_state (Unified.mk_startup 0 0 0))
           [EvClear; EvMusicStop; EvPygameQuit] (Raised (LibraryError "resize"))).
  - reflexivity.
  - intros st' H. discriminate H.
Defined.

(** X10.  The three single-mode scripts do not protect the cleanup.  When a
    pass of the simple or of the working variant raises, [demo] is left
    without stopping the music or quitting pygame; the queue-driven variant
    lets only non-[Exception] errors (an interrupt) out of [demo], again
    without cleanup.  A run that returns normally ends with the cleanup in
    all three. *)
Theorem single_mode_cleanup_only_on_return :
  (forall scr ticks st tr o,
      Simple.loop scr st ticks = (tr, o) ->
      match o with
      | Raised _ => ~ In EvMusicStop tr /\ ~ In EvPygameQuit tr
      | Returned => ends_with_cleanup tr
      | Running _ => True
      end)
  /\ (forall scr ticks st tr o,
         Working.loop scr st ticks = (tr, o) ->
         match o with
         | Raised _ => ~ In EvMusicStop tr /\ ~ In EvPygameQuit tr
         | Returned => ends_with_cleanup tr
         | Running _ => True
         end)
  /\ (forall scr ticks st tr o,
         Insane.loop scr st ticks = (tr, o) ->
         match o with
         | Raised e =>
             is_Exception e = false /\ ~ In EvMusicStop tr /\ ~ In EvPygameQuit tr
         | Returned => ends_with_cleanup tr
         | Running _ => True
         end).
Proof.
  split; [|split].
  - intros scr ticks. induction ticks as [|tk rest IH]; intros st tr o H; simpl in H.
    + inversion H; subst. exact I.
    + destruct (Simple.busy tk).
      * destruct (Simple.demo_iter scr st tk) as [[st1 [|]]|e].
        -- inversion H; subst. exists [EvClear; EvRefresh]. reflexivity.
        -- destruct (Simple.loop scr st1 rest) as [tr1 o1] eqn:E.
           inversion H; subst. specialize (IH _ _ _ E).
           destruct o as [|e|st2]; [|split|exact I].
           ++ destruct IH as (before & ->).
              exists ([EvClear; EvRefresh; EvSleep 0.03] ++ before).
              rewrite <- app_assoc. reflexivity.
           ++ simpl; intuition discriminate.
           ++ simpl; intuition discriminate.
        -- inversion H; subst. split; simpl; intuition discriminate.
      * inversion H; subst. exists []. reflexivity.
  - intros scr ticks. induction ticks as [|tk rest IH]; intros st tr o H; simpl in H.
    + inversion H; subst. exact I.
    + destruct (Working.running st && Working.busy tk).
      * destruct (Working.demo_iter scr st tk) as [st1|e].
        -- destruct (Working.loop scr st1 rest) as [tr1 o1] eqn:E.
           inversion H; subst. specialize (IH _ _ _ E).
           destruct o as [|e|st2]; [|split|exact I].
           ++ destruct IH as (before & ->).
              exists ([EvClear; EvRefresh; EvSleep 0.025] ++ before).
              rewrite <- app_assoc. reflexivity.
           ++ simpl; intuition discriminate.
           ++ simpl; intuition discriminate.
        -- inversion H; subst. split; simpl; intuition discriminate.
      * inversion H; subst. exists []. reflexivity.
  - intros scr ticks. induction ticks as [|tk rest IH]; intros st tr o H; simpl in H.
    + inversion H; subst. exact I.
    + destruct (Insane.running st).
      * destruct (Insane.demo_iter scr st tk) as [st1|e n q].
        -- destruct (Insane.loop scr st1 rest) as [tr1 o1] eqn:E.
           inversion H; subst. specialize (IH _ _ _ E).
           destruct o as [|e|st2]; [|split; [tauto|split]|exact I].
           ++ destruct IH as (before & ->).
              exists ([EvClear; EvRefresh; EvSleep 0.03] ++ before).
              rewrite <- app_assoc. reflexivity.
           ++ simpl; intuition discriminate.
           ++ simpl; intuition discriminate.
        -- destruct (is_Exception e) eqn:Hexc; inversion H; subst.
           ++ exists ([EvClear] ++ Insane.show_error e). rewrite <- app_assoc.
              reflexivity.
           ++ split; [exact Hexc|]. split; simpl; intuition discriminate.
      * inversion H; subst. exists []. reflexivity.
Qed.

Lemma single_mode_cleanup_only_on_return_witness :
  ~ In EvMusicStop
      (fst (Working.loop (mk_screen 80 24) (Working.init_state 0 0)
              [Working.mk_tick true 0.5 [1; 2; 3]%N None None])).
Proof.
  pose proof (proj1 (proj2 single_mode_cleanup_only_on_return)
                (mk_screen 80 24)
                [Working.mk_tick true 0.5 [1; 2; 3]%N None None]
                (Working.init_state 0 0)
                [EvClear]
                (Raised (NameError "name 'SerpentFireework' is not defined"))
                eq_refl) as H.
  exact (proj1 H).
Defined.

(** X11.  The quit check of the unified loop: the keys [q], [Q] and
    Ctrl+C, and no other key, clear [running]; the pass in which the key is
    read still completes its frame, and the next loop test ends the run with
    the cleanup, whatever the audio is doing. *)
Theorem quit_key_ends_after_the_frame :
  (forall k, is_quit (Some k) = true <-> k = 113 \/ k = 81 \/ k = 3)
  /\ is_quit None = false
  /\ (forall scr mode st tk st',
         Unified.demo_iter scr mode st tk = Ok st' ->
         Unified.running st' = if is_quit (Unified.key tk) then false
                               else Unified.running st)
  /\ (forall scr mode st tk next rest st',
         Unified.running st = true -> Unified.busy tk = true ->
         Unified.demo_iter scr mode st tk = Ok st' ->
         is_quit (Unified.key tk) = true ->
         Unified.loop scr mode st (tk :: next :: rest)
         = ([EvClear; EvRefresh; EvSleep (Unified.frame_sleep (Unified.configure mode));
             EvMusicStop; EvPygameQuit],
            Returned)).
Proof.
  assert (Hrun : forall scr mode st tk st',
             Unified.demo_iter scr mode st tk = Ok st' ->
             Unified.running st' = if is_quit (Unified.key tk) then false
                                   else Unified.running st).
  { intros scr mode st tk st' H. apply demo_iter_ok in H.
    destruct H as (_ & _ & ->). simpl.
    unfold Unified.on_sub_beat. destruct (_ && _); reflexivity. }
  split; [|split; [reflexivity|split; [exact Hrun|]]].
  - intros k. unfold is_quit, quit_keys. simpl.
    rewrite !orb_true_iff, !Z.eqb_eq. intuition discriminate.
  - intros scr mode st tk next rest st' Hr Hb Hiter Hq.
    pose proof (Hrun _ _ _ _ _ Hiter) as Hr'. rewrite Hq in Hr'.
    simpl. rewrite Hr, Hb, Hiter, Hr'. reflexivity.
Qed.

Lemma quit_key_ends_after_the_frame_witness :
  Unified.loop (mk_screen 80 24) Unified.SIMPLE
    (Unified.init_state (Unified.mk_startup 0 0 0))
    [Unified.mk_tick true 0.1 [] None (Some 113);
     Unified.mk_tick true 0.2 [] None None]
  = ([EvClear; EvRefresh; EvSleep (Unified.frame_sleep (Unified.configure Unified.SIMPLE));
      EvMusicStop; EvPygameQuit],
     Returned).
Proof.
  eapply (proj2 (proj2 (proj2 quit_key_ends_after_the_frame))); reflexivity.
Defined.

End LoopExits.

(** ** The command line and the exit status of the unified visualizer *)

Section ExitStatus.

Import Unified.

(** X12.  The enum lookup by value and [value] are inverse to each other,
    and the lookup raises exactly for the strings that are not among the
    parser's choices. *)
Theorem mode_value_round_trip :
  (forall m, VisualizerMode_of (value m) = Ok m)
  /\ (forall s m, VisualizerMode_of s = Ok m -> value m = s)
  /\ (forall s, (exists e, VisualizerMode_of s = Raise e) <-> ~ In s choices).
Proof.
  split; [intros []; reflexivity|].
  assert (Hinv : forall s m, VisualizerMode_of s = Ok m -> value m = s).
  { intros s m. unfold VisualizerMode_of.
    destruct (String.eqb_spec s "simple"); [intros H; inversion H; subst; reflexivity|].
    destruct (String.eqb_spec s "standard"); [intros H; inversion H; subst; reflexivity|].
    destruct (String.eqb_spec s "insane"); [intros H; inversion H; subst; reflexivity|].
    discriminate. }
  split; [exact Hinv|].
  intros s. split.
  - intros (e & He) Hin.
    destruct (VisualizerMode_of_choice Hin) as (v & Hv & _). congruence.
  - intros Hout. destruct (VisualizerMode_of s) as [m|e] eqn:E; [|eauto].
    exfalso. apply Hout. apply Hinv in E. subst s.
    destruct m; simpl; tauto.
Qed.

Lemma mode_value_round_trip_witness :
  value INSANE = "insane"%string.
Proof.
  apply (proj1 (proj2 mode_value_round_trip) "insane"%string INSANE).
  reflexivity.
Defined.

(** The trace of the loop never restores the screen: only [main] does. *)
Lemma main_session_shape scr fs inv s ticks args m :
  parse_args inv = Some args ->
  VisualizerMode_of (mode args) = Ok m ->
  fs (audio_file args) = true ->
  exists tr o,
    demo scr fs (audio_file args) m s ticks = (tr, o)
    /\ main scr fs inv s ticks
       = match o with
         | Running _ =>
             ([EvStdout (banner m (audio_file args)); EvSleep 1; EvScreenOpen] ++ tr,
              None)
         | Returned =>
             (([EvStdout (banner m (audio_file args)); EvSleep 1; EvScreenOpen] ++ tr)
              ++ [EvScreenClose; EvStdout "Thanks for watching!"], Some 0)
         | Raised KeyboardInterrupt =>
             (([EvStdout (banner m (audio_file args)); EvSleep 1; EvScreenOpen] ++ tr)
              ++ [EvScreenClose; EvStdout "Stopped!"], Some 0)
         | Raised e =>
             (([EvStdout (banner m (audio_file args)); EvSleep 1; EvScreenOpen] ++ tr)
              ++ [EvScreenClose; EvStdout ("Error: " ++ str e);
                  EvStderr "Traceback (most recent call last):"], Some 0)
         end.
Proof.
  intros Hparse Hmode Hfs. apply parse_args_parsed in Hparse.
  unfold main. rewrite Hparse, Hmode, Hfs. simpl negb.
  cbv iota.
  destruct (demo scr fs (audio_file args) m s ticks) as [tr o].
  exists tr, o. split; [reflexivity|].
  destruct o as [|e|st]; [reflexivity| |reflexivity].
  destruct e; reflexivity.
Qed.

(** X4.  What the parser of lines 330-338 accepts.  A returned namespace
    comes from a command line with no help option and no unknown option, and
    its file is a positional of that line.  A file alone runs in standard
    mode; [-m/--mode] may stand before or after the file, with its value
    detached or attached, and the last one given counts.  No file, a second
    file, and [--mode] without a value are usage errors. *)
Theorem parser_accepts_one_file_and_a_mode :
  (forall inv args,
      parse_args inv = Some args ->
      In (Positional (audio_file args)) inv
      /\ ~ In OptHelp inv
      /\ In (mode args) choices)
  /\ (forall f, run_parser [Positional f] = Parsed (mk_namespace f "standard"))
  /\ (forall f v,
         In v choices ->
         run_parser [Positional f; OptMode; Positional v] = Parsed (mk_namespace f v)
         /\ run_parser [OptMode; Positional v; Positional f] = Parsed (mk_namespace f v)
         /\ run_parser [OptModeEq v; Positional f] = Parsed (mk_namespace f v))
  /\ (forall f v w,
         In v choices -> In w choices ->
         run_parser [OptModeEq v; Positional f; OptMode; Positional w]
         = Parsed (mk_namespace f w))
  /\ run_parser [] = UsageError audio_file_required
  /\ (forall v, In v choices ->
                run_parser [OptMode; Positional v] = UsageError audio_file_required)
  /\ (forall f g,
         run_parser [Positional f; Positional g] = UsageError (unrecognized [g]))
  /\ (forall f o,
         run_parser [Positional f; OptUnknown o] = UsageError (unrecognized [o]))
  /\ (forall f, run_parser [Positional f; OptMode] = UsageError expected_one_argument)
  /\ (forall f rest,
         run_parser (Positional f :: OptMode :: OptHelp :: rest)
         = UsageError expected_one_argument).
Proof.
  split.
  { intros inv args H. destruct (parse_args_accepts _ H) as (H1 & H2 & H3). auto. }
  split; [reflexivity|]. split.
  { intros f v Hv. apply choices_spec in Hv. unfold run_parser.
    rewrite !consume_cons. cbv beta iota. rewrite Hv. auto. }
  split.
  { intros f v w Hv Hw. apply choices_spec in Hv. apply choices_spec in Hw.
    unfold run_parser. rewrite !consume_cons. cbv beta iota. rewrite Hv, Hw.
    reflexivity. }
  split; [reflexivity|]. split.
  { intros v Hv. apply choices_spec in Hv. unfold run_parser.
    rewrite !consume_cons. cbv beta iota. rewrite Hv. reflexivity. }
  repeat split.
Qed.

Lemma parser_accepts_one_file_and_a_mode_witness :
  In "simple"%string choices
  /\ run_parser [OptMode; Positional "simple"; Positional "song.wav"]
     = Parsed (mk_namespace "song.wav" "simple").
Proof.
  split; [left; reflexivity|].
  apply (proj1 (proj2 (proj1 (proj2 (proj2 parser_accepts_one_file_and_a_mode))
                         "song.wav"%string "simple"%string
                         (or_introl eq_refl)))).
Defined.

(** X13.  The exit status of the unified visualizer: 2 exactly when the
    parser reports a usage error, 1 exactly when the parser returns and the
    audio file is missing, 0 when the help action ends the program, and 0
    for every run that got as far as the screen and has ended, including the
    runs in which the loop raised an exception.  Without [-m/--mode] the run
    is in standard mode. *)
Theorem unified_exit_status scr fs inv s ticks :
  (snd (main scr fs inv s ticks) = Some 2
   <-> exists msg, run_parser inv = UsageError msg)
  /\ (snd (main scr fs inv s ticks) = Some 1
      <-> exists args, parse_args inv = Some args /\ fs (audio_file args) = false)
  /\ (run_parser inv = HelpExit ->
      main scr fs inv s ticks = ([EvStdout help_text], Some 0))
  /\ (forall args,
         parse_args inv = Some args -> fs (audio_file args) = true ->
         In EvScreenOpen (fst (main scr fs inv s ticks))
         /\ (snd (main scr fs inv s ticks) = Some 0
             \/ snd (main scr fs inv s ticks) = None))
  /\ (forall args,
         parse_args inv = Some args ->
         ~ In OptMode inv -> (forall v, ~ In (OptModeEq v) inv) ->
         mode args = "standard"%string).
Proof.
  assert (Hsession :
            forall args, parse_args inv = Some args ->
            fs (audio_file args) = true ->
            In EvScreenOpen (fst (main scr fs inv s ticks))
            /\ (snd (main scr fs inv s ticks) = Some 0
                \/ snd (main scr fs inv s ticks) = None)).
  { intros args Hparse Hfs.
    destruct (parse_args_accepts _ Hparse) as (Hin & _ & _).
    destruct (VisualizerMode_of_choice Hin) as (m & Hm & _).
    destruct (@main_session_shape scr fs inv s ticks args m Hparse Hm Hfs)
      as (tr & o & _ & ->).
    destruct o as [|e|st]; [| |].
    - split; [|left; reflexivity]. simpl. tauto.
    - destruct e; (split; [simpl; tauto|left; reflexivity]).
    - split; [|right; reflexivity]. simpl. tauto. }
  assert (Hmissing :
            forall args, parse_args inv = Some args ->
            fs (audio_file args) = false ->
            snd (main scr fs inv s ticks) = Some 1).
  { intros args Hparse Hfs. rewrite (main_file_missing scr fs inv s ticks Hparse Hfs).
    reflexivity. }
  assert (Hcases :
            (exists args, parse_args inv = Some args)
            \/ (run_parser inv = HelpExit /\ snd (main scr fs inv s ticks) = Some 0)
            \/ (exists msg, run_parser inv = UsageError msg
                            /\ snd (main scr fs inv s ticks) = Some 2)).
  { destruct (parse_args inv) as [args|] eqn:Hparse; [left; eauto|right].
    destruct (main_not_parsed scr fs inv s ticks Hparse)
      as [(H & _ & E)|(msg & H & E)]; rewrite E; [left|right]; eauto. }
  split; [|split; [|split; [|split; [exact Hsession|]]]].
  - split.
    + intros H2. destruct Hcases as [(args & Hp)|[(_ & H0)|(msg & Hm & _)]].
      * exfalso. destruct (fs (audio_file args)) eqn:Hfs.
        -- destruct (Hsession args Hp Hfs) as [_ [H|H]]; congruence.
        -- rewrite (Hmissing args Hp Hfs) in H2. discriminate.
      * congruence.
      * eauto.
    + intros (msg & Hm). unfold main. rewrite Hm. reflexivity.
  - split.
    + intros H1. destruct Hcases as [(args & Hp)|[(_ & H0)|(msg & _ & H2)]].
      * exists args. split; [exact Hp|].
        destruct (fs (audio_file args)) eqn:Hfs; [|reflexivity].
        destruct (Hsession args Hp Hfs) as [_ [H|H]]; congruence.
      * congruence.
      * congruence.
    + intros (args & Hp & Hfs). apply (Hmissing args Hp Hfs).
  - intros Hh. unfold main. rewrite Hh. reflexivity.
  - intros args Hp Hm He. apply parse_args_parsed in Hp. unfold run_parser in Hp.
    exact (@consume_default_mode inv false None "standard"%string [] args
             Hp eq_refl Hm He).
Qed.

(** [ascii-beats.py song.wav] on an 80 x 24 screen whose first pass is a
    beat: the pass raises, and the status is still 0. *)
Lemma unified_exit_status_witness :
  snd (main (mk_screen 80 24) (fun _ => true)
         [Positional "song.wav"] (mk_startup 0 0 0)
         [mk_tick true 0.5 [17; 4; 9]%N None None]) = Some 0
  \/ snd (main (mk_screen 80 24) (fun _ => true)
            [Positional "song.wav"] (mk_startup 0 0 0)
            [mk_tick true 0.5 [17; 4; 9]%N None None]) = None.
Proof.
  apply (proj1 (proj2 (proj2 (proj2 (@unified_exit_status (mk_screen 80 24) (fun _ => true)
                                [Positional "song.wav"] (mk_startup 0 0 0)
                                [mk_tick true 0.5 [17; 4; 9]%N None None]))))
           (mk_namespace "song.wav" "standard")).
  - reflexivity.
  - reflexivity.
Defined.

End ExitStatus.

(** ** The beats of the simple and of the queue-driven variant *)

Section VariantBeats.

Lemma simple_spawn_raises scr frame active :
  raises (Simple.spawn scr frame active) (firework_exception scr).
Proof.
  unfold Simple.spawn.
  apply raises_bind_post with (P := fun n => 3 <= n <= 8);
    [apply total_randint; lia|apply post_randint|].
  intros n Hn. unfold range_len.
  destruct (Z.to_nat n) as [|k] eqn:E; [lia|].
  rewrite repeatM_S. apply raises_bind_l.
  unfold firework_exception.
  destruct (Z.ltb_spec (width scr - 5) 5) as [Hw|Hw]; simpl orb.
  - apply raises_bind_l. apply raises_randint. exact Hw.
  - apply raises_bind_r; [apply total_randint; exact Hw|]. intros x.
    destruct (Z.ltb_spec (height scr - 5) 5) as [Hh|Hh].
    + apply raises_bind_l. apply raises_randint. exact Hh.
    + apply raises_bind_r; [apply total_randint; exact Hh|]. intros y.
      raises_skip. raises_skip.
      apply raises_bind_l. apply new_particle_raises.
Qed.

Lemma simple_beat_raises scr st tk :
  Qle_bool Simple.beat_interval (Simple.now tk - Simple.last_beat_time st) = true ->
  Simple.demo_iter scr st tk = Raise (firework_exception scr).
Proof.
  intros Hdue. unfold Simple.demo_iter, Simple.on_beat. rewrite Hdue. cbv zeta.
  unfold bind at 1.
  rewrite (simple_spawn_raises scr (Simple.frame st) (Simple.active_explosions st)
             (Simple.rnd tk)).
  reflexivity.
Qed.

Lemma simple_loop_before_first_beat scr t0 ticks :
  forall st tr st',
    Simple.beat_count st = 0 /\ Simple.active_explosions st = []
    /\ Simple.last_beat_time st = t0 ->
    Simple.loop scr st ticks = (tr, Running st') ->
    Simple.beat_count st' = 0 /\ Simple.active_explosions st' = []
    /\ Simple.last_beat_time st' = t0.
Proof.
  induction ticks as [|tk rest IH]; intros st tr st' Hst Hloop; simpl in Hloop.
  - inversion Hloop; subst. exact Hst.
  - destruct (Simple.busy tk); [|discriminate].
    destruct (Simple.demo_iter scr st tk) as [[st1 [|]]|e] eqn:Hiter;
      [discriminate| |discriminate].
    destruct (Simple.loop scr st1 rest) as [tr1 o1] eqn:Hrest.
    inversion Hloop; subst. refine (IH _ _ _ _ Hrest).
    destruct (Qle_bool Simple.beat_interval
                (Simple.now tk - Simple.last_beat_time st)) eqn:Hdue.
    + rewrite (simple_beat_raises scr st tk Hdue) in Hiter. discriminate Hiter.
    + unfold Simple.demo_iter, Simple.on_beat in Hiter. rewrite Hdue in Hiter.
      simpl in Hiter. destruct (Simple.fault tk); [discriminate|].
      destruct (is_quit (Simple.key tk)); [discriminate|].
      inversion Hiter; subst. simpl.
      destruct Hst as (Hc & Ha & Hl). rewrite Ha. auto.
Qed.

(** X14.  Every due beat of the simple variant ends the run: line 96 calls
    the chosen firework class with a fifth positional argument, so the pass
    raises [TypeError] (or, on a screen under 10 x 10, the [ValueError] of a
    position draw) before anything is appended.  No [try] surrounds the
    loop, so [demo] is left at once, without the cleanup; while a run is
    still going, no beat has been counted and the list is empty. *)
Theorem simple_beat_ends_the_run :
  (forall scr st tk,
      Qle_bool Simple.beat_interval (Simple.now tk - Simple.last_beat_time st) = true ->
      Simple.demo_iter scr st tk = Raise (firework_exception scr))
  /\ (forall scr st tk rest,
         Simple.busy tk = true ->
         Qle_bool Simple.beat_interval (Simple.now tk - Simple.last_beat_time st) = true ->
         Simple.loop scr st (tk :: rest) = ([EvClear], Raised (firework_exception scr)))
  /\ (forall scr t0 ticks tr st,
         Simple.loop scr (Simple.init_state t0) ticks = (tr, Running st) ->
         Simple.beat_count st = 0 /\ Simple.active_explosions st = []).
Proof.
  split; [exact simple_beat_raises|]. split.
  - intros scr st tk rest Hbusy Hdue. simpl Simple.loop.
    rewrite Hbusy, (simple_beat_raises scr st tk Hdue). reflexivity.
  - intros scr t0 ticks tr st Hloop.
    destruct (@simple_loop_before_first_beat scr t0 ticks (Simple.init_state t0) tr st)
      as (H1 & H2 & _); [repeat split|exact Hloop|auto].
Qed.

Lemma simple_beat_ends_the_run_witness :
  Simple.loop (mk_screen 80 24) (Simple.init_state 0)
    [Simple.mk_tick true 0.5 [2; 30; 11; 1; 7]%N None None;
     Simple.mk_tick true 0.6 [] None None]
  = ([EvClear], Raised (firework_exception (mk_screen 80 24))).
Proof.
  apply (proj1 (proj2 simple_beat_ends_the_run)); reflexivity.
Defined.

(** X15.  [CrazyFirework(screen, x, y)] never returns an object: the first
    pass of its loop draws the offsets, the lifetime and up to three
    [random.random()] values, and whichever branch it takes calls a firework
    class with a fifth positional argument. *)
Theorem CrazyFirework_never_returns :
  forall scr x y t,
    Insane.CrazyFirework scr x y t = Raise (TypeError too_many_positional).
Proof. intros scr x y t. apply CrazyFirework_raises. Qed.

(** X17.  The queue-driven loop fed by the audio thread.  At every loop
    test no beat has been counted, the list of active explosions and the
    queue are empty and the scheme is the first one; the first pass that
    finds a beat on the queue shows the error and ends the loop. *)
Theorem queue_loop_ends_at_first_beat :
  (forall scr st,
      fed_by_thread scr st ->
      Insane.beat_count st = 0 /\ Insane.active_explosions st = []
      /\ Insane.current_scheme st = 0 /\ Insane.beat_queue st = []
      /\ 0 <= Insane.frame st)
  /\ (forall scr st tk more,
         fed_by_thread scr st ->
         Insane.running st = true ->
         Insane.put_before tk <> [] ->
         Forall (fun b => (0 <= Insane.b_intensity b)%Q) (Insane.put_before tk) ->
         Insane.loop scr st (tk :: more)
         = ([EvClear] ++ Insane.show_error (firework_exception scr) ++ Insane.cleanup,
            Returned)).
Proof.
  split; [exact fed_by_thread_locals|].
  intros scr st tk more Hfed Hrun Hne Hpos.
  destruct (fed_by_thread_locals Hfed) as (_ & _ & _ & Hq & _).
  destruct (Insane.put_before tk) as [|b rest] eqn:Harr; [congruence|].
  apply Forall_inv in Hpos. simpl Insane.loop.
  rewrite Hrun, (@demo_iter_first_beat scr st tk b rest),
    firework_exception_is_Exception; [reflexivity| |exact Hpos].
  rewrite Hq, Harr. reflexivity.
Qed.

Lemma queue_loop_ends_at_first_beat_witness :
  Insane.loop (mk_screen 80 24) Insane.init_state
    [Insane.mk_tick [[Insane.mk_beat 0.4 0 0.3]] [5; 1; 2]%N None None;
     Insane.mk_tick [] [] None None]
  = ([EvClear] ++ Insane.show_error (firework_exception (mk_screen 80 24))
     ++ Insane.cleanup,
     Returned).
Proof.
  apply (proj2 queue_loop_ends_at_first_beat).
  - apply fed_init.
  - reflexivity.
  - discriminate.
  - constructor; [vm_compute; discriminate|constructor].
Defined.

End VariantBeats.

(** ** The file check inside [demo] *)

Section DemoFileCheck.

Lemma unified_loop_prints_nothing scr mode ticks :
  forall st tr o,
    Unified.loop scr mode st ticks = (tr, o) ->
    forall msg x y, ~ In (EvPrintAt msg x y) tr.
Proof.
  induction ticks as [|tk rest IH]; intros st tr o H msg x y; simpl in H.
  - inversion H; subst. intros [].
  - destruct (Unified.running st && Unified.busy tk).
    + destruct (Unified.demo_iter scr mode st tk) as [st1|e].
      * destruct (Unified.loop scr mode st1 rest) as [tr1 o1] eqn:E.
        inversion H; subst. simpl.
        intros [Hin|[Hin|[Hin|Hin]]]; try discriminate Hin.
        exact (IH _ _ _ E msg x y Hin).
      * inversion H; subst. simpl. intuition discriminate.
    + inversion H; subst. simpl. intuition discriminate.
Qed.

Lemma working_loop_prints_nothing scr ticks :
  forall st tr o,
    Working.loop scr st ticks = (tr, o) ->
    forall msg x y, ~ In (EvPrintAt msg x y) tr.
Proof.
  induction ticks as [|tk rest IH]; intros st tr o H msg x y; simpl in H.
  - inversion H; subst. intros [].
  - destruct (Working.running st && Working.busy tk).
    + destruct (Working.demo_iter scr st tk) as [st1|e].
      * destruct (Working.loop scr st1 rest) as [tr1 o1] eqn:E.
        inversion H; subst. simpl.
        intros [Hin|[Hin|[Hin|Hin]]]; try discriminate Hin.
        exact (IH _ _ _ E msg x y Hin).
      * inversion H; subst. simpl. intuition discriminate.
    + inversion H; subst. simpl. intuition discriminate.
Qed.

(** X5.  [demo] checks for the audio file itself and, when it is missing,
    prints the error on the screen, waits two seconds and returns without
    starting the audio.  Called from [main] this branch is never taken,
    since [main] has made the same check and exited: no run of the unified
    or of the working script prints anything on the screen through
    [print_at] outside the frame. *)
Theorem demo_file_check_is_dead_under_main :
  (forall scr fs audio_file mode s ticks,
      fs audio_file = false ->
      Unified.demo scr fs audio_file mode s ticks
      = ([EvPrintAt (not_found audio_file) 0 0; EvRefresh; EvSleep 2], Returned))
  /\ (forall scr fs argv t_beat t_sub ticks,
         fs (argv_audio_file argv) = false ->
         Working.demo scr fs argv t_beat t_sub ticks
         = ([EvPrintAt "Error: Audio file not found!" 0 0; EvRefresh; EvSleep 2],
            Returned))
  /\ (forall scr fs inv s ticks msg x y,
         ~ In (EvPrintAt msg x y) (fst (Unified.main scr fs inv s ticks)))
  /\ (forall scr fs argv t_beat t_sub ticks msg x y,
         ~ In (EvPrintAt msg x y) (fst (Working.main scr fs argv t_beat t_sub ticks))).
Proof.
  split; [|split; [|split]].
  - intros scr fs audio_file mode s ticks Hfs. unfold Unified.demo.
    rewrite Hfs. reflexivity.
  - intros scr fs argv t_beat t_sub ticks Hfs. unfold Working.demo.
    rewrite Hfs. reflexivity.
  - intros scr fs inv s ticks msg x y. unfold Unified.main.
    destruct (Unified.run_parser inv) as [args| |m]; simpl;
      [|intuition discriminate|intuition discriminate].
    destruct (Unified.VisualizerMode_of (Unified.mode args)) as [v|e]; simpl;
      [|intuition discriminate].
    destruct (fs (Unified.audio_file args)) eqn:Hfs; simpl;
      [|intuition discriminate].
    unfold Unified.demo. rewrite Hfs. simpl negb. cbv iota.
    destruct (Unified.loop scr v (Unified.init_state s) ticks) as [tr o] eqn:E.
    pose proof (@unified_loop_prints_nothing scr v ticks _ _ _ E msg x y) as Hno.
    destruct o as [|e|st]; [| |]; simpl; try destruct e; simpl;
      rewrite ?in_app_iff; simpl; intuition discriminate.
  - intros scr fs argv t_beat t_sub ticks msg x y. unfold Working.main.
    destruct (fs (argv_audio_file argv)) eqn:Hfs; simpl;
      [|intuition discriminate].
    unfold Working.demo. rewrite Hfs. simpl negb. cbv iota.
    destruct (Working.loop scr (Working.init_state t_beat t_sub) ticks)
      as [tr o] eqn:E.
    pose proof (@working_loop_prints_nothing scr ticks _ _ _ E msg x y) as Hno.
    destruct o as [|e|st]; [| |]; simpl; try destruct e; simpl;
      rewrite ?in_app_iff; simpl; intuition discriminate.
Qed.

Lemma demo_file_check_is_dead_under_main_witness :
  Unified.demo (mk_screen 80 24) (fun _ => false) "gone.wav" Unified.SIMPLE
    (Unified.mk_startup 0 0 0) []
  = ([EvPrintAt (not_found "gone.wav") 0 0; EvRefresh; EvSleep 2], Returned).
Proof.
  apply (proj1 demo_file_check_is_dead_under_main). reflexivity.
Defined.

End DemoFileCheck.

(** ** The audio thread of the queue-driven variant *)

Section AudioThreadFacts.

Import AudioThread.

Lemma normalize_le_1 x : (normalize x <= 1)%Q.
Proof.
  unfold normalize. destruct (Qle_bool (x * 5) 1) eqn:E.
  - apply Qle_bool_iff. exact E.
  - apply Qle_refl.
Qed.

Lemma put_beats_spec rms fd ct pending :
  forall index beats index',
    put_beats rms fd ct pending index = Some (beats, index') ->
    index' = (index + List.length beats)%nat
    /\ map Insane.b_time beats = firstn (List.length beats) pending
    /\ map Insane.b_index beats = map Z.of_nat (seq index (List.length beats))
    /\ Forall (fun b => (Insane.b_time b <= ct)%Q /\ (Insane.b_intensity b <= 1)%Q) beats
    /\ match nth_error pending (List.length beats) with
       | Some onset => (ct < onset)%Q
       | None => True
       end.
Proof.
  induction pending as [|onset later IH]; intros index beats index' H; simpl in H.
  - inversion H; subst. simpl. repeat split; auto.
  - destruct (Qle_bool onset ct) eqn:Hdue.
    + destruct (rms_now rms fd ct) as [v|]; [|discriminate].
      destruct (put_beats rms fd ct later (S index)) as [[bs i']|] eqn:E;
        [|discriminate].
      inversion H; subst. destruct (IH _ _ _ E) as (Hi & Ht & Hx & Hall & Hstop).
      simpl. split; [lia|]. split; [rewrite Ht; reflexivity|].
      split; [rewrite Hx; reflexivity|]. split; [|exact Hstop].
      constructor; [|exact Hall]. simpl. split.
      * apply Qle_bool_iff. exact Hdue.
      * apply normalize_le_1.
    + inversion H; subst. simpl. split; [lia|]. repeat split; auto.
      apply Qnot_le_lt. intros Hle. apply Qle_bool_iff in Hle. congruence.
Qed.

Lemma thread_pass_spec
    rms duration fd onsets index ct beats index' amp :
  thread_pass rms duration fd onsets index ct = Some (beats, index', amp) ->
  index' = (index + List.length beats)%nat
  /\ map Insane.b_time beats = firstn (List.length beats) (skipn index onsets)
  /\ map Insane.b_index beats = map Z.of_nat (seq index (List.length beats))
  /\ Forall (fun b => (Insane.b_time b <= ct)%Q /\ (Insane.b_intensity b <= 1)%Q) beats
  /\ match nth_error onsets index' with
     | Some onset => (ct < onset)%Q
     | None => True
     end.
Proof.
  unfold thread_pass. intros H.
  destruct (put_beats rms fd ct (skipn index onsets) index) as [[bs i']|] eqn:E;
    [|discriminate].
  assert (bs = beats /\ i' = index') as [-> ->].
  { destruct (Qlt_bool ct duration); [destruct (rms_now rms fd ct)|];
      inversion H; auto. }
  destruct (put_beats_spec _ _ _ _ _ E) as (Hi & Ht & Hx & Hall & Hstop).
  split; [exact Hi|]. split; [exact Ht|]. split; [exact Hx|]. split; [exact Hall|].
  destruct (nth_error onsets index') as [onset|] eqn:Hn; [|exact I].
  subst index'.
  assert (Hsk : nth_error (skipn index onsets) (List.length beats) = Some onset).
  { rewrite <- Hn. clear. revert onsets.
    induction index as [|i IH]; intros onsets; simpl; [reflexivity|].
    destruct onsets as [|o os]; simpl.
    - destruct (List.length beats); reflexivity.
    - apply IH. }
  rewrite Hsk in Hstop. exact Hstop.
Qed.

(** X18.  One pass of the audio thread puts the pending onsets on the beat
    queue in the order of [onset_times], starting at [current_beat_index]
    and numbering them consecutively, and stops at the first onset that lies
    in the future or at the end of the list; every beat it puts has an onset
    time not after the thread time and an intensity of at most 1, and
    [current_beat_index] advances by the number of beats put. *)
Theorem thread_pass_puts_due_onsets_in_order
    rms duration fd onsets index ct beats index' amp :
  thread_pass rms duration fd onsets index ct = Some (beats, index', amp) ->
  index' = (index + List.length beats)%nat
  /\ map Insane.b_time beats = firstn (List.length beats) (skipn index onsets)
  /\ map Insane.b_index beats = map Z.of_nat (seq index (List.length beats))
  /\ Forall (fun b => (Insane.b_time b <= ct)%Q /\ (Insane.b_intensity b <= 1)%Q) beats
  /\ match nth_error onsets index' with
     | Some onset => (ct < onset)%Q
     | None => True
     end.
Proof. apply thread_pass_spec. Qed.

Lemma thread_pass_puts_due_onsets_in_order_witness :
  map Insane.b_index
      [Insane.mk_beat 0.4 1 0.5; Insane.mk_beat 0.9 2 0.5]
  = map Z.of_nat (seq 1 2).
Proof.
  refine (proj1 (proj2 (proj2
    (@thread_pass_puts_due_onsets_in_order
       [0.1; 0.1; 0.3]%Q 3 1 [0.2; 0.4; 0.9; 1.7]%Q 1%nat 1.2%Q
       [Insane.mk_beat 0.4 1 0.5; Insane.mk_beat 0.9 2 0.5] 3%nat (Some 0.1%Q) _)))).
  vm_compute. reflexivity.
Defined.

End AudioThreadFacts.

Section AudioThreadRuns.

Import AudioThread.

Lemma rms_now_some rms fd ct :
  rms <> [] -> (0 < fd)%Q -> (0 <= ct)%Q ->
  exists v, rms_now rms fd ct = Some v.
Proof.
  intros Hne Hfd Hct. unfold rms_now.
  destruct (Qeq_bool fd 0) eqn:E.
  { apply Qeq_bool_iff in E. lra. }
  assert (H0 : 0 <= py_int (ct / fd)).
  { apply py_int_lower_bound; [lia|]. change (inject_Z 0) with 0%Q.
    apply Qle_shift_div_l; [exact Hfd|]. lra. }
  assert (Hlen : 0 < Z.of_nat (List.length rms)).
  { destruct rms; [congruence|simpl; lia]. }
  set (i := Z.min (py_int (ct / fd)) (Z.of_nat (List.length rms) - 1)).
  assert (Hi : 0 <= i < Z.of_nat (List.length rms)) by (subst i; lia).
  unfold getitem.
  destruct (Z.leb_spec 0 i); [|lia].
  destruct (Z.ltb_spec i (Z.of_nat (List.length rms))); [|lia].
  simpl. destruct (nth_error rms (Z.to_nat i)) as [v|] eqn:En; [eauto|].
  apply nth_error_None in En. lia.
Qed.

Lemma put_beats_some rms fd ct v :
  rms_now rms fd ct = Some v ->
  forall pending index, exists beats index',
    put_beats rms fd ct pending index = Some (beats, index').
Proof.
  intros Hv. induction pending as [|onset later IH]; intros index; simpl.
  - eauto.
  - destruct (Qle_bool onset ct); [|eauto]. rewrite Hv.
    destruct (IH (S index)) as (bs & i' & ->). eauto.
Qed.

Lemma sorted_skipn (l : list Q) :
  StronglySorted Qle l -> forall n, StronglySorted Qle (skipn n l).
Proof.
  induction 1 as [|a l Hl IH Ha]; intros n.
  - rewrite skipn_nil. constructor.
  - destruct n as [|n]; simpl; [constructor; assumption|apply IH].
Qed.

Lemma future_from_first_future ct (l : list Q) :
  StronglySorted Qle l ->
  forall n,
    match nth_error l n with
    | Some onset => (ct < onset)%Q
    | None => True
    end ->
    Forall (fun onset => (ct < onset)%Q) (skipn n l).
Proof.
  induction 1 as [|a l Hl IH Ha]; intros n Hn.
  - rewrite skipn_nil. constructor.
  - destruct n as [|n]; simpl in *.
    + constructor; [exact Hn|].
      eapply Forall_impl; [|exact Ha]. cbv beta. intros x Hx.
      apply Qlt_le_trans with a; assumption.
    + apply IH. exact Hn.
Qed.

(** X19.  With a non-empty [rms_values], an audio of positive duration and
    a thread time that is not negative, a pass of the audio thread never
    raises.  A zero frame duration makes the first due beat raise.  When the
    onset times are in non-decreasing order, a pass leaves no due onset
    behind: every onset from the new [current_beat_index] on lies in the
    future. *)
Theorem thread_pass_completes_and_leaves_nothing_due :
  (forall rms duration fd onsets index ct,
      rms_frame_duration duration rms = Some fd ->
      (0 < duration)%Q -> (0 <= ct)%Q ->
      exists beats index' amp,
        thread_pass rms duration fd onsets index ct = Some (beats, index', amp))
  /\ (forall rms duration fd onsets index ct onset,
         (fd == 0)%Q ->
         nth_error onsets index = Some onset -> (onset <= ct)%Q ->
         thread_pass rms duration fd onsets index ct = None)
  /\ (forall rms duration fd onsets index ct beats index' amp,
         StronglySorted Qle onsets ->
         thread_pass rms duration fd onsets index ct = Some (beats, index', amp) ->
         Forall (fun onset => (ct < onset)%Q) (skipn index' onsets)).
Proof.
  split; [|split].
  - intros rms duration fd onsets index ct Hfd Hd Hct.
    unfold rms_frame_duration in Hfd.
    destruct rms as [|r rms'] eqn:Hr; [discriminate|]. rewrite <- Hr in *.
    inversion Hfd as [Hfd']. clear Hfd.
    assert (Hpos : (0 < duration / inject_Z (Z.of_nat (List.length rms)))%Q).
    { apply Qlt_shift_div_l.
      - change 0%Q with (inject_Z 0). rewrite <- Zlt_Qlt. rewrite Hr. simpl. lia.
      - lra. }
    assert (Hne : rms <> []) by (rewrite Hr; discriminate).
    destruct (rms_now_some Hne Hpos Hct) as (v & Hv).
    destruct (put_beats_some _ _ _ Hv (skipn index onsets) index) as (bs & i' & E).
    unfold thread_pass. rewrite E, Hv.
    destruct (Qlt_bool ct duration); eauto.
  - intros rms duration fd onsets index ct onset Hfd Hn Hdue.
    unfold thread_pass.
    assert (Hsk : skipn index onsets = onset :: skipn (S index) onsets).
    { clear - Hn. revert onsets Hn.
      induction index as [|i IH]; intros [|o os] Hn; simpl in *; try discriminate.
      - inversion Hn. reflexivity.
      - rewrite (IH os Hn). destruct os; reflexivity. }
    rewrite Hsk. simpl put_beats.
    apply Qle_bool_iff in Hdue. rewrite Hdue.
    unfold rms_now. apply Qeq_bool_iff in Hfd. rewrite Hfd. reflexivity.
  - intros rms duration fd onsets index ct beats index' amp Hsorted H.
    unfold thread_pass in H.
    destruct (put_beats rms fd ct (skipn index onsets) index) as [[bs i']|] eqn:E;
      [|discriminate].
    assert (bs = beats /\ i' = index') as [-> ->].
    { destruct (Qlt_bool ct duration); [destruct (rms_now rms fd ct)|];
        inversion H; auto. }
    destruct (put_beats_spec _ _ _ _ _ E) as (-> & _ & _ & _ & Hstop).
    rewrite Nat.add_comm, <- skipn_skipn.
    apply future_from_first_future; [apply sorted_skipn; exact Hsorted|exact Hstop].
Qed.

Lemma thread_pass_completes_and_leaves_nothing_due_witness :
  Forall (fun onset => (1.2 < onset)%Q) (skipn 3 [0.2; 0.4; 0.9; 1.7]%Q).
Proof.
  apply (proj2 (proj2 thread_pass_completes_and_leaves_nothing_due)
           [0.1; 0.1; 0.3]%Q 3%Q 1%Q [0.2; 0.4; 0.9; 1.7]%Q 1%nat 1.2%Q
           [Insane.mk_beat 0.4 1 0.5; Insane.mk_beat 0.9 2 0.5] 3%nat (Some 0.1%Q)).
  - repeat (constructor; [|repeat (constructor; [discriminate|]); constructor]).
    constructor.
  - vm_compute. reflexivity.
Defined.

Lemma firstn_add_skipn {A} (l : list A) n1 :
  forall n2, firstn (n1 + n2) l = firstn n1 l ++ firstn n2 (skipn n1 l).
Proof.
  revert l. induction n1 as [|n1 IH]; intros l n2; simpl; [reflexivity|].
  destruct l as [|a l]; simpl.
  - rewrite firstn_nil. reflexivity.
  - rewrite IH. reflexivity.
Qed.

Lemma NoDup_map_of_nat l : NoDup l -> NoDup (map Z.of_nat l).
Proof.
  induction 1 as [|a l Ha Hl IH]; simpl; constructor; [|exact IH].
  intros Hin. apply in_map_iff in Hin. destruct Hin as (b & Hb & Hin).
  apply Nat2Z.inj in Hb. subst b. contradiction.
Qed.

(** X20.  Two passes of the audio thread, the second starting at the index
    the first one left, put on the queue what one pass over both spans would
    have put: the onsets in list order, numbered consecutively; no onset is
    put twice. *)
Theorem successive_passes_put_each_onset_once
    rms duration fd onsets index ct1 ct2 beats1 index1 amp1 beats2 index2 amp2 :
  thread_pass rms duration fd onsets index ct1 = Some (beats1, index1, amp1) ->
  thread_pass rms duration fd onsets index1 ct2 = Some (beats2, index2, amp2) ->
  index2 = (index + List.length (beats1 ++ beats2))%nat
  /\ map Insane.b_index (beats1 ++ beats2)
     = map Z.of_nat (seq index (List.length (beats1 ++ beats2)))
  /\ map Insane.b_time (beats1 ++ beats2)
     = firstn (List.length (beats1 ++ beats2)) (skipn index onsets)
  /\ NoDup (map Insane.b_index (beats1 ++ beats2)).
Proof.
  intros H1 H2.
  destruct (thread_pass_spec _ _ _ _ _ _ H1) as (Hi1 & Ht1 & Hx1 & _).
  destruct (thread_pass_spec _ _ _ _ _ _ H2) as (Hi2 & Ht2 & Hx2 & _).
  assert (Hidx : map Insane.b_index (beats1 ++ beats2)
                 = map Z.of_nat (seq index (List.length (beats1 ++ beats2)))).
  { rewrite map_app, Hx1, Hx2, length_app, seq_app, map_app, Hi1. reflexivity. }
  split; [rewrite length_app; lia|]. split; [exact Hidx|]. split.
  - rewrite map_app, Ht1, Ht2, length_app, firstn_add_skipn, Hi1.
    rewrite skipn_skipn.
    replace (List.length beats1 + index)%nat with (index + List.length beats1)%nat
      by lia.
    reflexivity.
  - rewrite Hidx. apply NoDup_map_of_nat, seq_NoDup.
Qed.

Lemma successive_passes_put_each_onset_once_witness :
  NoDup (map Insane.b_index
           ([Insane.mk_beat 0.4 1 0.5; Insane.mk_beat 0.9 2 0.5]
            ++ [Insane.mk_beat 1.7 3 1])).
Proof.
  refine (proj2 (proj2 (proj2
    (@successive_passes_put_each_onset_once
       [0.1; 0.1; 0.3]%Q 3 1 [0.2; 0.4; 0.9; 1.7]%Q 1%nat 1.2%Q 2.5%Q
       [Insane.mk_beat 0.4 1 0.5; Insane.mk_beat 0.9 2 0.5] 3%nat (Some 0.1%Q)
       [Insane.mk_beat 1.7 3 1] 4%nat (Some 0.3%Q) _ _)))).
  - vm_compute. reflexivity.
  - vm_compute. reflexivity.
Defined.

End AudioThreadRuns.

(** ** The intensity of the beats the thread puts *)

Section ThreadIntensity.

Import AudioThread.

Lemma getitem_In {A} (seq : list A) i a : getitem seq i = Some a -> In a seq.
Proof.
  unfold getitem.
  destruct ((0 <=? i) && (i <? Z.of_nat (List.length seq)));
    [intros H; eapply nth_error_In; exact H|].
  destruct ((- Z.of_nat (List.length seq) <=? i) && (i <? 0));
    [intros H; eapply nth_error_In; exact H|discriminate].
Qed.

Lemma rms_now_In rms fd ct v : rms_now rms fd ct = Some v -> In v rms.
Proof.
  unfold rms_now. destruct (Qeq_bool fd 0); [discriminate|]. apply getitem_In.
Qed.

Lemma normalize_nonneg x : (0 <= x)%Q -> (0 <= normalize x)%Q.
Proof.
  intros Hx. unfold normalize. destruct (Qle_bool (x * 5) 1); lra.
Qed.

Lemma put_beats_intensity rms fd ct pending :
  Forall (fun v => (0 <= v)%Q) rms ->
  forall index beats index',
    put_beats rms fd ct pending index = Some (beats, index') ->
    Forall (fun b => (0 <= Insane.b_intensity b)%Q /\ (Insane.b_intensity b <= 1)%Q)
           beats.
Proof.
  intros Hrms. rewrite Forall_forall in Hrms.
  induction pending as [|onset later IH]; intros index beats index' H; simpl in H.
  - inversion H; subst. constructor.
  - destruct (Qle_bool onset ct).
    + destruct (rms_now rms fd ct) as [v|] eqn:Hv; [|discriminate].
      destruct (put_beats rms fd ct later (S index)) as [[bs i']|] eqn:E;
        [|discriminate].
      inversion H; subst. constructor; [|exact (IH _ _ _ E)].
      simpl. split; [|apply normalize_le_1].
      apply normalize_nonneg. apply Hrms. eapply rms_now_In. exact Hv.
    + inversion H; subst. constructor.
Qed.

(** X16.  The beats [audio_player_thread] puts on the queue carry an
    intensity between 0 and 1 when the root-mean-square values it reads are
    not negative: line 101 stores [min(intensity * 5, 1.0)] of one of the
    values of [rms_values].  These are the beats the render loop is fed. *)
Theorem thread_beats_have_unit_intensity
    rms duration fd onsets index ct beats index' amp :
  Forall (fun v => (0 <= v)%Q) rms ->
  thread_pass rms duration fd onsets index ct = Some (beats, index', amp) ->
  Forall (fun b => (0 <= Insane.b_intensity b)%Q /\ (Insane.b_intensity b <= 1)%Q)
         beats.
Proof.
  intros Hrms H. unfold thread_pass in H.
  destruct (put_beats rms fd ct (skipn index onsets) index) as [[bs i']|] eqn:E;
    [|discriminate].
  assert (bs = beats) as ->.
  { destruct (Qlt_bool ct duration); [destruct (rms_now rms fd ct)|];
      inversion H; auto. }
  eapply put_beats_intensity; eassumption.
Qed.

Lemma thread_beats_have_unit_intensity_witness :
  Forall (fun b => (0 <= Insane.b_intensity b)%Q /\ (Insane.b_intensity b <= 1)%Q)
         [Insane.mk_beat 0.4 1 0.5; Insane.mk_beat 0.9 2 0.5].
Proof.
  refine (@thread_beats_have_unit_intensity
            [0.1; 0.1; 0.3]%Q 3 1 [0.2; 0.4; 0.9; 1.7]%Q 1%nat 1.2%Q
            [Insane.mk_beat 0.4 1 0.5; Insane.mk_beat 0.9 2 0.5] 3%nat (Some 0.1%Q)
            _ _).
  - repeat constructor; vm_compute; discriminate.
  - vm_compute. reflexivity.
Defined.

End ThreadIntensity.
